(** * Geo-bucket property search: the normalizer, bucket assignment and
      the matching cascade, embedded from the Python sources

    - [properties/services/normalization.py]  : [LocationNormalizer]
    - [properties/models.py]                  : [GeoBucket], [LocationIndex],
                                                [Property]
    - [properties/services/bucket_service.py] : [BucketService]
    - [properties/services/location_matcher.py] : [LocationMatcher]
    - [properties/serializers.py]             : [PropertySerializer.validate],
                                                [create], [update]

    Modelling conventions.

    - A Python [str] is a list of characters.  Characters are the 8-bit
      [ascii] type read as the code points U+0000..U+00FF; [lower_char] and
      [is_space] follow [str.lower] and [str.isspace] on that range.
    - Python floats are modelled by the rationals [Q]: every finite float
      is a rational, and the code only compares and divides them.
    - The H3 library is external: its grid functions are the fields of
      the class [H3].
    - A database table is the list of its rows; the order in which a query
      returns rows is a field of the class [Database] ([Meta.ordering]
      leaves ties to the database).
    - The matcher only reads the store; its functions return the
      statements they send to it beside their result, so that "no store
      access" can be stated.
    - The writes of properties run in autocommit mode, as the code opens
      no transaction: a constraint is checked by the statement that
      writes the row.  The time of a write is an argument [now] of the
      function that writes. *)

From Stdlib Require Import Ascii String QArith Qround.
From stdpp Require Import base decidable list gmap strings sets.

Local Open Scope list_scope.

(** Python [str] values. *)
Abbreviation str := (list ascii).

(** String literals of the source. *)
Definition py (s : string) : str := list_ascii_of_string s.

(* ################################################################## *)
(** * Part I: the code *)
(* ################################################################## *)

(* ================================================================== *)
(** * Character classes and the [str] methods the code calls *)
(* ================================================================== *)

Module PyStr.

Definition code (c : ascii) : N := N_of_ascii c.

Definition in_range (lo hi : N) (c : ascii) : bool :=
  (lo <=? code c)%N && (code c <=? hi)%N.

(** [str.isspace], also the class [\s] of [re] on [str] patterns:
    TAB..CR, FS..US, SPACE, NEL and NBSP. *)
Definition is_space (c : ascii) : bool :=
  in_range 9 13 c || in_range 28 32 c
  || (code c =? 133)%N || (code c =? 160)%N.

(** The character class [[a-z0-9]]. *)
Definition is_lower_alnum (c : ascii) : bool :=
  in_range 97 122 c || in_range 48 57 c.

(** [str.lower] on one character: A-Z and the Latin-1 capitals
    (U+00C0..U+00DE without the multiplication sign U+00D7). *)
Definition lower_char (c : ascii) : ascii :=
  if in_range 65 90 c
     || (in_range 192 222 c && negb (code c =? 215)%N)
  then ascii_of_N (code c + 32) else c.

(** [str.upper] on one character: a-z and the Latin-1 small letters whose
    capital stays below U+0100 (U+00E0..U+00FE without the division sign
    U+00F7).  The sharp s, the micro sign and y-diaeresis, whose capitals
    are longer or leave the range, are left unchanged; the code only
    upper-cases normalized names, which contain none of them. *)
Definition upper_char (c : ascii) : ascii :=
  if in_range 97 122 c
     || (in_range 224 254 c && negb (code c =? 247)%N)
  then ascii_of_N (code c - 32) else c.

Definition lower (s : str) : str := map lower_char s.
Definition upper (s : str) : str := map upper_char s.

(** [str.lstrip()], [str.rstrip()], [str.strip()]. *)
Fixpoint lstrip (s : str) : str :=
  match s with
  | c :: s' => if is_space c then lstrip s' else s
  | [] => []
  end.

Definition rstrip (s : str) : str := reverse (lstrip (reverse s)).

Definition strip (s : str) : str := rstrip (lstrip s).

(** [str.split()] without arguments: the maximal runs of non-space
    characters, in order.  [cur] is the run being read. *)
Definition flush (cur : str) : list str :=
  match cur with [] => [] | _ => [cur] end.

Fixpoint split_go (cur : str) (s : str) : list str :=
  match s with
  | [] => flush cur
  | c :: s' =>
      if is_space c then flush cur ++ split_go [] s'
      else split_go (cur ++ [c]) s'
  end.

Definition split (s : str) : list str := split_go [] s.

(** [sep.join(words)]. *)
Fixpoint join (sep : str) (ws : list str) : str :=
  match ws with
  | [] => []
  | [w] => w
  | w :: ws' => w ++ sep ++ join sep ws'
  end.

(** [s.replace(old, new)] for a non-empty [old]: the occurrences of
    [old] are found from left to right and do not overlap.  [skip] counts
    the characters of a matched occurrence still to be passed over. *)
Fixpoint replace_go (old new : str) (skip : nat) (s : str) : str :=
  match s with
  | [] => []
  | c :: s' =>
      match skip with
      | S k => replace_go old new k s'
      | O =>
          if decide (old `prefix_of` s)
          then new ++ replace_go old new (length old - 1) s'
          else c :: replace_go old new 0 s'
      end
  end.

Definition replace (old new : str) (s : str) : str :=
  replace_go old new 0 s.

(** [needle in hay]. *)
Fixpoint contains (needle hay : str) : bool :=
  bool_decide (needle `prefix_of` hay)
  || match hay with
     | [] => false
     | _ :: hay' => contains needle hay'
     end.

(** [re.sub(r'[^a-z0-9\s]', ' ', s)]. *)
Definition sub_non_alnum (s : str) : str :=
  map (fun c => if is_lower_alnum c || is_space c then c else " "%char) s.

(** [re.sub(r'\s+', ' ', s)]: [in_run] tells that the previous character
    belonged to the run of white space being replaced. *)
Fixpoint sub_spaces_go (in_run : bool) (s : str) : str :=
  match s with
  | [] => []
  | c :: s' =>
      if is_space c
      then (if in_run then [] else [" "%char]) ++ sub_spaces_go true s'
      else c :: sub_spaces_go false s'
  end.

Definition sub_spaces (s : str) : str := sub_spaces_go false s.

End PyStr.

(* ================================================================== *)
(** * [LocationNormalizer] *)
(* ================================================================== *)

Module LocationNormalizer.
Import PyStr.

(** [COMMON_SUFFIXES], a Python set. *)
Definition COMMON_SUFFIXES : gset str :=
  {[ py "lagos"; py "nigeria"; py "ng"; py "lga"; py "state"; py "area" ]}.

(** [REPLACEMENTS], a dict iterated in insertion order. *)
Definition REPLACEMENTS : list (str * str) :=
  [ (py "str", py "street"); (py "rd", py "road");
    (py "ave", py "avenue"); (py "st", py "street") ].

(** The text after lower-casing, stripping and the two [re.sub] calls. *)
Definition cleaned (name : str) : str :=
  sub_spaces (sub_non_alnum (strip (lower name))).

(** [filtered_words] before the fallback. *)
Definition kept_words (name : str) : list str :=
  filter (fun w => w ∉ COMMON_SUFFIXES) (split (cleaned name)).

(** One turn of the loop over [REPLACEMENTS]. *)
Definition apply_replacement (normalized : str) (r : str * str) : str :=
  replace (py " " ++ r.1 ++ py " ") (py " " ++ r.2 ++ py " ") normalized.

Definition normalize (name : str) : str :=
  match name with
  | [] => []
  | _ =>
      let normalized := cleaned name in
      let words := split normalized in
      let filtered_words := filter (fun w => w ∉ COMMON_SUFFIXES) words in
      let filtered_words :=
        match filtered_words with
        | [] => take 2 (split normalized)
        | _ => filtered_words
        end in
      let normalized := join (py " ") filtered_words in
      strip (foldl apply_replacement normalized REPLACEMENTS)
  end.

(** [generate_trigrams]: the windows [text[i:i+3]]. *)
Fixpoint windows3 (text : str) : list str :=
  match text with
  | a :: (b :: c :: _) as rest => [a; b; c] :: windows3 rest
  | _ => []
  end.

Definition generate_trigrams (text : str) : list str :=
  if bool_decide (length text < 3) then []
  else windows3 (replace (py " ") [] (lower text)).

(** [re.sub(r'[AEIOU]', '', s)]. *)
Definition is_vowel (c : ascii) : bool :=
  bool_decide (c ∈ py "AEIOU").

Definition drop_vowels (s : str) : str :=
  List.filter (fun c => negb (is_vowel c)) s.

(** [re.sub(r'(.)\1+', r'\1', s)]: a run of one repeated character is
    reduced to a single one; [.] does not match a line feed, whose runs
    stay. *)
Definition LF : ascii := ascii_of_N 10.

Fixpoint squeeze (s : str) : str :=
  match s with
  | [] => []
  | c :: s' =>
      match s' with
      | d :: _ =>
          if bool_decide (c = d) && negb (bool_decide (c = LF))
          then squeeze s' else c :: squeeze s'
      | [] => [c]
      end
  end.

Definition metaphone_replacements : list (str * str) :=
  [ (py "PH", py "F"); (py "CK", py "K");
    (py "SH", py "X"); (py "CH", py "X") ].

Definition metaphone_simple (text : str) : str :=
  match upper text with
  | [] => []
  | c :: rest =>
      let result := c :: drop_vowels rest in
      let result := squeeze result in
      let result :=
        foldl (fun acc r => replace r.1 r.2 acc) result
              metaphone_replacements in
      take 10 result
  end.

(** [calculate_similarity]; the quotient of the two set sizes is kept
    exact. *)
Definition calculate_similarity (str1 str2 : str) : Q :=
  match str1, str2 with
  | [], _ | _, [] => 0
  | _, _ =>
      let trigrams1 : gset str := list_to_set (generate_trigrams str1) in
      let trigrams2 : gset str := list_to_set (generate_trigrams str2) in
      if bool_decide (trigrams1 = ∅) || bool_decide (trigrams2 = ∅)
      then (if bool_decide (lower str1 = lower str2) then 1 else 0)
      else
        let intersection := size (trigrams1 ∩ trigrams2) in
        let union := size (trigrams1 ∪ trigrams2) in
        if bool_decide (0 < union)
        then inject_Z (Z.of_nat intersection) / inject_Z (Z.of_nat union)
        else 0
  end.

(** [generate_variants]: [variants] is a Python set, and the list that is
    returned holds its elements, each once, in the order of the set. *)
Definition common_areas : list str := [py "lagos"; py "ajah"; py "lekki"].

Definition variant_set (name : str) : gset str :=
  let normalized := normalize name in
  let variants : gset str := {[ normalized ]} in
  let variants := {[ strip (lower name) ]} ∪ variants in
  foldl (fun (variants : gset str) area =>
           if contains area normalized then variants
           else {[ normalized ++ py " " ++ area ]} ∪ variants)
        variants common_areas.

Definition generate_variants (name : str) : list str :=
  elements (variant_set name).

End LocationNormalizer.

(* ================================================================== *)
(** * The models of [properties/models.py] and the store *)
(* ================================================================== *)

(** A row of [geo_buckets].  [centroid] is [(lng, lat)], as [Point] takes
    them; the two time stamps are left out. *)
Module GeoBucket.
Record t : Type := mk {
  id : Z;
  h3_index : str;
  centroid : Q * Q;
  normalized_name : str;
  variant_names : list str;
  property_count : Z
}.
End GeoBucket.

(** A row of [location_index]; [bucket_id] is the foreign key [bucket]. *)
Module LocationIndex.
Record t : Type := mk {
  id : Z;
  original_name : str;
  normalized_name : str;
  bucket_id : Z;
  metaphone : str;
  trigrams : list str
}.
End LocationIndex.

(** The two tables, rows in insertion order, and the keys their sequences
    give out next.  Column length limits are not modelled: names are taken
    to fit their columns. *)
Record Store : Type := mkStore {
  geo_buckets : list GeoBucket.t;
  location_index : list LocationIndex.t;
  next_bucket_id : Z;
  next_index_id : Z
}.

Definition empty_store : Store := mkStore [] [] 1 1.

(** The exceptions the modelled code can raise. *)
Inductive exn : Type :=
| IntegrityError           (* a unique constraint of the store *)
| DoesNotExist             (* a foreign key without its row *)
| ValidationError (field : str).

Inductive outcome (A : Type) : Type :=
| Ok (a : A)
| Raise (e : exn).
Arguments Ok {A} a.
Arguments Raise {A} e.

(** The H3 library: [h3.latlng_to_cell], [h3.grid_disk] and
    [h3.cell_to_latlng].  On finite coordinates and a valid resolution
    [latlng_to_cell] always returns a cell. *)
Class H3 : Type := {
  latlng_to_cell : Q → Q → Z → str;
  grid_disk : str → Z → list str;
  cell_to_latlng : str → Q * Q
}.

(** The order in which the database returns the rows of a query:
    [GeoBucket] rows by [Meta.ordering] (ties are the database's),
    [LocationIndex] rows in no promised order. *)
Class Database : Type := {
  bucket_order : list GeoBucket.t → list GeoBucket.t;
  index_order : list LocationIndex.t → list LocationIndex.t;
  bucket_order_perm : ∀ rows, bucket_order rows ≡ₚ rows;
  index_order_perm : ∀ rows, index_order rows ≡ₚ rows
}.

(** The update sent by [save(update_fields=['variant_names', ...])]: the
    row with the key [pk] gets [names]. *)
Definition set_variant_names (pk : Z) (names : list str)
    (row : GeoBucket.t) : GeoBucket.t :=
  if decide (GeoBucket.id row = pk)
  then GeoBucket.mk (GeoBucket.id row) (GeoBucket.h3_index row)
         (GeoBucket.centroid row) (GeoBucket.normalized_name row)
         names (GeoBucket.property_count row)
  else row.

(** [GeoBucket.add_variant_name]: a name that is not empty and not yet in
    the list is appended to the object's list, and the object is saved. *)
Definition add_variant_name (self : GeoBucket.t) (name : str) (st : Store)
    : Store * GeoBucket.t :=
  if bool_decide (name ≠ []) && bool_decide (name ∉ GeoBucket.variant_names self)
  then
    let names := GeoBucket.variant_names self ++ [name] in
    (mkStore (set_variant_names (GeoBucket.id self) names <$> geo_buckets st)
             (location_index st) (next_bucket_id st) (next_index_id st),
     set_variant_names (GeoBucket.id self) names self)
  else (st, self).

(** A dict of [get_bucket_details]; [centroid] holds its ['lat'] and its
    ['lng'], in this order. *)
Module BucketDetail.
Record t : Type := mk {
  id : Z;
  h3_index : str;
  normalized_name : str;
  variant_names : list str;
  property_count : Z;
  centroid : Q * Q
}.
End BucketDetail.

(* ================================================================== *)
(** * [BucketService] *)
(* ================================================================== *)

Module BucketService.
Import LocationNormalizer.

Definition H3_RESOLUTION : Z := 9.

Definition calculate_h3_index {grid : H3} (lat lng : Q) : str :=
  latlng_to_cell lat lng H3_RESOLUTION.

Definition get_h3_neighbors {grid : H3} (h3_index : str) : list str :=
  grid_disk h3_index 1.

Definition get_h3_neighbors_extended {grid : H3} (h3_index : str) : list str :=
  grid_disk h3_index 2.

Definition h3_to_coordinates {grid : H3} (h3_index : str) : Q * Q :=
  cell_to_latlng h3_index.

(** [GeoBucket.objects.filter(h3_index=h3_index).first()]. *)
Definition first_by_h3_index {db : Database} (st : Store) (h3_index : str)
    : option GeoBucket.t :=
  head (bucket_order
          (filter (fun b => GeoBucket.h3_index b = h3_index)
                  (geo_buckets st))).

(** [GeoBucket.objects.create(...)]: [h3_index] is [unique=True]; a failed
    insert leaves the table as it was. *)
Definition objects_create (st : Store) (h3_index : str) (centroid : Q * Q)
    (normalized_name : str) (variant_names : list str)
    : Store * outcome GeoBucket.t :=
  if bool_decide (h3_index ∈ GeoBucket.h3_index <$> geo_buckets st)
  then (st, Raise IntegrityError)
  else
    let bucket :=
      GeoBucket.mk (next_bucket_id st) h3_index centroid normalized_name
                   variant_names 0 in
    (mkStore (geo_buckets st ++ [bucket]) (location_index st)
             (next_bucket_id st + 1) (next_index_id st),
     Ok bucket).

(** [_add_to_location_index]. *)
Definition _add_to_location_index (bucket : GeoBucket.t)
    (original_name normalized_name : str) (st : Store) : Store :=
  let exists_ :=
    bool_decide
      (Exists (fun i => LocationIndex.original_name i = original_name
                        ∧ LocationIndex.bucket_id i = GeoBucket.id bucket)
              (location_index st)) in
  if exists_ then st
  else
    let trigrams := generate_trigrams normalized_name in
    let metaphone := metaphone_simple normalized_name in
    mkStore (geo_buckets st)
            (location_index st
             ++ [LocationIndex.mk (next_index_id st) original_name
                   normalized_name (GeoBucket.id bucket) metaphone trigrams])
            (next_bucket_id st) (next_index_id st + 1).

(** The branch of [find_or_create_bucket] for a bucket that was found. *)
Definition found_bucket (bucket : GeoBucket.t)
    (location_name normalized_name : str) (st : Store)
    : Store * outcome GeoBucket.t :=
  let '(st, bucket) := add_variant_name bucket location_name st in
  let st := _add_to_location_index bucket location_name normalized_name st in
  (st, Ok bucket).

(** The branch that creates the bucket; nothing catches what [create]
    raises. *)
Definition create_bucket {grid : H3} (h3_index : str)
    (location_name normalized_name : str) (st : Store)
    : Store * outcome GeoBucket.t :=
  let '(centroid_lat, centroid_lng) := h3_to_coordinates h3_index in
  let centroid := (centroid_lng, centroid_lat) in
  match objects_create st h3_index centroid normalized_name
          (match location_name with [] => [] | _ => [location_name] end) with
  | (st, Raise e) => (st, Raise e)
  | (st, Ok bucket) =>
      let st :=
        _add_to_location_index bucket location_name normalized_name st in
      (st, Ok bucket)
  end.

(** [find_or_create_bucket], with what other workers write to the store
    between this call's look-up and its insert: the two are separate
    statements, outside any transaction. *)
Definition find_or_create_bucket_among {grid : H3} {db : Database}
    (others : Store → Store) (lat lng : Q) (location_name : str)
    (st : Store) : Store * outcome GeoBucket.t :=
  let h3_index := calculate_h3_index lat lng in
  let normalized_name := normalize location_name in
  match first_by_h3_index st h3_index with
  | Some bucket => found_bucket bucket location_name normalized_name st
  | None => create_bucket h3_index location_name normalized_name (others st)
  end.

(** [find_or_create_bucket] running alone. *)
Definition find_or_create_bucket {grid : H3} {db : Database}
    (lat lng : Q) (location_name : str) (st : Store)
    : Store * outcome GeoBucket.t :=
  find_or_create_bucket_among (fun st => st) lat lng location_name st.

(** [get_bucket_details]: [centroid.y] is the latitude and [centroid.x]
    the longitude of the point. *)
Definition get_bucket_details {db : Database} (st : Store)
    : list BucketDetail.t :=
  let buckets := bucket_order (filter (fun _ => True) (geo_buckets st)) in
  (fun bucket =>
     BucketDetail.mk (GeoBucket.id bucket) (GeoBucket.h3_index bucket)
       (GeoBucket.normalized_name bucket) (GeoBucket.variant_names bucket)
       (GeoBucket.property_count bucket)
       ((GeoBucket.centroid bucket).2, (GeoBucket.centroid bucket).1))
  <$> buckets.

End BucketService.

(* ================================================================== *)
(** * [PropertySerializer.validate] *)
(* ================================================================== *)

Module PropertySerializer.

(** [x is not None and (x < lo or x > hi)]; [data.get] may give [None]. *)
Definition outside (lo hi : Q) (x : option Q) : bool :=
  match x with
  | Some v => negb (Qle_bool lo v) || negb (Qle_bool v hi)
  | None => false
  end.

Definition validate (lat lng : option Q) : outcome (option Q * option Q) :=
  if outside (-90) 90 lat then Raise (ValidationError (py "lat"))
  else if outside (-180) 180 lng then Raise (ValidationError (py "lng"))
  else Ok (lat, lng).

End PropertySerializer.

(* ================================================================== *)
(** * The property counter of [GeoBucket], the model [Property] and the
      writes of [PropertySerializer] *)
(* ================================================================== *)

(** What the methods of the models raise: the exceptions of [exn], the
    [DatabaseError] of a [save] with [update_fields] that finds no row to
    update, and the error of [delete] on an instance without key (a
    [ValueError]; an [AssertionError] before Django 4.0). *)
Inductive model_exn : Type :=
| StoreExn (e : exn)
| DatabaseError
| NoPrimaryKey.

Inductive result (A : Type) : Type :=
| Done (a : A)
| Failed (e : model_exn).
Arguments Done {A} a.
Arguments Failed {A} e.

(** The update [property_count = F('property_count') + d] of the rows
    with the key [pk]. *)
Definition add_to_property_count (pk d : Z) (row : GeoBucket.t)
    : GeoBucket.t :=
  if decide (GeoBucket.id row = pk)
  then GeoBucket.mk (GeoBucket.id row) (GeoBucket.h3_index row)
         (GeoBucket.centroid row) (GeoBucket.normalized_name row)
         (GeoBucket.variant_names row) (GeoBucket.property_count row + d)
  else row.

(** [self.save(update_fields=['property_count', 'updated_at'])] after
    [self.property_count = F('property_count') + d]. *)
Definition save_property_count (self : GeoBucket.t) (d : Z) (st : Store)
    : Store * result unit :=
  if bool_decide (GeoBucket.id self ∈ GeoBucket.id <$> geo_buckets st)
  then (mkStore (add_to_property_count (GeoBucket.id self) d
                   <$> geo_buckets st)
                (location_index st) (next_bucket_id st) (next_index_id st),
        Done ())
  else (st, Failed DatabaseError).

(** [GeoBucket.objects.get(pk=pk)]. *)
Definition get_bucket (pk : Z) (st : Store) : result GeoBucket.t :=
  match head (filter (fun b => GeoBucket.id b = pk) (geo_buckets st)) with
  | Some row => Done row
  | None => Failed (StoreExn DoesNotExist)
  end.

(** [self.refresh_from_db()]. *)
Definition refresh_from_db (self : GeoBucket.t) (st : Store)
    : result GeoBucket.t :=
  get_bucket (GeoBucket.id self) st.

(** [GeoBucket.increment_property_count]; the object is returned as the
    refresh leaves it. *)
Definition increment_property_count (self : GeoBucket.t) (st : Store)
    : Store * result GeoBucket.t :=
  match save_property_count self 1 st with
  | (st, Done _) => (st, refresh_from_db self st)
  | (st, Failed e) => (st, Failed e)
  end.

(** [GeoBucket.decrement_property_count]: the test reads the count the
    object holds. *)
Definition decrement_property_count (self : GeoBucket.t) (st : Store)
    : Store * result GeoBucket.t :=
  if bool_decide (0 < GeoBucket.property_count self)%Z
  then
    match save_property_count self (-1) st with
    | (st, Done _) => (st, refresh_from_db self st)
    | (st, Failed e) => (st, Failed e)
    end
  else (st, Done self).

(** A row of [properties].  [created_at] is the time of the insert;
    [updated_at], which every save overwrites with the time of the save,
    is left out. *)
Module PropertyRow.
Record t : Type := mk {
  id : Z;
  title : str;
  location_name : str;
  location : Q * Q;
  bucket_id : option Z;
  price : Q;
  bedrooms : Z;
  bathrooms : Z;
  created_at : Z
}.
End PropertyRow.

(** An instance of [Property]: [pk] is [None] until the first save,
    [bucket] is the related object that the instance holds ([bucket_id]
    is its key), and [created_at] is [None] on an instance that was
    neither loaded nor inserted. *)
Module Property.
Record t : Type := mk {
  pk : option Z;
  title : str;
  location_name : str;
  location : Q * Q;
  bucket : option GeoBucket.t;
  price : Q;
  bedrooms : Z;
  bathrooms : Z;
  created_at : option Z
}.

Definition bucket_id (self : t) : option Z := GeoBucket.id <$> bucket self.

Definition with_pk (pk : option Z) (self : t) : t :=
  mk pk (title self) (location_name self) (location self) (bucket self)
     (price self) (bedrooms self) (bathrooms self) (created_at self).

Definition with_bucket (bucket : option GeoBucket.t) (self : t) : t :=
  mk (pk self) (title self) (location_name self) (location self) bucket
     (price self) (bedrooms self) (bathrooms self) (created_at self).

Definition with_created_at (created_at : option Z) (self : t) : t :=
  mk (pk self) (title self) (location_name self) (location self)
     (bucket self) (price self) (bedrooms self) (bathrooms self) created_at.

(** The row that a save writes for the instance. *)
Definition row (pk created_at : Z) (self : t) : PropertyRow.t :=
  PropertyRow.mk pk (title self) (location_name self) (location self)
    (bucket_id self) (price self) (bedrooms self) (bathrooms self)
    created_at.
End Property.

(** The store with the table [properties] and its sequence. *)
Record Tables : Type := mkTables {
  store : Store;
  properties : list PropertyRow.t;
  next_property_id : Z
}.

Definition empty_tables : Tables := mkTables empty_store [] 1.

Definition with_store (st : Store) (tables : Tables) : Tables :=
  mkTables st (properties tables) (next_property_id tables).

Module PropertyModel.

(** [super().save()] at the time [now]: an instance without key is
    inserted with the next key of the sequence; one with a key updates
    the row of that key, or is inserted with it if there is none.  An
    insert sets [created_at] to [now] ([auto_now_add]); an update writes
    the [created_at] the instance holds, and the column takes no NULL.
    The foreign key [bucket_id] has to name a bucket; a refused insert
    has used up its key. *)
Definition model_save (now : Z) (self : Property.t) (tables : Tables)
    : Tables * result Property.t :=
  let references :=
    match Property.bucket_id self with
    | Some b => bool_decide (b ∈ GeoBucket.id <$> geo_buckets (store tables))
    | None => true
    end in
  match Property.pk self with
  | None =>
      let pk := next_property_id tables in
      if references
      then (mkTables (store tables)
              (properties tables ++ [Property.row pk now self]) (pk + 1),
            Done (Property.with_created_at (Some now)
                    (Property.with_pk (Some pk) self)))
      else (mkTables (store tables) (properties tables) (pk + 1),
            Failed (StoreExn IntegrityError))
  | Some pk =>
      if references
      then
        if bool_decide (pk ∈ PropertyRow.id <$> properties tables)
        then
          match Property.created_at self with
          | Some created_at =>
              (mkTables (store tables)
                 ((fun r => if decide (PropertyRow.id r = pk)
                            then Property.row pk created_at self else r)
                  <$> properties tables)
                 (next_property_id tables),
               Done self)
          | None => (tables, Failed (StoreExn IntegrityError))
          end
        else (mkTables (store tables)
                (properties tables ++ [Property.row pk now self])
                (next_property_id tables),
              Done (Property.with_created_at (Some now) self))
      else (tables, Failed (StoreExn IntegrityError))
  end.

(** [self.bucket.increment_property_count()], for [self.bucket] that is
    not [None]. *)
Definition increment_bucket (self : Property.t) (bucket : GeoBucket.t)
    (tables : Tables) : Tables * result Property.t :=
  match increment_property_count bucket (store tables) with
  | (st, Done bucket) =>
      (with_store st tables, Done (Property.with_bucket (Some bucket) self))
  | (st, Failed e) => (with_store st tables, Failed e)
  end.

(** [Property.save], called at the time [now]. *)
Definition save (now : Z) (self : Property.t) (tables : Tables)
    : Tables * result Property.t :=
  let is_new := bool_decide (Property.pk self = None) in
  let old_bucket_id : option Z :=
    match Property.pk self with
    | None => None
    | Some pk =>
        let old_property :=
          head (filter (fun r => PropertyRow.id r = pk) (properties tables)) in
        match old_property with
        | Some old_property => PropertyRow.bucket_id old_property
        | None => None
        end
    end in
  match model_save now self tables with
  | (tables, Failed e) => (tables, Failed e)
  | (tables, Done self) =>
      if is_new
      then
        match Property.bucket self with
        | Some bucket => increment_bucket self bucket tables
        | None => (tables, Done self)
        end
      else if bool_decide (old_bucket_id ≠ Property.bucket_id self)
      then
        let decremented : Tables * result unit :=
          match old_bucket_id with
          | Some pk =>
              if bool_decide (pk ≠ 0%Z)
              then
                match get_bucket pk (store tables) with
                | Done old_bucket =>
                    match decrement_property_count old_bucket (store tables) with
                    | (st, Done _) => (with_store st tables, Done ())
                    | (st, Failed e) => (with_store st tables, Failed e)
                    end
                | Failed e => (tables, Failed e)
                end
              else (tables, Done ())
          | None => (tables, Done ())
          end in
        match decremented with
        | (tables, Failed e) => (tables, Failed e)
        | (tables, Done _) =>
            match Property.bucket self with
            | Some bucket => increment_bucket self bucket tables
            | None => (tables, Done self)
            end
        end
      else (tables, Done self)
  end.

(** [Property.delete]: the count is taken down first, then the row is
    removed. *)
Definition delete (self : Property.t) (tables : Tables)
    : Tables * result Property.t :=
  let decremented : Tables * result Property.t :=
    match Property.bucket self with
    | Some bucket =>
        match decrement_property_count bucket (store tables) with
        | (st, Done bucket) =>
            (with_store st tables, Done (Property.with_bucket (Some bucket) self))
        | (st, Failed e) => (with_store st tables, Failed e)
        end
    | None => (tables, Done self)
    end in
  match decremented with
  | (tables, Failed e) => (tables, Failed e)
  | (tables, Done self) =>
      match Property.pk self with
      | None => (tables, Failed NoPrimaryKey)
      | Some pk =>
          (mkTables (store tables)
             (filter (fun r => PropertyRow.id r ≠ pk) (properties tables))
             (next_property_id tables),
           Done (Property.with_pk None self))
      end
  end.

End PropertyModel.

(** [PropertySerializer.create] and [PropertySerializer.update]. *)
Module PropertyWrites.
Import BucketService.

(** [validated_data] of a create: every field is there. *)
Record validated : Type := mk_validated {
  v_title : str;
  v_location_name : str;
  v_lat : Q;
  v_lng : Q;
  v_price : Q;
  v_bedrooms : Z;
  v_bathrooms : Z
}.

(** [validated_data] of an update, which may be partial. *)
Record changes : Type := mk_changes {
  c_title : option str;
  c_location_name : option str;
  c_lat : option Q;
  c_lng : option Q;
  c_price : option Q;
  c_bedrooms : option Z;
  c_bathrooms : option Z
}.

Definition create {grid : H3} {db : Database} (now : Z)
    (validated_data : validated) (tables : Tables)
    : Tables * result Property.t :=
  let lat := v_lat validated_data in
  let lng := v_lng validated_data in
  let location_name := v_location_name validated_data in
  let point := (lng, lat) in
  match find_or_create_bucket lat lng location_name (store tables) with
  | (st, Ok bucket) =>
      PropertyModel.save now
        (Property.mk None (v_title validated_data) location_name point
           (Some bucket) (v_price validated_data)
           (v_bedrooms validated_data) (v_bathrooms validated_data) None)
        (with_store st tables)
  | (st, Raise e) => (with_store st tables, Failed (StoreExn e))
  end.

(** The loop [setattr(instance, attr, value)] over what is left of
    [validated_data]. *)
Definition set_attributes (instance : Property.t) (validated_data : changes)
    : Property.t :=
  Property.mk (Property.pk instance)
    (default (Property.title instance) (c_title validated_data))
    (default (Property.location_name instance)
       (c_location_name validated_data))
    (Property.location instance) (Property.bucket instance)
    (default (Property.price instance) (c_price validated_data))
    (default (Property.bedrooms instance) (c_bedrooms validated_data))
    (default (Property.bathrooms instance) (c_bathrooms validated_data))
    (Property.created_at instance).

Definition update {grid : H3} {db : Database} (now : Z)
    (instance : Property.t) (validated_data : changes) (tables : Tables)
    : Tables * result Property.t :=
  let lat := c_lat validated_data in
  let lng := c_lng validated_data in
  let relocated : Tables * result Property.t :=
    match lat, lng with
    | Some lat, Some lng =>
        let point := (lng, lat) in
        let location_name :=
          default (Property.location_name instance)
            (c_location_name validated_data) in
        match find_or_create_bucket lat lng location_name (store tables) with
        | (st, Ok bucket) =>
            (with_store st tables,
             Done (Property.mk (Property.pk instance)
                     (Property.title instance)
                     (Property.location_name instance) point (Some bucket)
                     (Property.price instance) (Property.bedrooms instance)
                     (Property.bathrooms instance)
                     (Property.created_at instance)))
        | (st, Raise e) => (with_store st tables, Failed (StoreExn e))
        end
    | _, _ => (tables, Done instance)
    end in
  match relocated with
  | (tables, Done instance) =>
      PropertyModel.save now (set_attributes instance validated_data) tables
  | (tables, Failed e) => (tables, Failed e)
  end.

End PropertyWrites.

(* ================================================================== *)
(** * [LocationMatcher] *)
(* ================================================================== *)

(** Modelled from the spec: [Levenshtein.distance] of the external
    Levenshtein package, the "minimum single-character
    insert/delete/substitute operations between two strings". *)
Fixpoint levenshtein (s t : str) : nat :=
  match s with
  | [] => length t
  | a :: s' =>
      (fix inner (t : str) : nat :=
         match t with
         | [] => length s
         | b :: t' =>
             Nat.min (Nat.min (S (levenshtein s' t)) (S (inner t')))
                     ((if decide (a = b) then 0 else 1) + levenshtein s' t')
         end) t
  end.

(** The statements the matcher sends to the store, in the order sent. *)
Inductive query : Type :=
| BucketsByNameIExact (name : str)
| BucketsByCells (cells : list str)
| BucketsAll
| IndexByNameIContains (fragment : str)
| IndexByMetaphone (code : str)
| BucketByPk (pk : Z).

(** A read of the store: the statements sent, and a value or an
    exception. *)
Definition M (A : Type) : Type := list query * outcome A.

#[global] Instance M_ret : MRet M := fun A a => ([], Ok a).

#[global] Instance M_bind : MBind M := fun A B k m =>
  match m with
  | (sent, Ok a) => let '(sent', r) := k a in (sent ++ sent', r)
  | (sent, Raise e) => (sent, Raise e)
  end.

Definition send {A : Type} (q : query) (rows : A) : M A := ([q], Ok rows).

Module LocationMatcher.
Import PyStr LocationNormalizer.

Definition EXACT_MATCH_THRESHOLD : Q := 95 # 100.
Definition GOOD_MATCH_THRESHOLD : Q := 8 # 10.
Definition ACCEPTABLE_MATCH_THRESHOLD : Q := 6 # 10.
Definition MAX_LEVENSHTEIN_DISTANCE : nat := 2.

(** The default of [min_results]. *)
Definition DEFAULT_MIN_RESULTS : Z := 5.

Definition _validate_coords (lat lng : Q) : bool :=
  if negb (Qle_bool 4 lat && Qle_bool lat 14) then false
  else if negb (Qle_bool 3 lng && Qle_bool lng 15) then false
  else true.

(** [xs.filter(...)] on [GeoBucket] and on [LocationIndex]. *)
Definition buckets_where {db : Database} (st : Store) (q : query)
    (P : GeoBucket.t → Prop) `{!∀ b, Decision (P b)} : M (list GeoBucket.t) :=
  send q (bucket_order (filter P (geo_buckets st))).

Definition indices_where {db : Database} (st : Store) (q : query)
    (P : LocationIndex.t → Prop) `{!∀ i, Decision (P i)}
    : M (list LocationIndex.t) :=
  send q (index_order (filter P (location_index st))).

(** [index.bucket]: the row the foreign key names is fetched. *)
Definition related_bucket (st : Store) (index : LocationIndex.t)
    : M GeoBucket.t :=
  ([BucketByPk (LocationIndex.bucket_id index)],
   match head (filter (fun b => GeoBucket.id b = LocationIndex.bucket_id index)
                      (geo_buckets st)) with
   | Some bucket => Ok bucket
   | None => Raise DoesNotExist
   end).

(** Layer 1: [normalized_name__iexact]. *)
Definition _exact_name_match {db : Database} (st : Store) (normalized_name : str)
    : M (list GeoBucket.t) :=
  buckets_where st (BucketsByNameIExact normalized_name)
    (fun b => upper (GeoBucket.normalized_name b) = upper normalized_name).

Definition _is_name_match (search_name bucket_name : str) : bool :=
  if bool_decide (search_name = bucket_name) then true
  else if contains search_name bucket_name || contains bucket_name search_name
  then true
  else
    let similarity := calculate_similarity search_name bucket_name in
    Qle_bool GOOD_MATCH_THRESHOLD similarity.

Fixpoint _check_variant_names (search_name : str) (variant_names : list str)
    : bool :=
  match variant_names with
  | [] => false
  | variant :: rest =>
      let normalized_variant := normalize variant in
      if _is_name_match search_name normalized_variant then true
      else _check_variant_names search_name rest
  end.

(** Layer 2. *)
Definition _spatial_name_match {grid : H3} {db : Database} (st : Store)
    (normalized_name : str) (lat lng : Q) : M (list GeoBucket.t) :=
  let h3_index := BucketService.calculate_h3_index lat lng in
  let neighbor_indices := BucketService.get_h3_neighbors h3_index in
  buckets ← buckets_where st (BucketsByCells neighbor_indices)
               (fun b => GeoBucket.h3_index b ∈ neighbor_indices);
  mret (List.filter
          (fun bucket =>
             if _is_name_match normalized_name
                  (GeoBucket.normalized_name bucket) then true
             else _check_variant_names normalized_name
                    (GeoBucket.variant_names bucket))
          buckets).

(** Layer 3, method 1: the loop over all buckets. *)
Definition fuzzy_levenshtein {db : Database} (st : Store) (normalized_name : str)
    : M (list GeoBucket.t) :=
  all_buckets ← buckets_where st BucketsAll (fun _ => True);
  mret (List.filter
          (fun bucket =>
             bool_decide
               (levenshtein normalized_name (GeoBucket.normalized_name bucket)
                ≤ MAX_LEVENSHTEIN_DISTANCE))
          all_buckets).

(** Layer 3, method 2: the loop over the index rows found by
    [normalized_name__icontains]. *)
Fixpoint trigram_loop (st : Store) (normalized_name : str)
    (indices : list LocationIndex.t) : M (list GeoBucket.t) :=
  match indices with
  | [] => mret []
  | index :: rest =>
      let similarity :=
        calculate_similarity normalized_name
          (LocationIndex.normalized_name index) in
      if Qle_bool ACCEPTABLE_MATCH_THRESHOLD similarity
      then
        bucket ← related_bucket st index;
        more ← trigram_loop st normalized_name rest;
        mret (bucket :: more)
      else trigram_loop st normalized_name rest
  end.

Definition fuzzy_trigram {db : Database} (st : Store) (normalized_name : str)
    : M (list GeoBucket.t) :=
  let fragment := take 3 normalized_name in
  indices ← indices_where st (IndexByNameIContains fragment)
               (fun i => contains (upper fragment)
                           (upper (LocationIndex.normalized_name i)));
  trigram_loop st normalized_name indices.

(** Layer 3, method 3: [[idx.bucket for idx in metaphone_indices]]. *)
Fixpoint related_buckets (st : Store) (indices : list LocationIndex.t)
    : M (list GeoBucket.t) :=
  match indices with
  | [] => mret []
  | index :: rest =>
      bucket ← related_bucket st index;
      more ← related_buckets st rest;
      mret (bucket :: more)
  end.

Definition fuzzy_metaphone {db : Database} (st : Store) (normalized_name : str)
    : M (list GeoBucket.t) :=
  let metaphone := metaphone_simple normalized_name in
  match metaphone with
  | [] => mret []
  | _ =>
      metaphone_indices ← indices_where st (IndexByMetaphone metaphone)
                             (fun i => LocationIndex.metaphone i = metaphone);
      related_buckets st metaphone_indices
  end.

(** Layer 3. *)
Definition _fuzzy_name_match {db : Database} (st : Store) (normalized_name : str)
    : M (list GeoBucket.t) :=
  by_distance ← fuzzy_levenshtein st normalized_name;
  by_trigrams ← fuzzy_trigram st normalized_name;
  by_sound ← fuzzy_metaphone st normalized_name;
  mret (by_distance ++ by_trigrams ++ by_sound).

(** [_deduplicate_buckets]; [seen_ids] is the Python set. *)
Fixpoint deduplicate_from (seen_ids : gset Z) (buckets : list GeoBucket.t)
    : list GeoBucket.t :=
  match buckets with
  | [] => []
  | bucket :: rest =>
      if decide (GeoBucket.id bucket ∈ seen_ids)
      then deduplicate_from seen_ids rest
      else bucket :: deduplicate_from ({[GeoBucket.id bucket]} ∪ seen_ids) rest
  end.

Definition _deduplicate_buckets (buckets : list GeoBucket.t)
    : list GeoBucket.t :=
  deduplicate_from ∅ buckets.

(** The end of [find_matching_buckets], from the comment "Layer 3" on. *)
Definition fuzzy_layer {db : Database} (st : Store) (normalized_search : str)
    (buckets : list GeoBucket.t) : M (list GeoBucket.t) :=
  fuzzy_buckets ← _fuzzy_name_match st normalized_search;
  mret (_deduplicate_buckets (buckets ++ fuzzy_buckets)).

Definition find_matching_buckets {grid : H3} {db : Database} (st : Store)
    (search_term : str) (lat lng : option Q) (min_results : Z)
    : M (list GeoBucket.t) :=
  match search_term with
  | [] => mret []
  | _ =>
      let normalized_search := normalize search_term in
      exact ← _exact_name_match st normalized_search;
      let buckets := [] ++ exact in
      if bool_decide (min_results ≤ Z.of_nat (length buckets))%Z
      then mret (_deduplicate_buckets buckets)
      else
        match lat, lng with
        | Some lat', Some lng' =>
            if _validate_coords lat' lng'
            then
              spatial_buckets ←
                _spatial_name_match st normalized_search lat' lng';
              let buckets := buckets ++ spatial_buckets in
              if bool_decide (min_results ≤ Z.of_nat (length buckets))%Z
              then mret (_deduplicate_buckets buckets)
              else fuzzy_layer st normalized_search buckets
            else fuzzy_layer st normalized_search buckets
        | _, _ => fuzzy_layer st normalized_search buckets
        end
  end.

(** Layer 4, [_extended_spatial_match], which [find_matching_buckets] does
    not call: [search_words & bucket_words] is true when the two sets
    share a word. *)
Definition _extended_spatial_match {grid : H3} {db : Database} (st : Store)
    (normalized_name : str) (lat lng : Q) : M (list GeoBucket.t) :=
  let h3_index := BucketService.calculate_h3_index lat lng in
  let neighbor_indices := BucketService.get_h3_neighbors_extended h3_index in
  buckets ← buckets_where st (BucketsByCells neighbor_indices)
               (fun b => GeoBucket.h3_index b ∈ neighbor_indices);
  let search_words : gset str := list_to_set (split normalized_name) in
  mret (List.filter
          (fun bucket =>
             let bucket_words : gset str :=
               list_to_set (split (GeoBucket.normalized_name bucket)) in
             negb (bool_decide (search_words ∩ bucket_words = ∅)))
          buckets).

(** [geocode_location]: the centroid of the first bucket of that name,
    latitude first. *)
Definition geocode_location {db : Database} (st : Store)
    (location_name : str) : option (Q * Q) :=
  let normalized := normalize location_name in
  let bucket :=
    head (bucket_order
            (filter (fun b => upper (GeoBucket.normalized_name b)
                              = upper normalized)
                    (geo_buckets st))) in
  match bucket with
  | Some bucket =>
      Some ((GeoBucket.centroid bucket).2, (GeoBucket.centroid bucket).1)
  | None => None
  end.

End LocationMatcher.

(* ################################################################## *)
(** * Part II: notions for the properties *)
(* ################################################################## *)

(* ================================================================== *)
(** * A small grid and a store order, to run the code on examples *)
(* ================================================================== *)

Module Toy.
Import PyStr LocationNormalizer BucketService LocationMatcher.

(** One cell per degree of latitude: the band a point lies in, as one
    character; any latitude is taken. *)
Definition band (lat lng : Q) : str :=
  [ascii_of_N (Z.to_N (Qfloor lat + 90))].

Definition band_shift (cell : str) (d : Z) : str :=
  (fun c => ascii_of_N (Z.to_N (Z.of_N (N_of_ascii c) + d))) <$> cell.

(** The bands at most [k] steps away. *)
Definition band_disk (cell : str) (k : Z) : list str :=
  band_shift cell <$> seqZ (- k) (2 * k + 1).

Definition band_centre (cell : str) : Q * Q :=
  match cell with
  | c :: _ => (inject_Z (Z.of_N (N_of_ascii c) - 90) + (1 # 2), 0)%Q
  | [] => (0, 0)%Q
  end.

Definition grid : H3 :=
  {| latlng_to_cell lat lng _ := band lat lng;
     grid_disk := band_disk;
     cell_to_latlng := band_centre |}.

(** Rows come back in insertion order. *)
Definition db : Database :=
  {| bucket_order rows := rows;
     index_order rows := rows;
     bucket_order_perm rows := reflexivity rows;
     index_order_perm rows := reflexivity rows |}.

Definition assign (lat lng : Q) (name : string) (st : Store) : Store :=
  (find_or_create_bucket (grid := grid) (db := db) lat lng (py name) st).1.

Definition search (st : Store) (term : string) : M (list GeoBucket.t) :=
  find_matching_buckets (grid := grid) (db := db) st (py term) None None
    DEFAULT_MIN_RESULTS.

Definition names (r : M (list GeoBucket.t)) : list str :=
  match r.2 with
  | Ok buckets => GeoBucket.normalized_name <$> buckets
  | Raise _ => []
  end.

End Toy.

(* ================================================================== *)
(** * Notions used to state and prove the properties *)
(* ================================================================== *)

Module Notions.
Import PyStr LocationNormalizer BucketService LocationMatcher.

(** ** Words and the replacements on them *)

(** A word: a non-empty run of characters without white space. *)
Definition word (w : str) : Prop :=
  w ≠ [] ∧ Forall (fun c => ¬ is_space c) w.

(** A word over [[a-z0-9]]. *)
Definition alnum_word (w : str) : Prop :=
  w ≠ [] ∧ Forall (fun c => is_lower_alnum c) w.

(** The text after a first word: every further word with the space
    before it. *)
Fixpoint spaced_tail (ws : list str) : str :=
  match ws with
  | [] => []
  | w :: ws' => " "%char :: w ++ spaced_tail ws'
  end.

Definition clean_char (c : ascii) : Prop :=
  is_lower_alnum c ∨ c = " "%char.

(** [" " + w + " "], the patterns of [apply_replacement]. *)
Definition spaced (w : str) : str := " "%char :: w ++ [" "%char].

(** What [replace (spaced old) (spaced new)] does to the words after the
    first one: a word equal to [old] that is not the last one is
    replaced, and the match uses up the space in front of the next word,
    which is therefore kept whatever it is. *)
Fixpoint rep_rest (old new : str) (ws : list str) : list str :=
  match ws with
  | u :: ((v :: more) as ws') =>
      if decide (u = old) then new :: v :: rep_rest old new more
      else u :: rep_rest old new ws'
  | _ => ws
  end.

Definition rep_words (old new : str) (ws : list str) : list str :=
  match ws with
  | [] => []
  | w :: ws' => w :: rep_rest old new ws'
  end.

(** ** [normalize] on words *)

(** The words [normalize] joins: the kept words, or the first two words
    of the text when every word is a stop word. *)
Definition chosen_words (name : str) : list str :=
  match kept_words name with
  | [] => take 2 (split (cleaned name))
  | _ => kept_words name
  end.

(** The loop over [REPLACEMENTS], on words. *)
Definition expand_with (rs : list (str * str)) (ws : list str) : list str :=
  foldl (fun ws r => rep_words r.1 r.2 ws) ws rs.

Definition expand_words : list str → list str := expand_with REPLACEMENTS.

(** The input has a letter or a digit. *)
Definition has_alnum (name : str) : Prop :=
  Exists (fun c => is_lower_alnum (lower_char c)) name.

#[global] Instance has_alnum_dec name : Decision (has_alnum name).
Proof. unfold has_alnum. apply _. Defined.

(** [a] occurs twice in a row in [ws]. *)
Fixpoint repeats (a : str) (ws : list str) : bool :=
  match ws with
  | u :: ((v :: _) as ws') =>
      bool_decide (u = a) && bool_decide (v = a) || repeats a ws'
  | _ => false
  end.

(** No abbreviation of [REPLACEMENTS] occurs twice in a row in [ws]. *)
Definition no_repeated_abbreviation (ws : list str) : Prop :=
  Forall (fun r : str * str => ¬ repeats r.1 ws) REPLACEMENTS.

#[global] Instance no_repeated_abbreviation_dec ws :
  Decision (no_repeated_abbreviation ws).
Proof. unfold no_repeated_abbreviation. apply _. Defined.

(** [a] does not occur in [ws] before its last word. *)
Fixpoint inner_free (a : str) (ws : list str) : Prop :=
  match ws with
  | u :: ((_ :: _) as ws') => u ≠ a ∧ inner_free a ws'
  | _ => True
  end.

(** The loop over a list of replacements, on the words after the first. *)
Definition expand_rest (rs : list (str * str)) (ws : list str) : list str :=
  foldl (fun ws r => rep_rest r.1 r.2 ws) ws rs.

(** ** Stores and the steps of [find_or_create_bucket] *)

(** What [assign] relies on: one bucket per cell, keys given out once, and
    variant lists without repetition and without the empty name. *)
Definition store_ok (st : Store) : Prop :=
  NoDup (GeoBucket.h3_index <$> geo_buckets st)
  ∧ NoDup (GeoBucket.id <$> geo_buckets st)
  ∧ Forall (fun b => (GeoBucket.id b < next_bucket_id st)%Z
                     ∧ NoDup (GeoBucket.variant_names b)
                     ∧ [] ∉ GeoBucket.variant_names b)
           (geo_buckets st).

(** Every bucket has a variant name. *)
Definition all_named (st : Store) : Prop :=
  Forall (fun b => GeoBucket.variant_names b ≠ []) (geo_buckets st).

(** How often [name] stands in a list of variant names. *)
Definition occurrences (name : str) (names : list str) : nat :=
  length (filter (fun v => v = name) names).

(** The variant names a new bucket starts with. *)
Definition first_variants (location_name : str) : list str :=
  match location_name with [] => [] | _ => [location_name] end.

(** The bucket [create_bucket] inserts. *)
Definition new_bucket {grid : H3} (st : Store) (h3_index : str)
    (location_name : str) : GeoBucket.t :=
  GeoBucket.mk (next_bucket_id st) h3_index
    ((h3_to_coordinates h3_index).2, (h3_to_coordinates h3_index).1)
    (normalize location_name) (first_variants location_name) 0.

(** The bucket the found branch returns, and the rows it leaves. *)
Definition with_variant (bucket : GeoBucket.t) (name : str) : GeoBucket.t :=
  if bool_decide (name ≠ [])
     && bool_decide (name ∉ GeoBucket.variant_names bucket)
  then set_variant_names (GeoBucket.id bucket)
         (GeoBucket.variant_names bucket ++ [name]) bucket
  else bucket.

Definition rows_with_variant (bucket : GeoBucket.t) (name : str)
    (rows : list GeoBucket.t) : list GeoBucket.t :=
  if bool_decide (name ≠ [])
     && bool_decide (name ∉ GeoBucket.variant_names bucket)
  then set_variant_names (GeoBucket.id bucket)
         (GeoBucket.variant_names bucket ++ [name]) <$> rows
  else rows.

(** ** The rows the layers of the matcher read *)

(** The foreign key of [location_index]: every row names a stored bucket. *)
Definition references_ok (st : Store) : Prop :=
  Forall (fun i => LocationIndex.bucket_id i
                   ∈ GeoBucket.id <$> geo_buckets st)
         (location_index st).


(** Layer 1: the buckets named [normalized_name], letter case apart. *)
Definition exact_rows {db : Database} (st : Store) (normalized_name : str)
    : list GeoBucket.t :=
  bucket_order
    (filter (fun b => upper (GeoBucket.normalized_name b)
                      = upper normalized_name)
            (geo_buckets st)).

(** [GeoBucket.objects.all()]. *)
Definition all_rows {db : Database} (st : Store) : list GeoBucket.t :=
  bucket_order (filter (fun _ => True) (geo_buckets st)).

(** The buckets whose canonical name has at most two characters. *)
Definition short_rows {db : Database} (st : Store) : list GeoBucket.t :=
  List.filter
    (fun b => bool_decide (length (GeoBucket.normalized_name b) ≤ 2))
    (all_rows st).

(** The buckets of the cell of [(lat, lng)] and of its neighbours. *)
Definition ring_rows {grid : H3} {db : Database} (st : Store) (lat lng : Q)
    : list GeoBucket.t :=
  bucket_order
    (filter (fun b => GeoBucket.h3_index b
                      ∈ BucketService.get_h3_neighbors
                          (BucketService.calculate_h3_index lat lng))
            (geo_buckets st)).

(** The coordinates Layer 2 works with, if it runs. *)
Definition usable_coords (lat lng : option Q) : option (Q * Q) :=
  match lat, lng with
  | Some lat', Some lng' =>
      if _validate_coords lat' lng' then Some (lat', lng') else None
  | _, _ => None
  end.

(** What the cascade sends and returns for the normalized query [""],
    from the sizes of the layers' results. *)
Definition empty_query_cascade {grid : H3} {db : Database} (st : Store)
    (lat lng : option Q) (min_results : Z) : M (list GeoBucket.t) :=
  let exact := exact_rows st [] in
  if bool_decide (min_results ≤ Z.of_nat (length exact))%Z
  then ([BucketsByNameIExact []], Ok (_deduplicate_buckets exact))
  else
    match usable_coords lat lng with
    | Some (lat', lng') =>
        let cells := BucketService.get_h3_neighbors
                       (BucketService.calculate_h3_index lat' lng') in
        let ring := ring_rows st lat' lng' in
        if bool_decide (min_results ≤ Z.of_nat (length (exact ++ ring)))%Z
        then ([BucketsByNameIExact []; BucketsByCells cells],
              Ok (_deduplicate_buckets (exact ++ ring)))
        else ([BucketsByNameIExact []; BucketsByCells cells;
               BucketsAll; IndexByNameIContains []],
              Ok (_deduplicate_buckets ((exact ++ ring) ++ short_rows st)))
    | None =>
        ([BucketsByNameIExact []; BucketsAll; IndexByNameIContains []],
         Ok (_deduplicate_buckets (exact ++ short_rows st)))
    end.

(** On the empty normalized query the layers before Layer 3 yield fewer
    than [min_results] buckets. *)
Definition layer_3_runs {grid : H3} {db : Database} (st : Store)
    (lat lng : option Q) (min_results : Z) : Prop :=
  (Z.of_nat (length (exact_rows st [])) < min_results)%Z
  ∧ match usable_coords lat lng with
    | Some (lat', lng') =>
        (Z.of_nat (length (exact_rows st [] ++ ring_rows st lat' lng'))
         < min_results)%Z
    | None => True
    end.


(** ** Trigram sets *)

(** [set(cls.generate_trigrams(text))]. *)
Definition trigram_set (text : str) : gset str :=
  list_to_set (generate_trigrams text).

(** The characters of [text] other than the blank. *)
Definition non_blank (text : str) : str :=
  filter (fun c => c ≠ " "%char) text.

End Notions.

(* ================================================================== *)
(** * Further notions: expansions, the index, centroids, statements *)
(* ================================================================== *)

Module Invariants.
Import PyStr LocationNormalizer BucketService LocationMatcher.

(** ** The replacements, word by word *)

(** [REPLACEMENTS.get(w, w)]. *)
Definition expansion (w : str) : str :=
  default w ((list_to_map REPLACEMENTS : gmap str str) !! w).

(** [f] on every word but the last. *)
Fixpoint map_but_last (f : str → str) (ws : list str) : list str :=
  match ws with
  | u :: ((_ :: _) as ws') => f u :: map_but_last f ws'
  | _ => ws
  end.

(** The words with every abbreviation expanded, the first and the last
    word apart. *)
Definition expanded (ws : list str) : list str :=
  match ws with
  | [] => []
  | w :: ws' => w :: map_but_last expansion ws'
  end.

(** A word after the turns of the loop for the replacements [rs]. *)
Definition turns (rs : list (str * str)) (w : str) : str :=
  foldl (fun w (r : str * str) => if decide (w = r.1) then r.2 else w) w rs.

(** ** The index *)

(** A row of the index is derived from its [original_name]. *)
Definition index_row_ok (i : LocationIndex.t) : Prop :=
  LocationIndex.normalized_name i = normalize (LocationIndex.original_name i)
  ∧ LocationIndex.trigrams i
    = generate_trigrams (LocationIndex.normalized_name i)
  ∧ LocationIndex.metaphone i
    = metaphone_simple (LocationIndex.normalized_name i).

(** The columns of [unique_together]. *)
Definition index_key (i : LocationIndex.t) : str * Z :=
  (LocationIndex.original_name i, LocationIndex.bucket_id i).

Definition index_ok (st : Store) : Prop :=
  Forall index_row_ok (location_index st)
  ∧ NoDup (index_key <$> location_index st).

(** ** Centroids *)

(** Every bucket has the centre of its cell as centroid, longitude
    first. *)
Definition centroids_ok {grid : H3} (st : Store) : Prop :=
  Forall (fun b => GeoBucket.centroid b
                   = ((h3_to_coordinates (GeoBucket.h3_index b)).2,
                      (h3_to_coordinates (GeoBucket.h3_index b)).1))
         (geo_buckets st).

(** ** The stores that [find_or_create_bucket] builds *)

(** One bucket per cell and per key, the foreign key and the derived
    columns of the index, and the centroids. *)
Definition well_formed {grid : H3} (st : Store) : Prop :=
  Notions.store_ok st ∧ Notions.references_ok st ∧ index_ok st
  ∧ centroids_ok st.

(** ** The statements of the cascade *)

(** The statements the cascade may send for the normalized query [n] and
    the coordinates [lat], [lng]. *)
Definition cascade_statement {grid : H3} (n : str) (lat lng : option Q)
    (q : query) : Prop :=
  match q with
  | BucketsByNameIExact name => name = n
  | BucketsByCells cells =>
      ∃ x y, lat = Some x ∧ lng = Some y ∧ _validate_coords x y = true
             ∧ cells = get_h3_neighbors (calculate_h3_index x y)
  | BucketsAll => True
  | IndexByNameIContains fragment => fragment = take 3 n
  | IndexByMetaphone code => code = metaphone_simple n ∧ code ≠ []
  | BucketByPk _ => True
  end.

End Invariants.

(* ================================================================== *)
(** * Further notions: the tables and the property counts *)
(* ================================================================== *)

Module Counts.
Import BucketService Notions.

(** The instance that a query with [select_related('bucket')] builds from
    a row. *)
Definition instance_of (tables : Tables) (r : PropertyRow.t) : Property.t :=
  Property.mk (Some (PropertyRow.id r)) (PropertyRow.title r)
    (PropertyRow.location_name r) (PropertyRow.location r)
    (k ← PropertyRow.bucket_id r;
     head (filter (fun b => GeoBucket.id b = k) (geo_buckets (store tables))))
    (PropertyRow.price r) (PropertyRow.bedrooms r) (PropertyRow.bathrooms r)
    (Some (PropertyRow.created_at r)).

(** The number of properties of the bucket with the key [k]. *)
Definition count_of (k : Z) (rows : list PropertyRow.t) : Z :=
  Z.of_nat (length (filter (fun r => PropertyRow.bucket_id r = Some k) rows)).

(** Every bucket counts its properties. *)
Definition counts_ok (tables : Tables) : Prop :=
  Forall (fun b => GeoBucket.property_count b
                   = count_of (GeoBucket.id b) (properties tables))
         (geo_buckets (store tables)).

(** The counts of the buckets are given by [c]. *)
Definition counts_as (c : Z → Z) (rows : list GeoBucket.t) : Prop :=
  Forall (fun b => GeoBucket.property_count b = c (GeoBucket.id b)) rows.

(** The part of [tables_ok] about the buckets. *)
Definition buckets_ok (st : Store) : Prop :=
  store_ok st
  ∧ Forall (fun b => (0 < GeoBucket.id b)%Z) (geo_buckets st)
  ∧ (0 < next_bucket_id st)%Z.

(** The part of [tables_ok] about the properties. *)
Definition properties_ok (st : Store) (rows : list PropertyRow.t) (next : Z)
    : Prop :=
  NoDup (PropertyRow.id <$> rows)
  ∧ Forall (fun r => (PropertyRow.id r < next)%Z
                     ∧ ∀ k, PropertyRow.bucket_id r = Some k →
                            k ∈ GeoBucket.id <$> geo_buckets st)
           rows.

(** The tables as the writes keep them: the buckets as [store_ok] has
    them, with positive keys; properties with distinct keys that the
    sequence has given out, each in no bucket or in a stored one; and
    every bucket counting its properties. *)
Definition tables_ok (tables : Tables) : Prop :=
  store_ok (store tables)
  ∧ Forall (fun b => (0 < GeoBucket.id b)%Z) (geo_buckets (store tables))
  ∧ (0 < next_bucket_id (store tables))%Z
  ∧ NoDup (PropertyRow.id <$> properties tables)
  ∧ Forall (fun r => (PropertyRow.id r < next_property_id tables)%Z
                     ∧ ∀ k, PropertyRow.bucket_id r = Some k →
                            k ∈ GeoBucket.id <$> geo_buckets (store tables))
           (properties tables)
  ∧ counts_ok tables.

(** The store after the update of the counter of [pk] by [d]. *)
Definition counted (pk d : Z) (st : Store) : Store :=
  mkStore (add_to_property_count pk d <$> geo_buckets st)
          (location_index st) (next_bucket_id st) (next_index_id st).

(** The store after a property has gone from the bucket [old] to the
    bucket [new]. *)
Definition moved (old new : option Z) (st : Store) : Store :=
  let st := match old with Some k => counted k (-1) st | None => st end in
  match new with Some k => counted k 1 st | None => st end.

(** The rows after the update of the row with the key of [r1]. *)
Definition replaced (r1 : PropertyRow.t) (rows : list PropertyRow.t)
    : list PropertyRow.t :=
  (fun r => if decide (PropertyRow.id r = PropertyRow.id r1) then r1 else r)
  <$> rows.

(** 1 if [P] holds, 0 if not. *)
Definition holds (P : Prop) `{!Decision P} : Z := if decide P then 1 else 0.

End Counts.

(* ################################################################## *)
(** * Part III: lemmas *)
(* ################################################################## *)

(* ================================================================== *)
(** * The normalizer on the examples of the tests *)
(* ================================================================== *)

Module NormalizerExamples.
Import PyStr LocationNormalizer.

(** The cases of [test_location_name_normalization]. *)
Example normalize_test_cases :
  normalize (py "Sangotedo, Ajah") = py "sangotedo ajah"
  /\ normalize (py "sangotedo lagos") = py "sangotedo"
  /\ normalize (py "Sangotedo") = py "sangotedo"
  /\ normalize (py "Lekki Phase 1, Lagos State") = py "lekki phase 1"
  /\ normalize (py "Ikoyi - Lagos") = py "ikoyi".
Proof. vm_compute. repeat split. Qed.

Example normalize_expands :
  normalize (py "12 Allen Ave Ikeja") = py "12 allen avenue ikeja"
  /\ normalize (py "Lagos") = py "lagos"
  /\ normalize (py "Lagos State Nigeria") = py "lagos state".
Proof. vm_compute. repeat split. Qed.

Example trigrams_docstring :
  generate_trigrams (py "sangotedo")
  = [py "san"; py "ang"; py "ngo"; py "got"; py "ote"; py "ted"; py "edo"].
Proof. vm_compute. reflexivity. Qed.

Example metaphone_examples :
  metaphone_simple (py "sangotedo") = py "SNGTD"
  /\ metaphone_simple (py "phase") = py "FS"
  /\ metaphone_simple (py "") = [].
Proof. vm_compute. repeat split. Qed.

Example similarity_examples :
  (calculate_similarity (py "sangotedo") (py "sangotedo") == 1)%Q
  /\ (calculate_similarity (py "abcd") (py "bcde") == 1 # 3)%Q.
Proof. vm_compute. repeat split. Qed.

End NormalizerExamples.

(* ================================================================== *)
(** * Words: the shape of everything [normalize] returns *)
(* ================================================================== *)

Module Words.
Import PyStr Notions.

Lemma join_cons w ws : join (py " ") (w :: ws) = w ++ spaced_tail ws.
Proof.
  revert w. induction ws as [|v ws IH]; intros w; simpl.
  - by rewrite app_nil_r.
  - specialize (IH v). simpl in IH. by rewrite IH.
Qed.

Lemma alnum_not_space c : is_lower_alnum c → ¬ is_space c.
Proof. destruct c as [[] [] [] [] [] [] [] []]; vm_compute; tauto. Qed.

Lemma alnum_lower c : is_lower_alnum c → lower_char c = c.
Proof. destruct c as [[] [] [] [] [] [] [] []]; vm_compute; tauto. Qed.

Lemma space_is_space : is_space " ".
Proof. by vm_compute. Qed.

Lemma not_space_ne c : ¬ is_space c → c ≠ " "%char.
Proof. intros H ->. by apply H. Qed.

Lemma alnum_word_word w : alnum_word w → word w.
Proof.
  intros [Hne Hall]. split; [done|].
  eapply Forall_impl; [exact Hall|]. apply alnum_not_space.
Qed.

Lemma alnum_words_words ws : Forall alnum_word ws → Forall word ws.
Proof. intros H. eapply Forall_impl; [exact H|]. apply alnum_word_word. Qed.

(** ** [split] *)

Lemma split_go_word cur t rest :
  Forall (fun c => ¬ is_space c) t →
  split_go cur (t ++ rest) = split_go (cur ++ t) rest.
Proof.
  revert cur. induction t as [|c t IH]; intros cur Ht; simpl.
  - by rewrite app_nil_r.
  - inversion Ht as [|? ? Hc Ht']; subst.
    destruct (is_space c); [by destruct Hc|].
    rewrite IH by done. by rewrite <- app_assoc.
Qed.

Lemma split_go_spaced_tail cur ws :
  Forall word ws →
  split_go cur (spaced_tail ws) = flush cur ++ ws.
Proof.
  revert cur. induction ws as [|w ws IH]; intros cur Hws; simpl.
  - by rewrite app_nil_r.
  - inversion Hws as [|? ? [Hne Hw] Hws']; subst.
    rewrite split_go_word by done. rewrite IH by done. simpl.
    f_equal. by destruct w.
Qed.

Lemma split_join ws :
  Forall word ws → split (join (py " ") ws) = ws.
Proof.
  destruct ws as [|w ws]; [done|]. intros Hws.
  inversion Hws as [|? ? [Hne Hw] Hws']; subst.
  rewrite join_cons. unfold split.
  rewrite split_go_word by done. rewrite split_go_spaced_tail by done.
  by destruct w.
Qed.

(** The words of any text are words, and they keep exactly the
    characters that are not white space. *)
Lemma split_go_words cur s :
  Forall (fun c => ¬ is_space c) cur →
  Forall word (split_go cur s).
Proof.
  revert cur. induction s as [|c s IH]; intros cur Hcur; simpl.
  - destruct cur; constructor; [|done]. by split.
  - destruct (is_space c) eqn:Hc.
    + apply Forall_app. split; [|by apply IH].
      destruct cur; constructor; [|done]. by split.
    + apply IH. apply Forall_app. split; [done|].
      constructor; [|done]. by apply Is_true_false_2.
Qed.

Lemma split_words s : Forall word (split s).
Proof. by apply split_go_words. Qed.

Lemma split_go_concat cur s :
  Forall (fun c => ¬ is_space c) cur →
  concat (split_go cur s) = cur ++ filter (fun c => ¬ is_space c) s.
Proof.
  revert cur. induction s as [|c s IH]; intros cur Hcur; simpl.
  - destruct cur; simpl; by rewrite ?app_nil_r.
  - destruct (is_space c) eqn:Hc.
    + rewrite concat_app, IH by done.
      rewrite filter_cons_False by (rewrite Hc; simpl; tauto).
      destruct cur; simpl; by rewrite ?app_nil_r.
    + rewrite IH.
      * rewrite filter_cons_True by (by apply Is_true_false_2).
        by rewrite <- app_assoc.
      * apply Forall_app. split; [done|].
        constructor; [|done]. by apply Is_true_false_2.
Qed.

Lemma split_concat s :
  concat (split s) = filter (fun c => ¬ is_space c) s.
Proof. by apply split_go_concat. Qed.

(** ** [strip] *)

Lemma lstrip_head c s : ¬ is_space c → lstrip (c :: s) = c :: s.
Proof. intros Hc. simpl. by destruct (is_space c). Qed.

Lemma lstrip_word w s : word w → lstrip (w ++ s) = w ++ s.
Proof.
  intros [Hne Hw]. destruct w as [|c w]; [done|].
  inversion Hw; subst. by apply lstrip_head.
Qed.

Lemma rstrip_word s w : word w → rstrip (s ++ w) = s ++ w.
Proof.
  intros [Hne Hw]. unfold rstrip. rewrite reverse_app.
  rewrite lstrip_word.
  - by rewrite <- reverse_app, reverse_involutive.
  - split.
    + intros Hr. apply Hne. by rewrite <- (reverse_involutive w), Hr.
    + by apply Forall_reverse.
Qed.

Lemma spaced_tail_last ws :
  Forall word ws → ws ≠ [] →
  ∃ s w, spaced_tail ws = s ++ w ∧ word w.
Proof.
  induction ws as [|v ws IH]; [done|]. intros Hws _.
  inversion Hws as [|? ? Hv Hws']; subst.
  destruct ws as [|u ws].
  - exists [" "%char], v. simpl. by rewrite app_nil_r.
  - destruct IH as (s & w & Heq & Hw); [done..|].
    exists (" "%char :: v ++ s), w. split; [|done].
    change (spaced_tail (v :: u :: ws))
      with (" "%char :: v ++ spaced_tail (u :: ws)).
    rewrite Heq. simpl. by rewrite app_assoc.
Qed.

Lemma strip_join ws :
  Forall word ws → strip (join (py " ") ws) = join (py " ") ws.
Proof.
  destruct ws as [|w ws]; [done|]. intros Hws.
  inversion Hws as [|? ? Hw Hws']; subst.
  rewrite join_cons. unfold strip. rewrite lstrip_word by done.
  destruct ws as [|v ws].
  - simpl. rewrite app_nil_r. by apply (rstrip_word []).
  - destruct (spaced_tail_last (v :: ws)) as (s & u & Heq & Hu); [done..|].
    rewrite Heq, app_assoc. by apply rstrip_word.
Qed.

(** ** The two [re.sub] calls and [lower] on text that is already clean *)

Lemma sub_spaces_go_word w s :
  Forall (fun c => ¬ is_space c) w →
  sub_spaces_go false (w ++ s) = w ++ sub_spaces_go false s.
Proof.
  induction w as [|c w IH]; intros Hw; [done|].
  inversion Hw as [|? ? Hc Hw']; subst. simpl.
  destruct (is_space c); [by destruct Hc|]. by rewrite IH.
Qed.

Lemma sub_spaces_go_tail ws :
  Forall word ws →
  sub_spaces_go false (spaced_tail ws) = spaced_tail ws.
Proof.
  induction ws as [|w ws IH]; intros Hws; [done|].
  inversion Hws as [|? ? [Hne Hw] Hws']; subst.
  destruct w as [|c w]; [done|]. inversion Hw as [|? ? Hc Hw']; subst.
  simpl. destruct (is_space c); [by destruct Hc|]. simpl.
  by rewrite sub_spaces_go_word, IH.
Qed.

Lemma sub_spaces_join ws :
  Forall word ws → sub_spaces (join (py " ") ws) = join (py " ") ws.
Proof.
  destruct ws as [|w ws]; [done|]. intros Hws.
  inversion Hws as [|? ? [Hne Hw] Hws']; subst.
  rewrite join_cons. unfold sub_spaces.
  by rewrite sub_spaces_go_word, sub_spaces_go_tail.
Qed.

Lemma spaced_tail_clean ws :
  Forall alnum_word ws → Forall clean_char (spaced_tail ws).
Proof.
  induction 1 as [|w ws [_ Hw] _ IH]; simpl; [done|].
  constructor; [by right|]. apply Forall_app. split; [|done].
  eapply Forall_impl; [exact Hw|]. by left.
Qed.

Lemma join_clean ws :
  Forall alnum_word ws → Forall clean_char (join (py " ") ws).
Proof.
  destruct 1 as [|w ws [_ Hw] Hws]; [done|].
  rewrite join_cons. apply Forall_app. split.
  - eapply Forall_impl; [exact Hw|]. by left.
  - by apply spaced_tail_clean.
Qed.

Lemma lower_clean s : Forall clean_char s → lower s = s.
Proof.
  induction 1 as [|c s [Hc| ->] _ IH]; simpl; [done|..].
  - by rewrite alnum_lower, IH.
  - by rewrite IH.
Qed.

Lemma sub_non_alnum_clean s : Forall clean_char s → sub_non_alnum s = s.
Proof.
  induction 1 as [|c s [Hc| ->] _ IH]; simpl; [done|..].
  - fold (sub_non_alnum s). rewrite IH.
    by destruct (is_lower_alnum c).
  - fold (sub_non_alnum s). by rewrite IH.
Qed.

(** ** [replace] of a space-delimited word, seen on the list of words *)

Lemma rep_rest_cons2 old new u v more :
  rep_rest old new (u :: v :: more)
  = if decide (u = old) then new :: v :: rep_rest old new more
    else u :: rep_rest old new (v :: more).
Proof. reflexivity. Qed.

Lemma replace_go_match old new c s :
  old `prefix_of` c :: s →
  replace_go old new 0 (c :: s)
  = new ++ replace_go old new (length old - 1) s.
Proof. intros H. simpl. by case_decide. Qed.

Lemma replace_go_no_match old new c s :
  ¬ old `prefix_of` c :: s →
  replace_go old new 0 (c :: s) = c :: replace_go old new 0 s.
Proof. intros H. simpl. by case_decide. Qed.

Lemma replace_go_skip old new l1 l2 :
  replace_go old new (length l1) (l1 ++ l2) = replace_go old new 0 l2.
Proof. induction l1 as [|c l1 IH]; [done|]. simpl. exact IH. Qed.

Lemma replace_go_word old new w s :
  Forall (fun c => ¬ is_space c) w →
  replace_go (spaced old) new 0 (w ++ s)
  = w ++ replace_go (spaced old) new 0 s.
Proof.
  induction w as [|c w IH]; intros Hw; [done|].
  inversion Hw as [|? ? Hc Hw']; subst.
  rewrite <- app_comm_cons, replace_go_no_match, IH; [done..|].
  intros Hp. apply prefix_cons_inv_1 in Hp. subst.
  by apply Hc.
Qed.

Lemma prefix_spaced_inv a u x y :
  Forall (fun c => ¬ is_space c) a →
  Forall (fun c => ¬ is_space c) u →
  a ++ " "%char :: x `prefix_of` u ++ " "%char :: y → a = u.
Proof.
  intros Ha. revert u. induction Ha as [|c a Hc Ha IH]; intros u Hu Hp.
  - destruct Hu as [|d u Hd Hu]; [done|]. simpl in Hp.
    apply prefix_cons_inv_1 in Hp. subst. by destruct Hd.
  - destruct Hu as [|d u Hd Hu]; simpl in Hp.
    + apply prefix_cons_inv_1 in Hp. subst. by destruct Hc.
    + pose proof (prefix_cons_inv_1 _ _ _ _ Hp). subst.
      apply prefix_cons_inv_2 in Hp. f_equal. by apply IH.
Qed.

Lemma prefix_spaced_short a u :
  Forall (fun c => ¬ is_space c) u →
  ¬ a ++ [" "%char] `prefix_of` u.
Proof.
  intros Hu [k Hk]. subst. rewrite !Forall_app in Hu.
  destruct Hu as [[_ Hs] _]. inversion Hs; subst. by auto.
Qed.

(** Strong induction on the list of words, in steps of one or two. *)
Lemma words_ind2 (P : list str → Prop) :
  P [] → (∀ u, P [u]) →
  (∀ u v more, P more → P (v :: more) → P (u :: v :: more)) →
  ∀ ws, P ws.
Proof.
  intros Hnil Hone Hstep ws.
  assert (P ws ∧ ∀ u, P (u :: ws)) as [H _]; [|done].
  induction ws as [|v ws [IH1 IH2]]; [by split|].
  split; [by apply IH2|]. intros u. by apply Hstep.
Qed.

Lemma replace_go_tail old new ws :
  word old → Forall word ws →
  replace_go (spaced old) (spaced new) 0 (spaced_tail ws)
  = spaced_tail (rep_rest old new ws).
Proof.
  intros [_ Hold].
  induction ws as [|u|u v more IH1 IH2] using words_ind2; intros Hws.
  - done.
  - inversion Hws as [|? ? [_ Hu] _]; subst. simpl spaced_tail.
    rewrite replace_go_no_match.
    + by rewrite replace_go_word.
    + intros Hp. apply prefix_cons_inv_2 in Hp.
      rewrite app_nil_r in Hp. by eapply prefix_spaced_short.
  - inversion Hws as [|? ? [_ Hu] Hws']; subst.
    inversion Hws' as [|? ? [_ Hv] Hmore]; subst.
    rewrite rep_rest_cons2. case_decide as Heq.
    + subst u. simpl spaced_tail.
      rewrite replace_go_match.
      2:{ exists (v ++ spaced_tail more). unfold spaced. simpl.
          by rewrite <- app_assoc. }
      replace (length (spaced old) - 1) with (length (old ++ [" "%char]))
        by (unfold spaced; simpl; rewrite length_app; simpl; lia).
      replace (old ++ " "%char :: v ++ spaced_tail more)
        with ((old ++ [" "%char]) ++ v ++ spaced_tail more)
        by (by rewrite <- app_assoc).
      rewrite replace_go_skip, replace_go_word by done.
      rewrite IH1 by done.
      unfold spaced. simpl. by rewrite <- app_assoc.
    + change (spaced_tail (u :: v :: more))
        with (" "%char :: u ++ spaced_tail (v :: more)).
      rewrite replace_go_no_match.
      * rewrite replace_go_word by done. by rewrite IH2.
      * intros Hp. apply prefix_cons_inv_2 in Hp.
        apply Heq. symmetry. by eapply prefix_spaced_inv.
Qed.

Lemma replace_spaced_join old new ws :
  word old → Forall word ws →
  replace (spaced old) (spaced new) (join (py " ") ws)
  = join (py " ") (rep_words old new ws).
Proof.
  intros Hold Hws. destruct ws as [|w ws]; [done|].
  inversion Hws as [|? ? [_ Hw] Hws']; subst.
  unfold rep_words. rewrite !join_cons. unfold replace.
  by rewrite replace_go_word, replace_go_tail.
Qed.

(** ** Word-level facts about [rep_rest] *)

Lemma rep_rest_Forall (P : str → Prop) old new ws :
  P new → Forall P ws → Forall P (rep_rest old new ws).
Proof.
  intros Hnew.
  induction ws as [|u|u v more IH1 IH2] using words_ind2; [done..|].
  intros Hws. inversion Hws as [|? ? Hu Hws']; subst.
  inversion Hws' as [|? ? Hv Hmore]; subst.
  rewrite rep_rest_cons2. case_decide.
  - repeat constructor; [done..|]. by apply IH1.
  - constructor; [done|]. by apply IH2.
Qed.

Lemma rep_words_Forall (P : str → Prop) old new ws :
  P new → Forall P ws → Forall P (rep_words old new ws).
Proof.
  intros Hnew Hws. destruct Hws as [|w ws Hw Hws]; [done|]. simpl.
  constructor; [done|]. by apply rep_rest_Forall.
Qed.

End Words.

(* ================================================================== *)
(** * [normalize] seen on words *)
(* ================================================================== *)

Module NormalizeFacts.
Import PyStr LocationNormalizer Notions Words.

(** ** The characters of [cleaned] *)

Lemma lstrip_Forall (P : ascii → Prop) s : Forall P s → Forall P (lstrip s).
Proof.
  induction 1 as [|c s Hc Hs IH]; simpl; [done|].
  destruct (is_space c); [done|]. by constructor.
Qed.

Lemma strip_Forall (P : ascii → Prop) s : Forall P s → Forall P (strip s).
Proof.
  intros H. unfold strip, rstrip.
  by apply Forall_reverse, lstrip_Forall, Forall_reverse, lstrip_Forall.
Qed.

Lemma lstrip_elem x s : x ∈ s → ¬ is_space x → x ∈ lstrip s.
Proof.
  intros Hin Hx. induction Hin as [x s|x c s Hin IH]; simpl.
  - rewrite (Is_true_false_1 _ Hx). by left.
  - destruct (is_space c); [by apply IH|]. by right.
Qed.

Lemma strip_elem x s : x ∈ s → ¬ is_space x → x ∈ strip s.
Proof.
  intros Hin Hx. unfold strip, rstrip.
  apply elem_of_reverse, lstrip_elem; [|done].
  by apply elem_of_reverse, lstrip_elem.
Qed.

Lemma sub_spaces_go_Forall (P : ascii → Prop) b s :
  P " "%char → Forall P s → Forall P (sub_spaces_go b s).
Proof.
  intros Hsp Hs. revert b.
  induction Hs as [|c s Hc Hs IH]; intros b; simpl; [done|].
  destruct (is_space c).
  - destruct b; simpl; [done|]. by constructor.
  - by constructor.
Qed.

Lemma sub_spaces_go_elem x b s :
  x ∈ s → ¬ is_space x → x ∈ sub_spaces_go b s.
Proof.
  intros Hin Hx. revert b.
  induction Hin as [x s|x c s Hin IH]; intros b; simpl.
  - rewrite (Is_true_false_1 _ Hx). by left.
  - destruct (is_space c).
    + apply elem_of_app. right. by apply IH.
    + right. by apply IH.
Qed.

Lemma sub_non_alnum_chars s :
  Forall (fun c => is_lower_alnum c ∨ is_space c) (sub_non_alnum s).
Proof.
  induction s as [|c s IH]; simpl; [done|]. constructor; [|done].
  destruct (is_lower_alnum c) eqn:Ha; simpl.
  - left. by rewrite Ha.
  - destruct (is_space c) eqn:Hs; right; [by rewrite Hs|].
    exact space_is_space.
Qed.

Lemma sub_non_alnum_elem x s :
  x ∈ s → is_lower_alnum x → x ∈ sub_non_alnum s.
Proof.
  intros Hin Hx. unfold sub_non_alnum. apply list_elem_of_fmap.
  exists x. split; [|done]. by destruct (is_lower_alnum x).
Qed.

Lemma sub_non_alnum_spaces s :
  Forall (fun c => ¬ is_lower_alnum c) s →
  Forall (fun c => is_space c) (sub_non_alnum s).
Proof.
  induction 1 as [|c s Hc Hs IH]; simpl; [done|]. constructor; [|done].
  destruct (is_lower_alnum c); [by destruct Hc|]. simpl.
  destruct (is_space c) eqn:Hs'; [by rewrite Hs'|]. exact space_is_space.
Qed.

Lemma cleaned_chars name :
  Forall (fun c => is_lower_alnum c ∨ is_space c) (cleaned name).
Proof.
  unfold cleaned, sub_spaces. apply sub_spaces_go_Forall.
  - right. exact space_is_space.
  - apply sub_non_alnum_chars.
Qed.

(** ** The words of [cleaned] *)

Lemma split_chars (P : ascii → Prop) s :
  Forall (fun c => P c ∨ is_space c) s → Forall (Forall P) (split s).
Proof.
  intros Hs. apply Forall_forall. intros w Hw.
  apply Forall_forall. intros c Hc.
  assert (c ∈ concat (split s)) as Hin.
  { apply list_elem_of_In, in_concat. exists w.
    split; by apply list_elem_of_In. }
  rewrite split_concat in Hin. apply list_elem_of_filter in Hin.
  destruct Hin as [Hns Hin].
  rewrite Forall_forall in Hs. destruct (Hs c Hin); [done|]. by destruct Hns.
Qed.

Lemma cleaned_words name : Forall alnum_word (split (cleaned name)).
Proof.
  pose proof (split_words (cleaned name)) as Hw.
  pose proof (split_chars (fun c => is_lower_alnum c) _ (cleaned_chars name))
    as Hc.
  apply Forall_forall. intros w Hin.
  rewrite Forall_forall in Hw. rewrite Forall_forall in Hc.
  split; [by apply (Hw w Hin)|by apply Hc].
Qed.

Lemma split_nil_iff s :
  split s = [] ↔ Forall (fun c => is_space c) s.
Proof.
  split.
  - intros Hnil. apply Forall_forall. intros c Hin.
    destruct (is_space c) eqn:Hc; [done|].
    assert (c ∈ concat (split s)) as Hcat.
    { rewrite split_concat. apply list_elem_of_filter.
      split; [by apply Is_true_false_2|done]. }
    rewrite Hnil in Hcat. simpl in Hcat. by apply elem_of_nil in Hcat.
  - intros Hall. pose proof (split_words s) as Hw.
    destruct (split s) as [|w ws] eqn:Heq; [done|].
    inversion Hw as [|? ? [Hne Hns] _]; subst.
    destruct w as [|c w]; [done|].
    assert (c ∈ concat (split s)) as Hcat.
    { rewrite Heq. simpl. by left. }
    rewrite split_concat in Hcat. apply list_elem_of_filter in Hcat.
    destruct Hcat as [Hns' Hin]. rewrite Forall_forall in Hall.
    destruct Hns'. by apply Hall.
Qed.

Lemma cleaned_words_nil_iff name :
  split (cleaned name) = [] ↔ ¬ has_alnum name.
Proof.
  rewrite split_nil_iff. unfold has_alnum. split.
  - intros Hall Hex. apply Exists_exists in Hex.
    destruct Hex as (c & Hin & Hc).
    assert (lower_char c ∈ cleaned name) as Hcl.
    { unfold cleaned, sub_spaces.
      apply sub_spaces_go_elem; [|by apply alnum_not_space].
      apply sub_non_alnum_elem; [|done].
      apply strip_elem; [|by apply alnum_not_space].
      unfold lower. apply list_elem_of_fmap. eauto. }
    rewrite Forall_forall in Hall.
    by apply (alnum_not_space (lower_char c)), Hall.
  - intros Hno. apply not_Exists_Forall in Hno; [|apply _].
    unfold cleaned, sub_spaces. apply sub_spaces_go_Forall.
    + exact space_is_space.
    + apply sub_non_alnum_spaces, strip_Forall.
      unfold lower. apply Forall_fmap.
      eapply Forall_impl; [exact Hno|]. by intros c Hc.
Qed.

(** ** List facts *)

Section filter_facts.
Context {A : Type} (P : A → Prop) `{!∀ x, Decision (P x)}.

Lemma filter_all (l : list A) : Forall P l → filter P l = l.
Proof.
  induction 1 as [|x l Hx _ IH]; [done|].
  by rewrite filter_cons_True, IH.
Qed.

Lemma filter_none (l : list A) :
  filter P l = [] → Forall (fun x => ¬ P x) l.
Proof.
  induction l as [|x l IH]; [done|]. rewrite filter_cons.
  case_decide; [done|]. intros Hnil. constructor; auto.
Qed.

Lemma filter_none_2 (l : list A) :
  Forall (fun x => ¬ P x) l → filter P l = [].
Proof.
  induction 1 as [|x l Hx _ IH]; [done|].
  by rewrite filter_cons_False.
Qed.

Lemma filter_keeps (Q : A → Prop) (l : list A) :
  Forall Q l → Forall Q (filter P l).
Proof.
  induction 1 as [|x l Hx _ IH]; [done|]. rewrite filter_cons.
  case_decide; [by constructor|done].
Qed.

Lemma filter_holds (l : list A) : Forall P (filter P l).
Proof.
  induction l as [|x l IH]; [done|]. rewrite filter_cons.
  case_decide; [by constructor|done].
Qed.
End filter_facts.

(** ** The normal form of [normalize] *)

Lemma replacements_alnum :
  Forall (fun r : str * str => alnum_word r.1 ∧ alnum_word r.2)
         REPLACEMENTS.
Proof.
  unfold REPLACEMENTS.
  repeat constructor; try discriminate; by vm_compute.
Qed.

Lemma replacements_words :
  Forall (fun r : str * str => word r.1 ∧ word r.2) REPLACEMENTS.
Proof.
  eapply Forall_impl; [exact replacements_alnum|].
  intros r [H1 H2]. split; by apply alnum_word_word.
Qed.

Lemma foldl_apply_replacement rs ws :
  Forall (fun r : str * str => word r.1 ∧ word r.2) rs →
  Forall word ws →
  foldl apply_replacement (join (py " ") ws) rs
  = join (py " ") (expand_with rs ws).
Proof.
  intros Hrs. revert ws.
  induction Hrs as [|[old new] rs [Hold Hnew] Hrs IH]; intros ws Hws;
    [done|].
  simpl. unfold apply_replacement at 2. simpl fst. simpl snd.
  change (py " " ++ old ++ py " ") with (spaced old).
  change (py " " ++ new ++ py " ") with (spaced new).
  rewrite replace_spaced_join by done.
  apply IH. by apply rep_words_Forall.
Qed.

Lemma expand_with_Forall (P : str → Prop) rs ws :
  Forall (fun r : str * str => P r.2) rs →
  Forall P ws → Forall P (expand_with rs ws).
Proof.
  intros Hrs. revert ws.
  induction Hrs as [|r rs Hr Hrs IH]; intros ws Hws; [done|].
  simpl. apply IH. by apply rep_words_Forall.
Qed.

Lemma expand_words_alnum ws :
  Forall alnum_word ws → Forall alnum_word (expand_words ws).
Proof.
  apply expand_with_Forall.
  eapply Forall_impl; [exact replacements_alnum|]. by intros r [_ H].
Qed.

Lemma chosen_words_alnum name : Forall alnum_word (chosen_words name).
Proof.
  unfold chosen_words, kept_words.
  pose proof (cleaned_words name) as Hw.
  destruct (filter _ _) eqn:Heq.
  - by apply Forall_take.
  - rewrite <- Heq. by apply filter_keeps.
Qed.

Lemma normalize_words name :
  normalize name = join (py " ") (expand_words (chosen_words name)).
Proof.
  destruct name as [|c name]; [done|].
  unfold normalize. cbv zeta.
  change (match filter (fun w => w ∉ COMMON_SUFFIXES)
                  (split (cleaned (c :: name))) with
          | [] => take 2 (split (cleaned (c :: name)))
          | _ :: _ => filter (fun w => w ∉ COMMON_SUFFIXES)
                        (split (cleaned (c :: name)))
          end) with (chosen_words (c :: name)).
  pose proof (chosen_words_alnum (c :: name)) as Hw.
  rewrite foldl_apply_replacement.
  - apply strip_join. by apply alnum_words_words, expand_words_alnum.
  - exact replacements_words.
  - by apply alnum_words_words.
Qed.

(** ** When is the result empty? *)

Lemma rep_rest_length old new ws :
  length (rep_rest old new ws) = length ws.
Proof.
  induction ws as [|u|u v more IH1 IH2] using words_ind2; [done..|].
  rewrite rep_rest_cons2. case_decide; cbn [length].
  - by rewrite IH1.
  - by rewrite IH2.
Qed.

Lemma expand_with_length rs ws :
  length (expand_with rs ws) = length ws.
Proof.
  revert ws. induction rs as [|r rs IH]; intros ws; [done|].
  simpl. rewrite IH. destruct ws; [done|]. simpl.
  by rewrite rep_rest_length.
Qed.

Lemma join_nil_iff ws :
  Forall word ws → join (py " ") ws = [] ↔ ws = [].
Proof.
  intros Hws. split; [|by intros ->].
  destruct Hws as [|w ws [Hne _] _]; [done|].
  rewrite join_cons. by destruct w.
Qed.

Lemma chosen_words_nil_iff name :
  chosen_words name = [] ↔ split (cleaned name) = [].
Proof.
  unfold chosen_words, kept_words.
  destruct (filter _ _) eqn:Heq.
  - destruct (split (cleaned name)) as [|w [|v ws]]; by simpl.
  - split; [done|]. intros Hnil. by rewrite Hnil in Heq.
Qed.

Lemma normalize_nil_iff name : normalize name = [] ↔ ¬ has_alnum name.
Proof.
  rewrite normalize_words, <- cleaned_words_nil_iff,
    <- chosen_words_nil_iff.
  rewrite join_nil_iff
    by (apply alnum_words_words, expand_words_alnum, chosen_words_alnum).
  pose proof (expand_with_length REPLACEMENTS (chosen_words name)) as Hlen.
  fold (expand_words (chosen_words name)) in Hlen.
  split; intros Hnil.
  - rewrite Hnil in Hlen. symmetry in Hlen. by apply nil_length_inv.
  - by rewrite Hnil.
Qed.

(** Lists of at most two words have no inner word to replace. *)
Lemma expand_with_short rs ws :
  length ws ≤ 2 → expand_with rs ws = ws.
Proof.
  intros Hlen. induction rs as [|r rs IH]; [done|]. simpl.
  destruct ws as [|w [|v [|u ws]]]; simpl in *; try done. lia.
Qed.

(** ** Applying the replacements twice *)

Lemma repeats_cons2 a u v more :
  repeats a (u :: v :: more)
  = bool_decide (u = a) && bool_decide (v = a) || repeats a (v :: more).
Proof. reflexivity. Qed.

Lemma not_repeats_cons2 a u v more :
  ¬ repeats a (u :: v :: more) →
  ¬ (u = a ∧ v = a) ∧ ¬ repeats a (v :: more).
Proof.
  rewrite repeats_cons2. intros Hno. split.
  - intros [-> ->]. apply Hno. by rewrite !bool_decide_eq_true_2.
  - intros Hr. apply Hno. apply orb_True. by right.
Qed.

Lemma not_repeats_tail a u ws : ¬ repeats a (u :: ws) → ¬ repeats a ws.
Proof.
  destruct ws as [|v more]; [by intros _ []|].
  intros H. by apply not_repeats_cons2 in H as [_ H].
Qed.

Lemma inner_free_cons a u ws :
  u ≠ a → inner_free a ws → inner_free a (u :: ws).
Proof. intros Hu Hws. destruct ws; [done|]. by split. Qed.

Lemma rep_rest_cons_ne old new u ws :
  u ≠ old → rep_rest old new (u :: ws) = u :: rep_rest old new ws.
Proof.
  intros Hu. destruct ws as [|v more]; [done|].
  rewrite rep_rest_cons2. by rewrite decide_False.
Qed.

Lemma rep_rest_fixed old new ws :
  inner_free old ws → rep_rest old new ws = ws.
Proof.
  induction ws as [|u ws IH]; [done|]. destruct ws as [|v more]; [done|].
  intros [Hu Hfree]. rewrite rep_rest_cons_ne by done. by rewrite IH.
Qed.

Lemma rep_rest_inner_free_self old new ws :
  new ≠ old → ¬ repeats old ws → inner_free old (rep_rest old new ws).
Proof.
  intros Hnew. induction ws as [| |u v more IH1 IH2] using words_ind2;
    [done..|].
  intros Hno. apply not_repeats_cons2 in Hno as [Hpair Hno].
  rewrite rep_rest_cons2. case_decide as Hu.
  - assert (v ≠ old) as Hv by (intros ->; by apply Hpair).
    apply inner_free_cons; [done|]. apply inner_free_cons; [done|].
    apply IH1. by eapply not_repeats_tail.
  - apply inner_free_cons; [done|]. by apply IH2.
Qed.

Lemma rep_rest_inner_free_other a old new ws :
  a ≠ new → inner_free a ws → inner_free a (rep_rest old new ws).
Proof.
  intros Hnew. induction ws as [| |u v more IH1 IH2] using words_ind2;
    [done..|].
  intros [Hu Hfree]. rewrite rep_rest_cons2. case_decide as Hold.
  - apply inner_free_cons; [done|]. destruct more as [|x more]; [done|].
    destruct Hfree as [Hv Hfree].
    apply inner_free_cons; [done|]. by apply IH1.
  - apply inner_free_cons; [done|]. by apply IH2.
Qed.

Lemma rep_rest_repeats_after a old new ws :
  a ≠ new → ∀ p,
  ¬ repeats a (p :: ws) → ¬ repeats a (p :: rep_rest old new ws).
Proof.
  intros Hnew. induction ws as [| |u v more IH1 IH2] using words_ind2;
    [done..|].
  intros p Hno. apply not_repeats_cons2 in Hno as [Hpu Hno].
  rewrite rep_rest_cons2. case_decide as Hold.
  - rewrite repeats_cons2, repeats_cons2.
    rewrite (bool_decide_eq_false_2 (new = a)) by done.
    rewrite andb_false_r. simpl. apply IH1.
    by eapply not_repeats_tail in Hno as Hno'.
  - rewrite repeats_cons2. intros Hr. apply orb_True in Hr as [Hr|Hr].
    + apply andb_True in Hr as [H1 H2].
      apply bool_decide_unpack in H1, H2. by apply Hpu.
    + by apply (IH2 u).
Qed.

Lemma rep_rest_repeats a old new ws :
  a ≠ new → ¬ repeats a ws → ¬ repeats a (rep_rest old new ws).
Proof.
  intros Hnew Hno. destruct ws as [|p ws]; [done|].
  destruct (decide (p = old)) as [->|Hp].
  - destruct ws as [|v more]; [done|].
    rewrite rep_rest_cons2, decide_True by done.
    rewrite repeats_cons2.
    rewrite (bool_decide_eq_false_2 (new = a)) by done. simpl.
    apply rep_rest_repeats_after; [done|]. by eapply not_repeats_tail.
  - rewrite rep_rest_cons_ne by done. by apply rep_rest_repeats_after.
Qed.

Lemma expand_with_cons rs w ws :
  expand_with rs (w :: ws) = w :: expand_rest rs ws.
Proof.
  revert ws. induction rs as [|r rs IH]; intros ws; [done|].
  simpl. by rewrite IH.
Qed.

Lemma expand_rest_fixed rs ws :
  (∀ r, r ∈ rs → inner_free r.1 ws) → expand_rest rs ws = ws.
Proof.
  induction rs as [|r rs IH]; intros Hfree; [done|]. simpl.
  rewrite rep_rest_fixed by (apply Hfree; by left).
  apply IH. intros r' Hr'. apply Hfree. by right.
Qed.

(** After the loop no abbreviation is left before the last word, provided
    none was repeated and no expansion is itself an abbreviation.  [done_]
    holds the abbreviations of the turns already made. *)
Lemma expand_rest_inner_free rs : ∀ (done_ : list str) ws,
  (∀ a, a ∈ done_ → inner_free a ws) →
  (∀ r, r ∈ rs → ¬ repeats r.1 ws) →
  (∀ a r, a ∈ done_ ++ rs.*1 → r ∈ rs → a ≠ r.2) →
  ∀ a, a ∈ done_ ++ rs.*1 → inner_free a (expand_rest rs ws).
Proof.
  induction rs as [|r rs IH]; intros done_ ws Hdone Hrep Hsep a Ha.
  { simpl in *. rewrite app_nil_r in Ha. by apply Hdone. }
  simpl. apply (IH (done_ ++ [r.1])).
  - intros b Hb. apply elem_of_app in Hb as [Hb|Hb].
    + apply rep_rest_inner_free_other; [|by apply Hdone].
      apply Hsep; [|by left]. apply elem_of_app. by left.
    + apply list_elem_of_singleton in Hb as ->.
      apply rep_rest_inner_free_self; [|apply Hrep; by left].
      apply not_eq_sym, Hsep; [|by left].
      apply elem_of_app. right. simpl. by left.
  - intros r' Hr'. apply rep_rest_repeats; [|apply Hrep; by right].
    apply Hsep; [|by left]. apply elem_of_app. right. simpl. right.
    apply list_elem_of_fmap. eauto.
  - intros b r' Hb Hr'. apply Hsep; [|by right].
    by rewrite <- app_assoc in Hb.
  - by rewrite <- app_assoc.
Qed.

Lemma abbreviation_not_expansion a r :
  a ∈ REPLACEMENTS.*1 → r ∈ REPLACEMENTS → a ≠ r.2.
Proof.
  intros Ha Hr. apply list_elem_of_In in Ha, Hr. simpl in Ha, Hr.
  intuition subst; discriminate.
Qed.

Lemma expansions_not_stop_words :
  Forall (fun r : str * str => r.2 ∉ COMMON_SUFFIXES) REPLACEMENTS.
Proof. repeat constructor; by vm_compute. Qed.

(** Without a repeated abbreviation, the loop of [normalize] changes
    nothing when run on its own result. *)
Lemma expand_words_twice ws :
  no_repeated_abbreviation ws →
  expand_words (expand_words ws) = expand_words ws.
Proof.
  intros Hno. destruct ws as [|w ws]; [done|].
  unfold expand_words. rewrite !expand_with_cons. f_equal.
  apply expand_rest_fixed. intros r Hr.
  apply (expand_rest_inner_free REPLACEMENTS []).
  - intros a Ha. by apply elem_of_nil in Ha.
  - intros r' Hr'. unfold no_repeated_abbreviation in Hno.
    rewrite Forall_forall in Hno. intros Hrep.
    apply (Hno r' Hr'). destruct ws as [|v ws]; [done|].
    rewrite repeats_cons2. apply orb_True. by right.
  - intros a r' Ha Hr'. by apply abbreviation_not_expansion.
  - rewrite app_nil_l. apply list_elem_of_fmap. eauto.
Qed.

(** ** [normalize] on text that is already normalized *)

Lemma cleaned_join ws :
  Forall alnum_word ws → cleaned (join (py " ") ws) = join (py " ") ws.
Proof.
  intros Hws. pose proof (alnum_words_words _ Hws) as Hw.
  unfold cleaned.
  rewrite lower_clean by (by apply join_clean).
  rewrite strip_join by done.
  rewrite sub_non_alnum_clean by (by apply join_clean).
  by apply sub_spaces_join.
Qed.

Lemma kept_words_join ws :
  Forall alnum_word ws →
  kept_words (join (py " ") ws)
  = filter (fun w => w ∉ COMMON_SUFFIXES) ws.
Proof.
  intros Hws. unfold kept_words. rewrite cleaned_join by done.
  by rewrite split_join by (by apply alnum_words_words).
Qed.

Lemma normalize_idempotent_on name :
  no_repeated_abbreviation (kept_words name) →
  normalize (normalize name) = normalize name.
Proof.
  intros Hno. rewrite (normalize_words name).
  pose proof (chosen_words_alnum name) as Hchosen.
  pose proof (expand_words_alnum _ Hchosen) as Hexp.
  rewrite normalize_words. f_equal.
  unfold chosen_words at 1. rewrite kept_words_join by done.
  rewrite cleaned_join by done.
  rewrite split_join by (by apply alnum_words_words).
  unfold chosen_words in *. unfold kept_words in *.
  destruct (filter _ (split (cleaned name))) as [|k ks] eqn:Hkept.
  - apply filter_none in Hkept.
    assert (length (take 2 (split (cleaned name))) ≤ 2) as Hlen
      by (rewrite length_take; lia).
    unfold expand_words.
    rewrite (expand_with_short _ (take 2 (split (cleaned name)))) by done.
    rewrite filter_none_2 by (by apply Forall_take).
    rewrite take_take. change (2 `min` 2) with 2.
    by rewrite expand_with_short.
  - assert (Forall (fun w => w ∉ COMMON_SUFFIXES) (k :: ks)) as Hstop.
    { rewrite <- Hkept. apply filter_holds. }
    assert (expand_words (k :: ks) ≠ []) as Hne.
    { unfold expand_words. by rewrite expand_with_cons. }
    rewrite filter_all.
    2:{ apply expand_with_Forall; [exact expansions_not_stop_words|done]. }
    destruct (expand_words (k :: ks)) as [|t ts] eqn:Ht; [done|].
    rewrite <- Ht. by apply expand_words_twice.
Qed.

End NormalizeFacts.

(* ================================================================== *)
(** * The service and the matcher on the examples of the tests *)
(* ================================================================== *)

Module ToyExamples.
Import PyStr LocationNormalizer BucketService LocationMatcher Toy.

(** [test_fuzzy_typo_tolerance]: the bucket "ajah" is found for "ajah",
    "aja" and "ajsh". *)
Example typo_tolerance :
  let st := assign (6.4667) (3.5833) "Ajah" empty_store in
  names (search st "ajah") = [py "ajah"]
  ∧ names (search st "aja") = [py "ajah"]
  ∧ names (search st "ajsh") = [py "ajah"]
  ∧ names (search st "NonexistentLocation123") = [].
Proof. vm_compute. repeat split. Qed.

(** [test_find_existing_bucket]. *)
Example find_existing_bucket :
  let r1 := find_or_create_bucket (grid := grid) (db := db)
              (6.4302) (3.4216) (py "VI") empty_store in
  let r2 := find_or_create_bucket (grid := grid) (db := db)
              (6.4302) (3.4216) (py "Victoria Island") r1.1 in
  ∃ b1 b2, r1.2 = Ok b1 ∧ r2.2 = Ok b2
    ∧ GeoBucket.id b1 = GeoBucket.id b2
    ∧ GeoBucket.variant_names b2 = [py "VI"; py "Victoria Island"].
Proof. vm_compute. eexists _, _. repeat split. Qed.

End ToyExamples.

(* ================================================================== *)
(** * Facts about [BucketService] *)
(* ================================================================== *)

Module BucketFacts.
Import LocationNormalizer BucketService Notions.

Lemma first_by_h3_index_Some {db : Database} st h b :
  first_by_h3_index st h = Some b →
  b ∈ geo_buckets st ∧ GeoBucket.h3_index b = h.
Proof.
  unfold first_by_h3_index. intros Hh. apply head_Some_elem_of in Hh.
  rewrite bucket_order_perm in Hh.
  apply list_elem_of_filter in Hh as [? ?]. done.
Qed.

Lemma first_by_h3_index_None {db : Database} st h :
  first_by_h3_index st h = None →
  h ∉ GeoBucket.h3_index <$> geo_buckets st.
Proof.
  unfold first_by_h3_index. intros Hh. apply head_None in Hh.
  pose proof (bucket_order_perm
                (filter (fun b => GeoBucket.h3_index b = h) (geo_buckets st)))
    as Hperm.
  rewrite Hh in Hperm. symmetry in Hperm. apply Permutation_nil_r in Hperm.
  intros Hin. apply list_elem_of_fmap in Hin as (b & -> & Hb).
  assert (b ∈ filter (fun b' => GeoBucket.h3_index b' = GeoBucket.h3_index b)
                     (geo_buckets st)) as Hf
    by (by apply list_elem_of_filter).
  rewrite Hperm in Hf. by apply elem_of_nil in Hf.
Qed.

Lemma filter_unique {A B : Type} `{EqDecision B} (f : A → B) (l : list A) x :
  NoDup (f <$> l) → x ∈ l → filter (fun y => f y = f x) l = [x].
Proof.
  induction l as [|y l IH]; intros Hnd Hin; [by apply elem_of_nil in Hin|].
  rewrite fmap_cons in Hnd. apply NoDup_cons in Hnd as [Hy Hnd].
  apply elem_of_cons in Hin as [->|Hin].
  - rewrite filter_cons_True by done. f_equal.
    apply NormalizeFacts.filter_none_2. apply Forall_forall. intros z Hz Heq.
    apply Hy. rewrite <- Heq. by apply list_elem_of_fmap_2.
  - rewrite filter_cons_False; [by apply IH|].
    intros Heq. apply Hy. rewrite Heq. by apply list_elem_of_fmap_2.
Qed.

Lemma first_by_h3_index_unique {db : Database} st b :
  NoDup (GeoBucket.h3_index <$> geo_buckets st) →
  b ∈ geo_buckets st →
  first_by_h3_index st (GeoBucket.h3_index b) = Some b.
Proof.
  intros Hnd Hin. unfold first_by_h3_index.
  rewrite (filter_unique GeoBucket.h3_index) by done.
  pose proof (bucket_order_perm [b]) as Hperm.
  apply Permutation_singleton_r in Hperm. by rewrite Hperm.
Qed.

(** ** The steps of [find_or_create_bucket] *)

Lemma set_variant_names_id pk names row :
  GeoBucket.id (set_variant_names pk names row) = GeoBucket.id row.
Proof. unfold set_variant_names. by case_decide. Qed.

Lemma set_variant_names_h3_index pk names row :
  GeoBucket.h3_index (set_variant_names pk names row)
  = GeoBucket.h3_index row.
Proof. unfold set_variant_names. by case_decide. Qed.

Lemma set_variant_names_self names row :
  GeoBucket.variant_names (set_variant_names (GeoBucket.id row) names row)
  = names.
Proof. unfold set_variant_names. by rewrite decide_True. Qed.

Lemma set_variant_names_other pk names row :
  GeoBucket.id row ≠ pk → set_variant_names pk names row = row.
Proof. intros Hne. unfold set_variant_names. by rewrite decide_False. Qed.

Lemma add_variant_name_same self name st :
  name = [] ∨ name ∈ GeoBucket.variant_names self →
  add_variant_name self name st = (st, self).
Proof.
  intros Hcase. unfold add_variant_name.
  destruct Hcase as [->|Hin]; [done|].
  rewrite (bool_decide_eq_false_2 (name ∉ _)) by auto.
  by rewrite andb_false_r.
Qed.

Lemma add_variant_name_new self name st :
  name ≠ [] → name ∉ GeoBucket.variant_names self →
  add_variant_name self name st
  = (mkStore
       (set_variant_names (GeoBucket.id self)
          (GeoBucket.variant_names self ++ [name]) <$> geo_buckets st)
       (location_index st) (next_bucket_id st) (next_index_id st),
     set_variant_names (GeoBucket.id self)
       (GeoBucket.variant_names self ++ [name]) self).
Proof.
  intros Hne Hnew. unfold add_variant_name.
  by rewrite !bool_decide_eq_true_2.
Qed.

Lemma add_variant_name_cases (self : GeoBucket.t) (name : str) :
  (name = [] ∨ name ∈ GeoBucket.variant_names self)
  ∨ (name ≠ [] ∧ name ∉ GeoBucket.variant_names self).
Proof.
  destruct (decide (name = [])); [by left; left|].
  destruct (decide (name ∈ GeoBucket.variant_names self));
    [by left; right|by right].
Qed.

Lemma add_to_location_index_buckets bucket original normalized st :
  geo_buckets (_add_to_location_index bucket original normalized st)
  = geo_buckets st
  ∧ next_bucket_id (_add_to_location_index bucket original normalized st)
    = next_bucket_id st.
Proof. unfold _add_to_location_index. by case_bool_decide. Qed.

Lemma objects_create_fresh st h3_index centroid normalized_name names :
  h3_index ∉ GeoBucket.h3_index <$> geo_buckets st →
  objects_create st h3_index centroid normalized_name names
  = (mkStore
       (geo_buckets st
        ++ [GeoBucket.mk (next_bucket_id st) h3_index centroid
              normalized_name names 0])
       (location_index st) (next_bucket_id st + 1) (next_index_id st),
     Ok (GeoBucket.mk (next_bucket_id st) h3_index centroid normalized_name
           names 0)).
Proof. intros Hfresh. unfold objects_create. by rewrite bool_decide_eq_false_2. Qed.

Lemma objects_create_conflict st h3_index centroid normalized_name names :
  h3_index ∈ GeoBucket.h3_index <$> geo_buckets st →
  objects_create st h3_index centroid normalized_name names
  = (st, Raise IntegrityError).
Proof. intros Hin. unfold objects_create. by rewrite bool_decide_eq_true_2. Qed.

Lemma create_bucket_fresh {grid : H3} h3_index location_name st :
  h3_index ∉ GeoBucket.h3_index <$> geo_buckets st →
  ∃ st', create_bucket h3_index location_name (normalize location_name) st
         = (st', Ok (new_bucket st h3_index location_name))
    ∧ geo_buckets st'
      = geo_buckets st ++ [new_bucket st h3_index location_name]
    ∧ next_bucket_id st' = (next_bucket_id st + 1)%Z.
Proof.
  intros Hfresh. unfold create_bucket, new_bucket.
  destruct (h3_to_coordinates h3_index) as [clat clng]. simpl.
  fold (first_variants location_name).
  rewrite objects_create_fresh by done.
  eexists. split; [done|].
  by destruct (add_to_location_index_buckets
    (GeoBucket.mk (next_bucket_id st) h3_index (clng, clat)
       (normalize location_name) (first_variants location_name) 0)
    location_name (normalize location_name)
    (mkStore
       (geo_buckets st
        ++ [GeoBucket.mk (next_bucket_id st) h3_index (clng, clat)
              (normalize location_name) (first_variants location_name) 0])
       (location_index st) (next_bucket_id st + 1) (next_index_id st)))
    as [-> ->].
Qed.

Lemma create_bucket_conflict {grid : H3} h3_index location_name st :
  h3_index ∈ GeoBucket.h3_index <$> geo_buckets st →
  create_bucket h3_index location_name (normalize location_name) st
  = (st, Raise IntegrityError).
Proof.
  intros Hin. unfold create_bucket.
  destruct (h3_to_coordinates h3_index) as [clat clng].
  by rewrite objects_create_conflict.
Qed.

Lemma found_bucket_result bucket location_name st :
  ∃ st', found_bucket bucket location_name (normalize location_name) st
         = (st', Ok (with_variant bucket location_name))
    ∧ geo_buckets st'
      = rows_with_variant bucket location_name (geo_buckets st)
    ∧ next_bucket_id st' = next_bucket_id st.
Proof.
  unfold found_bucket, with_variant, rows_with_variant, add_variant_name.
  destruct (bool_decide (location_name ≠ [])
            && bool_decide (location_name ∉ GeoBucket.variant_names bucket));
    eexists; (split; [done|]);
    match goal with
    | |- context [_add_to_location_index ?b ?o ?n ?s] =>
        by destruct (add_to_location_index_buckets b o n s) as [-> ->]
    end.
Qed.

(** Running alone, [find_or_create_bucket] returns a bucket of the cell of
    its coordinates, whatever the coordinates are. *)
Lemma find_or_create_bucket_returns {grid : H3} {db : Database}
    lat lng location_name st :
  ∃ st' bucket,
    find_or_create_bucket lat lng location_name st = (st', Ok bucket)
    ∧ GeoBucket.h3_index bucket = calculate_h3_index lat lng
    ∧ bucket ∈ geo_buckets st'.
Proof.
  unfold find_or_create_bucket, find_or_create_bucket_among.
  destruct (first_by_h3_index st (calculate_h3_index lat lng))
    as [bucket|] eqn:Hfirst.
  - apply first_by_h3_index_Some in Hfirst as [Hin Hcell].
    destruct (found_bucket_result bucket location_name st)
      as (st' & -> & Hrows & _).
    exists st', (with_variant bucket location_name).
    split; [done|]. split.
    + unfold with_variant. case_match; [|done].
      by rewrite set_variant_names_h3_index.
    + rewrite Hrows. unfold with_variant, rows_with_variant.
      case_match; [|done]. by apply list_elem_of_fmap_2.
  - apply first_by_h3_index_None in Hfirst.
    destruct (create_bucket_fresh _ location_name st Hfirst)
      as (st' & -> & Hrows & _).
    eexists _, _. split; [done|]. split; [done|].
    rewrite Hrows. apply elem_of_app. right. by left.
Qed.

(** ** The invariant *)

Lemma fmap_set_variant_names {B : Type} (f : GeoBucket.t → B) pk names
    (rows : list GeoBucket.t) :
  (∀ row, f (set_variant_names pk names row) = f row) →
  f <$> (set_variant_names pk names <$> rows) = f <$> rows.
Proof.
  intros Hf. rewrite <- list_fmap_compose. apply list_fmap_ext.
  intros i row _. apply Hf.
Qed.

Lemma store_ok_empty : store_ok empty_store.
Proof. repeat split; constructor. Qed.

Lemma occurrences_absent name names :
  name ∉ names → occurrences name names = 0.
Proof.
  intros Hno. unfold occurrences.
  rewrite NormalizeFacts.filter_none_2; [done|].
  apply Forall_forall. by intros v Hv ->.
Qed.

Lemma rows_with_variant_ok bucket name st st' :
  store_ok st → bucket ∈ geo_buckets st →
  geo_buckets st' = rows_with_variant bucket name (geo_buckets st) →
  next_bucket_id st' = next_bucket_id st →
  store_ok st'.
Proof.
  intros (Hcells & Hids & Hrows) Hin Heq Hnext.
  unfold store_ok. rewrite Heq, Hnext. unfold rows_with_variant.
  case_bool_decide as Hne; cbn [andb]; [|done].
  case_bool_decide as Hnew; cbn [andb]; [|done].
  rewrite !fmap_set_variant_names
    by (intros; by rewrite ?set_variant_names_h3_index,
                          ?set_variant_names_id).
  split; [done|]. split; [done|].
  apply Forall_fmap. rewrite Forall_forall in Hrows.
  apply Forall_forall. intros row Hrow. simpl.
  rewrite set_variant_names_id.
  destruct (Hrows row Hrow) as (Hlt & Hnd & Hnil).
  split; [done|]. unfold set_variant_names. case_decide; [|done].
  simpl. destruct (Hrows bucket Hin) as (_ & Hndb & Hnilb). split.
  - apply NoDup_app. split; [done|]. split; [|apply NoDup_singleton].
    intros v Hv Hv'. apply list_elem_of_singleton in Hv'. by subst.
  - apply not_elem_of_app. split; [done|].
    intros Hv. apply list_elem_of_singleton in Hv. by subst.
Qed.

Lemma first_variants_NoDup name : NoDup (first_variants name).
Proof. destruct name; [constructor|apply NoDup_singleton]. Qed.

Lemma first_variants_no_empty name : [] ∉ first_variants name.
Proof.
  destruct name; [apply not_elem_of_nil|]. simpl.
  intros Hin. by apply list_elem_of_singleton in Hin.
Qed.

Lemma new_bucket_ok {grid : H3} h3_index name st st' :
  store_ok st →
  h3_index ∉ GeoBucket.h3_index <$> geo_buckets st →
  geo_buckets st' = geo_buckets st ++ [new_bucket st h3_index name] →
  next_bucket_id st' = (next_bucket_id st + 1)%Z →
  store_ok st'.
Proof.
  intros (Hcells & Hids & Hrows) Hfresh Heq Hnext.
  unfold store_ok. rewrite Heq, Hnext, !fmap_app. simpl.
  rewrite Forall_forall in Hrows.
  split; [|split].
  - apply NoDup_app. split; [done|]. split; [|apply NoDup_singleton].
    intros h Hh Hh'. apply list_elem_of_singleton in Hh'. by subst.
  - apply NoDup_app. split; [done|]. split; [|apply NoDup_singleton].
    intros pk Hpk Hpk'. apply list_elem_of_singleton in Hpk'. subst.
    apply list_elem_of_fmap in Hpk as (row & Hid & Hrow).
    destruct (Hrows row Hrow) as [Hlt _]. lia.
  - apply Forall_app. split.
    + apply Forall_forall. intros row Hrow.
      destruct (Hrows row Hrow) as [Hlt Hnd]. split; [lia|done].
    + constructor; [|done]. simpl. split; [lia|]. split.
      * apply first_variants_NoDup.
      * apply first_variants_no_empty.
Qed.

(** One call running alone: it returns a stored bucket of the cell, keeps
    the invariant, and the bucket carries a non-empty name. *)
Lemma find_or_create_bucket_step {grid : H3} {db : Database}
    lat lng name st :
  store_ok st →
  ∃ st' bucket,
    find_or_create_bucket lat lng name st = (st', Ok bucket)
    ∧ store_ok st'
    ∧ bucket ∈ geo_buckets st'
    ∧ GeoBucket.h3_index bucket = calculate_h3_index lat lng
    ∧ (name ≠ [] → name ∈ GeoBucket.variant_names bucket).
Proof.
  intros Hok.
  unfold find_or_create_bucket, find_or_create_bucket_among.
  destruct (first_by_h3_index st (calculate_h3_index lat lng))
    as [bucket|] eqn:Hfirst.
  - apply first_by_h3_index_Some in Hfirst as [Hin Hcell].
    destruct (found_bucket_result bucket name st)
      as (st' & -> & Hrows & Hnext).
    exists st', (with_variant bucket name).
    split; [done|]. split; [by eapply rows_with_variant_ok|].
    rewrite Hrows. unfold with_variant, rows_with_variant.
    case_bool_decide as Hne; cbn [andb].
    + case_bool_decide as Hnew; cbn [andb].
      * split; [by apply list_elem_of_fmap_2|].
        rewrite set_variant_names_h3_index, set_variant_names_self.
        split; [done|]. intros _. apply elem_of_app. right. by left.
      * split; [done|]. split; [done|]. intros _.
        by destruct (decide (name ∈ GeoBucket.variant_names bucket)).
    + split; [done|]. by split.
  - apply first_by_h3_index_None in Hfirst.
    destruct (create_bucket_fresh _ name st Hfirst)
      as (st' & -> & Hrows & Hnext).
    eexists _, _. split; [done|].
    split; [by eapply new_bucket_ok|].
    rewrite Hrows. split; [apply elem_of_app; right; by left|].
    split; [done|]. intros Hname. simpl. destruct name; [done|]. by left.
Qed.

(** A second call with a name the bucket already has: the same bucket
    comes back and no row changes. *)
Lemma find_or_create_bucket_again {grid : H3} {db : Database}
    lat lng name st bucket :
  store_ok st → bucket ∈ geo_buckets st →
  GeoBucket.h3_index bucket = calculate_h3_index lat lng →
  name = [] ∨ name ∈ GeoBucket.variant_names bucket →
  ∃ st', find_or_create_bucket lat lng name st = (st', Ok bucket)
         ∧ geo_buckets st' = geo_buckets st.
Proof.
  intros (Hcells & _) Hin Hcell Hname.
  unfold find_or_create_bucket, find_or_create_bucket_among.
  rewrite <- Hcell, first_by_h3_index_unique by done.
  destruct (found_bucket_result bucket name st) as (st' & -> & Hrows & _).
  exists st'. unfold with_variant, rows_with_variant in *.
  assert (bool_decide (name ≠ [])
          && bool_decide (name ∉ GeoBucket.variant_names bucket) = false)
    as Hsame.
  { destruct Hname as [->|Hname]; [done|].
    rewrite (bool_decide_eq_false_2 (name ∉ _)) by auto.
    by rewrite andb_false_r. }
  rewrite Hsame in *. done.
Qed.

Lemma occurrences_NoDup name names :
  NoDup names → name ∈ names → occurrences name names = 1.
Proof.
  unfold occurrences. induction 1 as [|v names Hv Hnd IH]; intros Hin.
  - by apply elem_of_nil in Hin.
  - apply elem_of_cons in Hin as [->|Hin].
    + rewrite filter_cons_True by done. simpl. f_equal.
      rewrite NormalizeFacts.filter_none_2; [done|].
      apply Forall_forall. by intros w Hw ->.
    + rewrite filter_cons_False by (by intros ->). by apply IH.
Qed.

(** ** The foreign key of the index is kept *)

Lemma references_ok_empty : references_ok empty_store.
Proof. constructor. Qed.

Lemma add_to_location_index_references bucket original normalized st :
  references_ok st →
  GeoBucket.id bucket ∈ GeoBucket.id <$> geo_buckets st →
  references_ok (_add_to_location_index bucket original normalized st).
Proof.
  intros Hok Hin. unfold _add_to_location_index.
  case_bool_decide; [done|]. unfold references_ok. simpl.
  apply Forall_app. split; [done|]. by constructor.
Qed.

Lemma references_ok_more_rows st st' :
  references_ok st →
  location_index st' = location_index st →
  (∀ pk, pk ∈ GeoBucket.id <$> geo_buckets st →
         pk ∈ GeoBucket.id <$> geo_buckets st') →
  references_ok st'.
Proof.
  unfold references_ok. intros Hok -> Hsub.
  eapply Forall_impl; [exact Hok|]. intros i Hi. by apply Hsub.
Qed.

(** Every store that [find_or_create_bucket] builds from the empty one
    satisfies [references_ok]. *)
Lemma find_or_create_bucket_references {grid : H3} {db : Database}
    lat lng name st :
  references_ok st →
  references_ok (find_or_create_bucket lat lng name st).1.
Proof.
  intros Hok.
  unfold find_or_create_bucket, find_or_create_bucket_among.
  destruct (first_by_h3_index st (calculate_h3_index lat lng))
    as [bucket|] eqn:Hfirst.
  - apply first_by_h3_index_Some in Hfirst as [Hin _].
    unfold found_bucket.
    destruct (add_variant_name_cases bucket name) as [Hsame|[Hne Hnew]].
    + rewrite add_variant_name_same by done. simpl.
      apply add_to_location_index_references; [done|].
      by apply list_elem_of_fmap_2.
    + rewrite add_variant_name_new by done. simpl.
      apply add_to_location_index_references.
      * eapply references_ok_more_rows; [exact Hok|done|]. simpl.
        intros pk Hpk. rewrite fmap_set_variant_names; [done|].
        intros row. apply set_variant_names_id.
      * simpl. rewrite set_variant_names_id.
        rewrite fmap_set_variant_names
          by (intros row; apply set_variant_names_id).
        by apply list_elem_of_fmap_2.
  - apply first_by_h3_index_None in Hfirst.
    unfold create_bucket.
    destruct (h3_to_coordinates (calculate_h3_index lat lng))
      as [clat clng].
    rewrite objects_create_fresh by done. simpl.
    apply add_to_location_index_references.
    + eapply references_ok_more_rows; [exact Hok|done|]. simpl.
      intros pk Hpk. rewrite fmap_app. apply elem_of_app. by left.
    + simpl. rewrite fmap_app. apply elem_of_app. right. by left.
Qed.

End BucketFacts.

(* ================================================================== *)
(** * Facts about [LocationMatcher] *)
(* ================================================================== *)

Module MatcherFacts.
Import PyStr LocationNormalizer LocationMatcher Notions.

(** ** Reads of the store *)

Lemma bind_Ok {A B : Type} (m : M A) (k : A → M B) sent a sent' r :
  m = (sent, Ok a) → k a = (sent', r) → (m ≫= k) = (sent ++ sent', r).
Proof. intros -> Hk. unfold mbind, M_bind. by rewrite Hk. Qed.

Lemma bind_send {A B : Type} (q : query) (rows : A) (k : A → M B) :
  ((([q], Ok rows) : M A) ≫= k) = ((q :: (k rows).1), (k rows).2).
Proof. unfold mbind, M_bind. by destruct (k rows). Qed.

Lemma bind_ret {A B : Type} (a : A) (k : A → M B) :
  ((([], Ok a) : M A) ≫= k) = k a.
Proof. unfold mbind, M_bind. by destruct (k a). Qed.

(** ** [_deduplicate_buckets] *)

Lemma not_seen_union (x y : Z) (seen : gset Z) :
  x ∉ ({[y]} ∪ seen : gset Z) ↔ x ≠ y ∧ x ∉ seen.
Proof. by rewrite not_elem_of_union, not_elem_of_singleton. Qed.

Lemma deduplicate_from_elem seen l b :
  b ∈ deduplicate_from seen l → b ∈ l ∧ GeoBucket.id b ∉ seen.
Proof.
  revert seen. induction l as [|x l IH]; intros seen Hin; simpl in Hin.
  - by apply elem_of_nil in Hin.
  - case_decide as Hx.
    + apply IH in Hin as [? ?]. split; [by right|done].
    + apply elem_of_cons in Hin as [->|Hin]; [split; [by left|done]|].
      apply IH in Hin as [? Hb]. split; [by right|].
      by apply not_seen_union in Hb as [_ Hb].
Qed.

Lemma deduplicate_from_NoDup seen l :
  NoDup (GeoBucket.id <$> deduplicate_from seen l).
Proof.
  revert seen. induction l as [|x l IH]; intros seen; simpl.
  - constructor.
  - case_decide as Hx; [apply IH|].
    rewrite fmap_cons. apply NoDup_cons. split; [|apply IH].
    intros Hin. apply list_elem_of_fmap in Hin as (b & Hid & Hb).
    apply deduplicate_from_elem in Hb as [_ Hb].
    by apply not_seen_union in Hb as [Hb _].
Qed.


Lemma deduplicate_from_covers seen l b :
  b ∈ l → GeoBucket.id b ∉ seen →
  GeoBucket.id b ∈ GeoBucket.id <$> deduplicate_from seen l.
Proof.
  revert seen. induction l as [|x l IH]; intros seen Hin Hb.
  - by apply elem_of_nil in Hin.
  - simpl. case_decide as Hx.
    + apply elem_of_cons in Hin as [->|Hin]; [done|]. by apply IH.
    + rewrite fmap_cons.
      destruct (decide (GeoBucket.id b = GeoBucket.id x)) as [->|Hne];
        [by left|].
      right. apply elem_of_cons in Hin as [->|Hin]; [done|].
      apply IH; [done|]. by apply not_seen_union.
Qed.



(** ** The rows the layers read *)

Lemma exact_name_match_eq {db : Database} st normalized_name :
  _exact_name_match st normalized_name
  = ([BucketsByNameIExact normalized_name],
     Ok (exact_rows st normalized_name)).
Proof. reflexivity. Qed.

(** ** The foreign key is never dangling *)

Lemma related_bucket_ok st index :
  LocationIndex.bucket_id index ∈ GeoBucket.id <$> geo_buckets st →
  ∃ bucket, related_bucket st index
            = ([BucketByPk (LocationIndex.bucket_id index)], Ok bucket).
Proof.
  intros Hin. apply list_elem_of_fmap in Hin as (b & Hid & Hb).
  unfold related_bucket.
  destruct (head _) as [bucket|] eqn:Hhead; [by exists bucket|].
  apply head_None in Hhead.
  assert (b ∈ filter (fun b' => GeoBucket.id b'
                               = LocationIndex.bucket_id index)
                     (geo_buckets st)) as Hf
    by (by apply list_elem_of_filter).
  rewrite Hhead in Hf. by apply elem_of_nil in Hf.
Qed.

Lemma trigram_loop_cons st normalized_name index rest :
  trigram_loop st normalized_name (index :: rest)
  = if Qle_bool ACCEPTABLE_MATCH_THRESHOLD
         (calculate_similarity normalized_name
            (LocationIndex.normalized_name index))
    then related_bucket st index ≫= fun bucket =>
         trigram_loop st normalized_name rest ≫= fun more =>
         mret (bucket :: more)
    else trigram_loop st normalized_name rest.
Proof. reflexivity. Qed.

Lemma related_buckets_cons st index rest :
  related_buckets st (index :: rest)
  = related_bucket st index ≫= fun bucket =>
    related_buckets st rest ≫= fun more => mret (bucket :: more).
Proof. reflexivity. Qed.

Lemma trigram_loop_ok st normalized_name indices :
  Forall (fun i => LocationIndex.bucket_id i
                   ∈ GeoBucket.id <$> geo_buckets st) indices →
  ∃ sent buckets,
    trigram_loop st normalized_name indices = (sent, Ok buckets).
Proof.
  induction 1 as [|index rest Hindex _ (sent & buckets & IH)].
  - by exists [], [].
  - rewrite trigram_loop_cons.
    destruct (Qle_bool _ _); [|by exists sent, buckets].
    destruct (related_bucket_ok st index Hindex) as (bucket & Hb).
    eexists _, _. eapply bind_Ok; [exact Hb|].
    eapply bind_Ok; [exact IH|]. reflexivity.
Qed.

Lemma related_buckets_ok st indices :
  Forall (fun i => LocationIndex.bucket_id i
                   ∈ GeoBucket.id <$> geo_buckets st) indices →
  ∃ sent buckets, related_buckets st indices = (sent, Ok buckets).
Proof.
  induction 1 as [|index rest Hindex _ (sent & buckets & IH)].
  - by exists [], [].
  - rewrite related_buckets_cons.
    destruct (related_bucket_ok st index Hindex) as (bucket & Hb).
    eexists _, _. eapply bind_Ok; [exact Hb|].
    eapply bind_Ok; [exact IH|]. reflexivity.
Qed.

Lemma index_rows_ok {db : Database} st (P : LocationIndex.t → Prop)
    `{!∀ i, Decision (P i)} :
  references_ok st →
  Forall (fun i => LocationIndex.bucket_id i
                   ∈ GeoBucket.id <$> geo_buckets st)
         (index_order (filter P (location_index st))).
Proof.
  intros Hok. apply Forall_forall. intros i Hi.
  rewrite index_order_perm in Hi. apply list_elem_of_filter in Hi as [_ Hi].
  unfold references_ok in Hok. rewrite Forall_forall in Hok. by apply Hok.
Qed.

Lemma fuzzy_trigram_ok {db : Database} st normalized_name :
  references_ok st →
  ∃ sent buckets, fuzzy_trigram st normalized_name = (sent, Ok buckets).
Proof.
  intros Hok.
  destruct (trigram_loop_ok st normalized_name _
              (index_rows_ok st
                 (fun i => contains (upper (take 3 normalized_name))
                             (upper (LocationIndex.normalized_name i)))
                 Hok))
    as (sent & buckets & Hloop).
  eexists _, _. unfold fuzzy_trigram.
  eapply bind_Ok; [reflexivity|exact Hloop].
Qed.

Lemma fuzzy_metaphone_ok {db : Database} st normalized_name :
  references_ok st →
  ∃ sent buckets, fuzzy_metaphone st normalized_name = (sent, Ok buckets).
Proof.
  intros Hok. unfold fuzzy_metaphone.
  destruct (metaphone_simple normalized_name) as [|c code] eqn:Hcode.
  - by exists [], [].
  - destruct (related_buckets_ok st _
                (index_rows_ok st
                   (fun i => LocationIndex.metaphone i = c :: code) Hok))
      as (sent & buckets & Hloop).
    eexists _, _. eapply bind_Ok; [reflexivity|exact Hloop].
Qed.

Lemma fuzzy_name_match_ok {db : Database} st normalized_name :
  references_ok st →
  ∃ sent buckets, _fuzzy_name_match st normalized_name = (sent, Ok buckets).
Proof.
  intros Hok. unfold _fuzzy_name_match.
  destruct (fuzzy_trigram_ok st normalized_name Hok) as (s2 & l2 & H2).
  destruct (fuzzy_metaphone_ok st normalized_name Hok) as (s3 & l3 & H3).
  eexists _, _. eapply bind_Ok; [reflexivity|].
  eapply bind_Ok; [exact H2|]. eapply bind_Ok; [exact H3|]. reflexivity.
Qed.

Lemma spatial_name_match_ok {grid : H3} {db : Database}
    st normalized_name lat lng :
  ∃ buckets,
    _spatial_name_match st normalized_name lat lng
    = ([BucketsByCells (BucketService.get_h3_neighbors
                          (BucketService.calculate_h3_index lat lng))],
       Ok buckets).
Proof. eexists. reflexivity. Qed.

(** With the foreign key in place, [find_matching_buckets] returns, and
    what it returns is [_deduplicate_buckets] of the accumulated layers,
    Layer 1 first. *)
Lemma find_matching_buckets_shape {grid : H3} {db : Database}
    st term lat lng min_results :
  references_ok st →
  ∃ sent accumulated,
    find_matching_buckets st term lat lng min_results
    = (sent, Ok (_deduplicate_buckets accumulated))
    ∧ (term = [] ∧ accumulated = []
       ∨ term ≠ [] ∧ ∃ later,
           accumulated = exact_rows st (normalize term) ++ later).
Proof.
  intros Hok. destruct term as [|c term].
  { exists [], []. split; [done|]. by left. }
  unfold find_matching_buckets.
  set (name := normalize (c :: term)).
  rewrite exact_name_match_eq, bind_send. cbn [app].
  assert (∀ buckets, ∃ sent fuzzy,
            fuzzy_layer st name buckets
            = (sent, Ok (_deduplicate_buckets (buckets ++ fuzzy))))
    as Hfuzzy.
  { intros buckets.
    destruct (fuzzy_name_match_ok st name Hok) as (sent & fuzzy & Hf).
    exists sent, fuzzy. unfold fuzzy_layer.
    rewrite <- (app_nil_r sent). eapply bind_Ok; [exact Hf|reflexivity]. }
  case_bool_decide.
  { eexists _, _. split; [reflexivity|]. right. split; [done|].
    exists []. by rewrite app_nil_r. }
  destruct lat as [lat|], lng as [lng|];
    try (destruct (Hfuzzy (exact_rows st name)) as (sent & fuzzy & ->);
         eexists _, _; split; [reflexivity|]; right; split; [done|];
         by exists fuzzy).
  destruct (_validate_coords lat lng).
  2:{ destruct (Hfuzzy (exact_rows st name)) as (sent & fuzzy & ->).
      eexists _, _. split; [reflexivity|]. right. split; [done|].
      by exists fuzzy. }
  destruct (spatial_name_match_ok st name lat lng) as (spatial & ->).
  rewrite bind_send. case_bool_decide.
  - eexists _, _. split; [reflexivity|]. right. split; [done|].
    by exists spatial.
  - destruct (Hfuzzy (exact_rows st name ++ spatial))
      as (sent & fuzzy & Hf).
    cbn [fst snd]. rewrite Hf.
    eexists _, _. split; [reflexivity|]. right. split; [done|].
    exists (spatial ++ fuzzy). by rewrite app_assoc.
Qed.

(** ** The cascade on the empty normalized query *)

Lemma fuzzy_levenshtein_empty {db : Database} st :
  fuzzy_levenshtein st [] = ([BucketsAll], Ok (short_rows st)).
Proof. reflexivity. Qed.

Lemma trigram_loop_empty st indices :
  trigram_loop st [] indices = ([], Ok []).
Proof.
  induction indices as [|index rest IH]; [done|].
  rewrite trigram_loop_cons. exact IH.
Qed.

Lemma fuzzy_trigram_empty {db : Database} st :
  fuzzy_trigram st [] = ([IndexByNameIContains []], Ok []).
Proof.
  unfold fuzzy_trigram, indices_where, send. rewrite bind_send.
  by rewrite trigram_loop_empty.
Qed.

Lemma fuzzy_metaphone_empty {db : Database} st :
  fuzzy_metaphone st [] = ([], Ok []).
Proof. reflexivity. Qed.

Lemma fuzzy_name_match_empty {db : Database} st :
  _fuzzy_name_match st []
  = ([BucketsAll; IndexByNameIContains []], Ok (short_rows st)).
Proof.
  unfold _fuzzy_name_match.
  rewrite fuzzy_levenshtein_empty, bind_send.
  rewrite fuzzy_trigram_empty, bind_send.
  rewrite fuzzy_metaphone_empty, bind_ret.
  unfold mret, M_ret. simpl. by rewrite app_nil_r.
Qed.

Lemma fuzzy_layer_empty {db : Database} st buckets :
  fuzzy_layer st [] buckets
  = ([BucketsAll; IndexByNameIContains []],
     Ok (_deduplicate_buckets (buckets ++ short_rows st))).
Proof. unfold fuzzy_layer. by rewrite fuzzy_name_match_empty. Qed.

Lemma contains_nil hay : contains [] hay = true.
Proof.
  destruct hay; cbn [contains];
    by rewrite bool_decide_eq_true_2 by apply prefix_nil.
Qed.

Lemma is_name_match_empty bucket_name : _is_name_match [] bucket_name = true.
Proof.
  unfold _is_name_match. case_bool_decide; [done|].
  by rewrite contains_nil.
Qed.

Lemma filter_true {A : Type} (f : A → bool) (l : list A) :
  (∀ x, f x = true) → List.filter f l = l.
Proof.
  intros Hf. induction l as [|x l IH]; [done|]. simpl.
  by rewrite Hf, IH.
Qed.

Lemma spatial_name_match_empty {grid : H3} {db : Database} st lat lng :
  _spatial_name_match st [] lat lng
  = ([BucketsByCells (BucketService.get_h3_neighbors
                        (BucketService.calculate_h3_index lat lng))],
     Ok (ring_rows st lat lng)).
Proof.
  unfold _spatial_name_match, buckets_where, send. rewrite bind_send.
  unfold mret, M_ret. cbn [fst snd]. f_equal. f_equal.
  apply filter_true. intros bucket. by rewrite is_name_match_empty.
Qed.

Lemma find_matching_buckets_empty_normalized {grid : H3} {db : Database}
    st term lat lng min_results :
  term ≠ [] → normalize term = [] →
  find_matching_buckets st term lat lng min_results
  = empty_query_cascade st lat lng min_results.
Proof.
  intros Hterm Hnorm. unfold find_matching_buckets, empty_query_cascade.
  destruct term as [|c term]; [done|]. rewrite Hnorm.
  rewrite exact_name_match_eq, bind_send. cbn [app].
  case_bool_decide; [done|].
  unfold usable_coords.
  destruct lat as [lat|], lng as [lng|];
    try (by rewrite fuzzy_layer_empty).
  destruct (_validate_coords lat lng); [|by rewrite fuzzy_layer_empty].
  rewrite spatial_name_match_empty, bind_send.
  case_bool_decide; [done|]. by rewrite fuzzy_layer_empty.
Qed.

Lemma deduplicated_covers l b :
  b ∈ l → GeoBucket.id b ∈ GeoBucket.id <$> _deduplicate_buckets l.
Proof.
  intros Hin. apply deduplicate_from_covers; [done|]. apply not_elem_of_empty.
Qed.

Lemma short_rows_elem {db : Database} st b :
  b ∈ short_rows st
  ↔ b ∈ geo_buckets st ∧ length (GeoBucket.normalized_name b) ≤ 2.
Proof.
  unfold short_rows, all_rows.
  rewrite list_elem_of_In, filter_In, <- list_elem_of_In.
  rewrite bucket_order_perm, list_elem_of_filter, bool_decide_eq_true.
  tauto.
Qed.

Lemma empty_query_cascade_short {grid : H3} {db : Database}
    st lat lng min_results :
  layer_3_runs st lat lng min_results →
  ∃ sent result,
    empty_query_cascade st lat lng min_results = (sent, Ok result)
    ∧ ∀ bucket, bucket ∈ short_rows st →
        GeoBucket.id bucket ∈ GeoBucket.id <$> result.
Proof.
  intros [H1 H2]. unfold empty_query_cascade. cbv zeta.
  case_bool_decide; [lia|].
  destruct (usable_coords lat lng) as [[lat' lng']|].
  - case_bool_decide; [lia|]. eexists _, _. split; [done|].
    intros bucket Hb. apply deduplicated_covers, elem_of_app. by right.
  - eexists _, _. split; [done|].
    intros bucket Hb. apply deduplicated_covers, elem_of_app. by right.
Qed.


End MatcherFacts.

(* ================================================================== *)
(** * Facts about [calculate_similarity] *)
(* ================================================================== *)

Module SimilarityFacts.
Import PyStr LocationNormalizer Notions.

Lemma replace_blank s : replace (py " ") [] s = non_blank s.
Proof.
  unfold replace, non_blank. induction s as [|c s IH]; [done|].
  cbn [replace_go]. case_decide as Hp.
  - apply prefix_cons_inv_1 in Hp. subst.
    rewrite filter_cons_False by (by intros []). exact IH.
  - rewrite filter_cons_True.
    + by rewrite IH.
    + intros ->. apply Hp. apply prefix_cons, prefix_nil.
Qed.

Lemma windows3_nil_iff text : windows3 text = [] ↔ length text < 3.
Proof.
  destruct text as [|a [|b [|c text]]]; simpl; split; try done; lia.
Qed.

Lemma length_non_blank_le text : length (non_blank text) ≤ length text.
Proof. apply length_filter. Qed.

Lemma generate_trigrams_nil_iff text :
  generate_trigrams text = [] ↔ length (non_blank (lower text)) < 3.
Proof.
  unfold generate_trigrams. rewrite replace_blank.
  pose proof (length_non_blank_le (lower text)) as Hle.
  unfold lower in Hle at 2. rewrite length_fmap in Hle.
  case_bool_decide as Hlen; [split; [lia|done]|].
  apply windows3_nil_iff.
Qed.

Lemma trigram_set_empty_iff text :
  trigram_set text = ∅ ↔ length (non_blank (lower text)) < 3.
Proof.
  rewrite <- generate_trigrams_nil_iff. unfold trigram_set. split.
  - intros Hset. destruct (generate_trigrams text) as [|t ts]; [done|].
    exfalso. assert (t ∈ (∅ : gset str)) as Hin; [|by set_unfold].
    rewrite <- Hset. set_unfold. by left.
  - by intros ->.
Qed.

Lemma quotient_bounds (i u : nat) :
  i ≤ u → 0 < u →
  (0 <= inject_Z (Z.of_nat i) / inject_Z (Z.of_nat u))%Q
  ∧ (inject_Z (Z.of_nat i) / inject_Z (Z.of_nat u) <= 1)%Q.
Proof.
  intros Hle Hpos.
  assert (0 < inject_Z (Z.of_nat u))%Q as Hu.
  { change 0%Q with (inject_Z 0). rewrite <- Zlt_Qlt. lia. }
  split.
  - apply Qle_shift_div_l; [done|]. rewrite Qmult_0_l.
    change 0%Q with (inject_Z 0). rewrite <- Zle_Qle. lia.
  - apply Qle_shift_div_r; [done|]. rewrite Qmult_1_l.
    rewrite <- Zle_Qle. lia.
Qed.

Lemma calculate_similarity_bounds str1 str2 :
  (0 <= calculate_similarity str1 str2)%Q
  ∧ (calculate_similarity str1 str2 <= 1)%Q.
Proof.
  unfold calculate_similarity.
  destruct str1 as [|c1 s1]; [done|]. destruct str2 as [|c2 s2]; [done|].
  cbv zeta.
  destruct (_ || _); [by case_bool_decide|].
  case_bool_decide as Hpos; [|done].
  apply quotient_bounds; [|done].
  apply subseteq_size. intros t Ht.
  apply elem_of_intersection in Ht as [Ht _]. apply elem_of_union. by left.
Qed.

End SimilarityFacts.

(* ================================================================== *)
(** * Facts about the words of [normalize] *)
(* ================================================================== *)

Module WordFacts.
Import PyStr LocationNormalizer Notions Invariants Words NormalizeFacts.

Lemma normalize_split name :
  split (normalize name) = expand_words (chosen_words name).
Proof.
  rewrite normalize_words. apply split_join.
  apply alnum_words_words, expand_words_alnum, chosen_words_alnum.
Qed.

Lemma is_space_lower_char c : is_space (lower_char c) = is_space c.
Proof. destruct c as [[] [] [] [] [] [] [] []]; reflexivity. Qed.

Lemma lstrip_lower s : lstrip (lower s) = lower (lstrip s).
Proof.
  induction s as [|c s IH]; [done|]. simpl.
  rewrite is_space_lower_char. by destruct (is_space c).
Qed.

Lemma strip_lower s : strip (lower s) = lower (strip s).
Proof.
  unfold strip, rstrip. rewrite lstrip_lower. unfold lower at 1.
  rewrite <- fmap_reverse. fold (lower (reverse (lstrip s))).
  rewrite lstrip_lower. unfold lower. by rewrite fmap_reverse.
Qed.

Lemma cleaned_nil_normalize name : cleaned name = [] → normalize name = [].
Proof.
  intros Hc. destruct name as [|c name]; [done|].
  unfold normalize. by rewrite Hc.
Qed.

Lemma normalize_by_cleaned a b :
  cleaned a = cleaned b → normalize a = normalize b.
Proof.
  intros Hc. destruct a as [|x a], b as [|y b]; [done| | |].
  - symmetry. apply cleaned_nil_normalize. by rewrite <- Hc.
  - apply cleaned_nil_normalize. by rewrite Hc.
  - unfold normalize. by rewrite Hc.
Qed.

(** ** The first and the last word *)

Lemma rep_rest_last old new ws : last (rep_rest old new ws) = last ws.
Proof.
  induction ws as [|u|u v more IH1 IH2] using words_ind2.
  - done.
  - done.
  - rewrite rep_rest_cons2. case_decide.
    + rewrite (last_cons new), (last_cons v), IH1.
      rewrite (last_cons u), (last_cons v). by destruct (last more).
    + rewrite (last_cons u), IH2. by rewrite (last_cons u (v :: more)).
Qed.

Lemma expand_rest_last rs ws : last (expand_rest rs ws) = last ws.
Proof.
  revert ws. induction rs as [|r rs IH]; intros ws; [done|].
  simpl. by rewrite IH, rep_rest_last.
Qed.

Lemma expand_words_last ws : last (expand_words ws) = last ws.
Proof.
  destruct ws as [|w ws]; [done|]. unfold expand_words.
  rewrite expand_with_cons, !last_cons. by rewrite expand_rest_last.
Qed.

Lemma expand_words_head ws : head (expand_words ws) = head ws.
Proof.
  destruct ws as [|w ws]; [done|]. unfold expand_words.
  by rewrite expand_with_cons.
Qed.

(** ** One turn of the loop as a map *)

Lemma map_but_last_cons2 f u v more :
  map_but_last f (u :: v :: more) = f u :: map_but_last f (v :: more).
Proof. reflexivity. Qed.

Lemma map_but_last_cons_fixed f u ws :
  f u = u → map_but_last f (u :: ws) = u :: map_but_last f ws.
Proof. intros Hu. destruct ws; [done|]. by rewrite map_but_last_cons2, Hu. Qed.

Lemma map_but_last_compose f g ws :
  map_but_last f (map_but_last g ws) = map_but_last (f ∘ g) ws.
Proof.
  induction ws as [|u|u v more _ IH] using words_ind2; [done..|].
  rewrite !map_but_last_cons2, <- IH.
  destruct more as [|x more]; [done|].
  by rewrite (map_but_last_cons2 g v x more), map_but_last_cons2.
Qed.

Lemma map_but_last_ext f g ws :
  (∀ w, f w = g w) → map_but_last f ws = map_but_last g ws.
Proof.
  intros Hfg. induction ws as [|u|u v more _ IH] using words_ind2; [done..|].
  by rewrite !map_but_last_cons2, Hfg, IH.
Qed.

Lemma map_but_last_id f ws : (∀ w, f w = w) → map_but_last f ws = ws.
Proof.
  intros Hf. induction ws as [|u|u v more _ IH] using words_ind2; [done..|].
  by rewrite map_but_last_cons2, Hf, IH.
Qed.

Lemma rep_rest_map old new ws :
  ¬ repeats old ws →
  rep_rest old new ws
  = map_but_last (fun w => if decide (w = old) then new else w) ws.
Proof.
  induction ws as [|u|u v more IH1 IH2] using words_ind2; [done..|].
  intros Hno. apply not_repeats_cons2 in Hno as [Hpair Hno].
  rewrite rep_rest_cons2, map_but_last_cons2. case_decide as Hu.
  - f_equal. assert (v ≠ old) as Hv by (intros ->; by apply Hpair).
    rewrite map_but_last_cons_fixed by (by rewrite decide_False).
    f_equal. apply IH1. by eapply not_repeats_tail.
  - f_equal. by apply IH2.
Qed.

Lemma expand_rest_map rs : ∀ ws,
  (∀ r, r ∈ rs → ¬ repeats r.1 ws) →
  (∀ a r, a ∈ rs.*1 → r ∈ rs → a ≠ r.2) →
  expand_rest rs ws = map_but_last (turns rs) ws.
Proof.
  induction rs as [|r rs IH]; intros ws Hrep Hsep.
  { simpl. symmetry. by apply map_but_last_id. }
  simpl. rewrite IH.
  - rewrite rep_rest_map by (apply Hrep; by left).
    rewrite map_but_last_compose. by apply map_but_last_ext.
  - intros r' Hr'. apply rep_rest_repeats; [|apply Hrep; by right].
    apply Hsep; [|by left]. simpl. right. apply list_elem_of_fmap. eauto.
  - intros a r' Ha Hr'. apply Hsep; [by right|by right].
Qed.

Lemma turns_expansion w : turns REPLACEMENTS w = expansion w.
Proof.
  unfold turns, expansion, REPLACEMENTS. simpl.
  repeat case_decide; subst; try done.
  by rewrite !lookup_insert_ne by done.
Qed.

Lemma expand_words_expanded ws :
  no_repeated_abbreviation ws → expand_words ws = expanded ws.
Proof.
  intros Hno. destruct ws as [|w ws]; [done|].
  unfold expand_words, expanded. rewrite expand_with_cons. f_equal.
  rewrite expand_rest_map.
  - apply map_but_last_ext, turns_expansion.
  - intros r Hr. unfold no_repeated_abbreviation in Hno.
    rewrite Forall_forall in Hno. eapply not_repeats_tail. by apply Hno.
  - intros a r Ha Hr. by apply abbreviation_not_expansion.
Qed.

Lemma chosen_words_kept name :
  kept_words name ≠ [] → chosen_words name = kept_words name.
Proof. unfold chosen_words. by destruct (kept_words name). Qed.

Lemma chosen_words_fallback name :
  kept_words name = [] → length (chosen_words name) ≤ 2.
Proof.
  unfold chosen_words. intros ->. rewrite length_take. lia.
Qed.

Lemma expanded_short ws : length ws ≤ 2 → expanded ws = ws.
Proof. destruct ws as [|w [|v [|u ws]]]; simpl; try done. lia. Qed.

End WordFacts.

(* ================================================================== *)
(** * Facts about trigrams and the phonetic key *)
(* ================================================================== *)

Module KeyFacts.
Import PyStr LocationNormalizer Notions Words.

(** ** Trigrams *)

Lemma windows3_cons3 a b c s :
  windows3 (a :: b :: c :: s) = [a; b; c] :: windows3 (b :: c :: s).
Proof. reflexivity. Qed.

Lemma windows3_length s : length (windows3 s) = length s - 2.
Proof.
  induction s as [|a s IH]; [done|].
  destruct s as [|b [|c s]]; [done..|].
  rewrite windows3_cons3. cbn [length] in *. lia.
Qed.

Lemma windows3_lookup s : ∀ i,
  i + 3 ≤ length s → windows3 s !! i = Some (take 3 (drop i s)).
Proof.
  induction s as [|a s IH]; intros i Hi; [simpl in Hi; lia|].
  destruct s as [|b [|c s]]; [simpl in Hi; lia..|].
  rewrite windows3_cons3. destruct i as [|i]; [done|].
  cbn [lookup list_lookup drop]. apply IH. cbn [length] in *. lia.
Qed.

Lemma windows3_Forall_length s : Forall (fun t => length t = 3) (windows3 s).
Proof.
  induction s as [|a s IH]; [constructor|].
  destruct s as [|b [|c s]]; [constructor..|].
  rewrite windows3_cons3. by constructor.
Qed.

Lemma generate_trigrams_length3 text :
  Forall (fun t => length t = 3) (generate_trigrams text).
Proof.
  unfold generate_trigrams. case_bool_decide; [constructor|].
  apply windows3_Forall_length.
Qed.

(** ** The phonetic key *)

Lemma replace_go_Forall (P : ascii → Prop) old new k s :
  Forall P new → Forall P s → Forall P (replace_go old new k s).
Proof.
  intros Hnew Hs. revert k.
  induction Hs as [|c s Hc Hs IH]; intros k; [constructor|].
  cbn [replace_go]. destruct k as [|k]; [|apply IH].
  case_decide.
  - apply Forall_app. split; [done|apply IH].
  - constructor; [done|apply IH].
Qed.

Lemma replace_Forall_tail (P : ascii → Prop) old new s :
  Forall P new → Forall P (tail s) → Forall P (tail (replace old new s)).
Proof.
  intros Hnew Hs. destruct s as [|c s]; [constructor|].
  unfold replace. cbn [replace_go]. simpl in Hs. case_decide.
  - apply Forall_tail, Forall_app. split; [done|].
    by apply replace_go_Forall.
  - simpl. by apply replace_go_Forall.
Qed.

Lemma squeeze_cons2 c d s :
  squeeze (c :: d :: s)
  = if bool_decide (c = d) && negb (bool_decide (c = LF))
    then squeeze (d :: s) else c :: squeeze (d :: s).
Proof. reflexivity. Qed.

Lemma squeeze_Forall (P : ascii → Prop) s : Forall P s → Forall P (squeeze s).
Proof.
  induction 1 as [|c s Hc Hs IH]; [constructor|].
  destruct s as [|d s]; [by constructor|]. rewrite squeeze_cons2.
  destruct (_ && _); [done|by constructor].
Qed.

Lemma squeeze_Forall_tail (P : ascii → Prop) s :
  Forall P (tail s) → Forall P (tail (squeeze s)).
Proof.
  destruct s as [|c s]; [done|]. simpl tail at 1. intros Hs.
  destruct s as [|d s]; [constructor|]. rewrite squeeze_cons2.
  pose proof (squeeze_Forall P _ Hs) as Hsq.
  destruct (_ && _); [by apply Forall_tail|done].
Qed.

Lemma squeeze_nil_iff s : squeeze s = [] ↔ s = [].
Proof.
  split; [|by intros ->]. induction s as [|c s IH]; [done|].
  destruct s as [|d s]; [done|]. rewrite squeeze_cons2.
  destruct (_ && _); [|done]. intros Hs. by apply IH in Hs.
Qed.

Lemma replace_go_nil_iff old new s :
  new ≠ [] → replace_go old new 0 s = [] ↔ s = [].
Proof.
  intros Hnew. split; [|by intros ->]. destruct s as [|c s]; [done|].
  cbn [replace_go]. case_decide; [|done].
  destruct new; [done|]. done.
Qed.

Lemma drop_vowels_Forall s : Forall (fun c => ¬ is_vowel c) (drop_vowels s).
Proof.
  apply Forall_forall. intros c Hc. unfold drop_vowels in Hc.
  apply list_elem_of_In, filter_In in Hc as [_ Hc].
  intros Hv. apply Is_true_true in Hv. by rewrite Hv in Hc.
Qed.

Lemma Forall_tail_take {A : Type} (P : A → Prop) n (l : list A) :
  Forall P (tail l) → Forall P (tail (take (S n) l)).
Proof. destruct l as [|x l]; [done|]. simpl. apply Forall_take. Qed.

Lemma drop_vowels_app s1 s2 :
  drop_vowels (s1 ++ s2) = drop_vowels s1 ++ drop_vowels s2.
Proof. apply List.filter_app. Qed.

Lemma metaphone_ignores_inner_vowels (c v : ascii) (s1 s2 : str) :
  v ∈ py "aeiouAEIOU" →
  metaphone_simple (c :: s1 ++ v :: s2) = metaphone_simple (c :: s1 ++ s2).
Proof.
  intros Hv. unfold metaphone_simple.
  change (upper (c :: s1 ++ v :: s2))
    with (upper_char c :: upper (s1 ++ v :: s2)).
  change (upper (c :: s1 ++ s2)) with (upper_char c :: upper (s1 ++ s2)).
  cbv zeta. unfold upper. rewrite !fmap_app, fmap_cons, !drop_vowels_app.
  assert (is_vowel (upper_char v) = true) as Hup.
  { apply list_elem_of_In in Hv. simpl in Hv.
    intuition subst; reflexivity. }
  cbn [drop_vowels List.filter]. by rewrite Hup.
Qed.

Lemma squeeze_doubled l x r :
  x ≠ LF → squeeze (l ++ x :: x :: r) = squeeze (l ++ x :: r).
Proof.
  intros Hx. induction l as [|a l IH]; simpl app.
  - rewrite squeeze_cons2. rewrite bool_decide_eq_true_2 by done.
    by rewrite (bool_decide_eq_false_2 (x = LF)) by done.
  - destruct l as [|b l]; simpl app in *.
    + by rewrite (squeeze_cons2 a x (x :: r)), (squeeze_cons2 a x r), IH.
    + by rewrite (squeeze_cons2 a b), (squeeze_cons2 a b), IH.
Qed.

Lemma clean_upper_not_LF c : clean_char c → upper_char c ≠ LF.
Proof.
  intros [Hc| ->]; [|done]. revert Hc.
  destruct c as [[] [] [] [] [] [] [] []]; vm_compute; try done.
Qed.

Lemma clean_chars_decide s :
  forallb (fun c => is_lower_alnum c || bool_decide (c = " "%char)) s = true →
  Forall clean_char s.
Proof.
  induction s as [|c s IH]; [constructor|]. simpl.
  intros [Hc Hs]%andb_true_iff. constructor; [|by apply IH].
  apply orb_true_iff in Hc as [Hc|Hc].
  - left. by apply Is_true_true.
  - right. by apply bool_decide_eq_true in Hc.
Qed.

End KeyFacts.

(* ================================================================== *)
(** * Symmetry of the similarity and of the name match *)
(* ================================================================== *)

Module SymmetryFacts.
Import PyStr LocationNormalizer LocationMatcher Notions MatcherFacts.

Lemma calculate_similarity_comm str1 str2 :
  calculate_similarity str1 str2 = calculate_similarity str2 str1.
Proof.
  unfold calculate_similarity.
  destruct str1 as [|c1 s1], str2 as [|c2 s2]; try done. cbv zeta.
  rewrite orb_comm.
  rewrite (bool_decide_ext (lower (c1 :: s1) = lower (c2 :: s2))
             (lower (c2 :: s2) = lower (c1 :: s1))) by done.
  set (T1 := list_to_set (generate_trigrams (c1 :: s1)) : gset str).
  set (T2 := list_to_set (generate_trigrams (c2 :: s2)) : gset str).
  assert (T1 ∩ T2 = T2 ∩ T1) as ->
    by (apply leibniz_equiv; intros t; rewrite !elem_of_intersection; tauto).
  by assert (T1 ∪ T2 = T2 ∪ T1) as ->
    by (apply leibniz_equiv; intros t; rewrite !elem_of_union; tauto).
Qed.

Lemma lower_length s : length (lower s) = length s.
Proof. unfold lower. apply length_fmap. Qed.

Lemma generate_trigrams_lower a b :
  lower a = lower b → generate_trigrams a = generate_trigrams b.
Proof.
  intros Heq. unfold generate_trigrams. rewrite Heq.
  by rewrite <- (lower_length a), <- (lower_length b), Heq.
Qed.

Lemma calculate_similarity_same a b :
  a ≠ [] → lower a = lower b → (calculate_similarity a b == 1)%Q.
Proof.
  intros Hne Heq.
  assert (b ≠ []) as Hb.
  { intros ->. destruct a; [done|discriminate]. }
  unfold calculate_similarity.
  destruct a as [|c1 s1]; [done|]. destruct b as [|c2 s2]; [done|].
  cbv zeta. rewrite (generate_trigrams_lower _ _ Heq).
  set (T := list_to_set (generate_trigrams (c2 :: s2)) : gset str).
  rewrite orb_diag. case_bool_decide as Hempty.
  - by rewrite bool_decide_eq_true_2.
  - assert (T ∩ T = T) as ->
      by (apply leibniz_equiv; intros t; rewrite elem_of_intersection; tauto).
    assert (T ∪ T = T) as ->
      by (apply leibniz_equiv; intros t; rewrite elem_of_union; tauto).
    case_bool_decide as Hpos.
    + apply Qmult_inv_r. change 0%Q with (inject_Z 0).
      rewrite inject_Z_injective. lia.
    + exfalso. apply Hpos. apply Nat.neq_0_lt_0. intros Hsize.
      by apply size_empty_inv, leibniz_equiv in Hsize.
Qed.

Lemma contains_self s : contains s s = true.
Proof.
  destruct s; cbn [contains]; by rewrite bool_decide_eq_true_2.
Qed.

Lemma is_name_match_comm a b : _is_name_match a b = _is_name_match b a.
Proof.
  unfold _is_name_match.
  rewrite (bool_decide_ext (a = b) (b = a)) by done.
  rewrite (orb_comm (contains a b)).
  by rewrite (calculate_similarity_comm a b).
Qed.

Lemma is_name_match_nil_r n : _is_name_match n [] = true.
Proof.
  unfold _is_name_match. case_bool_decide; [done|].
  by rewrite (contains_nil n), orb_true_r.
Qed.

Lemma check_variant_names_Exists n variant_names :
  _check_variant_names n variant_names = true
  ↔ ∃ v, v ∈ variant_names ∧ _is_name_match n (normalize v) = true.
Proof.
  induction variant_names as [|v vs IH]; simpl.
  - split; [done|]. intros (v & Hv & _). by apply elem_of_nil in Hv.
  - destruct (_is_name_match n (normalize v)) eqn:Hm.
    + split; [|done]. intros _. exists v. split; [by left|done].
    + rewrite IH. split.
      * intros (w & Hw & Hmw). exists w. split; [by right|done].
      * intros (w & Hw & Hmw). apply elem_of_cons in Hw as [->|Hw].
        -- by rewrite Hm in Hmw.
        -- by exists w.
Qed.

End SymmetryFacts.

(* ================================================================== *)
(** * Facts about [generate_variants] *)
(* ================================================================== *)

Module VariantFacts.
Import PyStr LocationNormalizer.

Lemma elem_of_variants_fold (normalized : str) areas : ∀ (V : gset str) v,
  v ∈ foldl (fun (variants : gset str) area =>
               if contains area normalized then variants
               else {[ normalized ++ py " " ++ area ]} ∪ variants)
            V areas
  ↔ v ∈ V
    ∨ ∃ area, area ∈ areas ∧ contains area normalized = false
              ∧ v = normalized ++ py " " ++ area.
Proof.
  induction areas as [|a areas IH]; intros V v; cbn [foldl].
  - split; [by left|]. intros [?|(area & Ha & _)]; [done|].
    by apply elem_of_nil in Ha.
  - rewrite IH. destruct (contains a normalized) eqn:Ha.
    + split.
      * intros [?|(area & Hin & Hc & Hv)]; [by left|].
        right. exists area. split; [by right|done].
      * intros [?|(area & Hin & Hc & Hv)]; [by left|].
        apply elem_of_cons in Hin as [->|Hin]; [congruence|].
        right. by exists area.
    + rewrite elem_of_union, elem_of_singleton. split.
      * intros [[->|?]|(area & Hin & Hc & Hv)].
        -- right. exists a. split; [by left|done].
        -- by left.
        -- right. exists area. split; [by right|done].
      * intros [?|(area & Hin & Hc & Hv)]; [left; by right|].
        apply elem_of_cons in Hin as [->|Hin]; [left; by left|].
        right. by exists area.
Qed.

Lemma elem_of_variant_set name v :
  v ∈ variant_set name
  ↔ v = normalize name ∨ v = strip (lower name)
    ∨ ∃ area, area ∈ common_areas
        ∧ contains area (normalize name) = false
        ∧ v = normalize name ++ py " " ++ area.
Proof.
  unfold variant_set. cbv zeta. rewrite elem_of_variants_fold.
  rewrite elem_of_union, !elem_of_singleton. tauto.
Qed.

Lemma size_insert_le (x : str) (V : gset str) :
  size ({[ x ]} ∪ V) ≤ S (size V).
Proof.
  rewrite size_union_alt, size_singleton.
  assert (size (V ∖ {[ x ]}) ≤ size V) as Hle; [|lia].
  apply subseteq_size. intros v Hv.
  by apply elem_of_difference in Hv as [? _].
Qed.

Lemma variants_fold_size (normalized : str) areas : ∀ V : gset str,
  size (foldl (fun (variants : gset str) area =>
                 if contains area normalized then variants
                 else {[ normalized ++ py " " ++ area ]} ∪ variants)
              V areas)
  ≤ size V + length areas.
Proof.
  induction areas as [|a areas IH]; intros V; cbn [foldl length]; [lia|].
  etrans; [apply IH|]. destruct (contains a normalized); [lia|].
  pose proof (size_insert_le (normalized ++ py " " ++ a) V). lia.
Qed.

Lemma variant_set_size name : 1 ≤ size (variant_set name) ≤ 5.
Proof.
  split.
  - apply Nat.neq_0_lt_0. intros Hsize. apply size_empty_inv in Hsize.
    assert (normalize name ∈ variant_set name) as Hin
      by (apply elem_of_variant_set; by left).
    rewrite Hsize in Hin. by apply not_elem_of_empty in Hin.
  - unfold variant_set. cbv zeta.
    etrans; [apply variants_fold_size|].
    pose proof (size_insert_le (strip (lower name)) {[ normalize name ]})
      as Hle.
    rewrite size_singleton in Hle.
    change (length common_areas) with 3. lia.
Qed.

End VariantFacts.

(* ================================================================== *)
(** * Facts about the index and the rows of a store *)
(* ================================================================== *)

Module StoreFacts.
Import PyStr LocationNormalizer BucketService Notions Invariants NormalizeFacts BucketFacts.

Lemma index_ok_empty : index_ok empty_store.
Proof. split; constructor. Qed.

Lemma add_to_location_index_rows bucket original st :
  let st' := _add_to_location_index bucket original (normalize original) st in
  (original, GeoBucket.id bucket) ∈ index_key <$> location_index st'
  ∧ location_index st `prefix_of` location_index st'
  ∧ (index_ok st → index_ok st').
Proof.
  unfold _add_to_location_index. cbv zeta. case_bool_decide as Hex.
  - split; [|done]. apply Exists_exists in Hex as (i & Hi & Ho & Hb).
    apply list_elem_of_fmap. exists i. split; [|done].
    unfold index_key. by rewrite Ho, Hb.
  - cbn [location_index]. split; [|split].
    + rewrite fmap_app. apply elem_of_app. right. by left.
    + by apply prefix_app_r.
    + intros [Hrows Hkeys]. split; cbn [location_index].
      * apply Forall_app. split; [done|]. by repeat constructor.
      * rewrite fmap_app. apply NoDup_app. split; [done|].
        split; [|apply NoDup_singleton].
        intros k Hk Hk'. apply list_elem_of_singleton in Hk'. subst k.
        apply Hex. apply list_elem_of_fmap in Hk as (i & Hkey & Hi).
        apply Exists_exists. exists i. split; [done|].
        unfold index_key in Hkey. by inversion Hkey.
Qed.

Lemma find_or_create_bucket_index {grid : H3} {db : Database}
    lat lng name st :
  ∃ st' bucket,
    find_or_create_bucket lat lng name st = (st', Ok bucket)
    ∧ (name, GeoBucket.id bucket) ∈ index_key <$> location_index st'
    ∧ location_index st `prefix_of` location_index st'
    ∧ (index_ok st → index_ok st').
Proof.
  unfold find_or_create_bucket, find_or_create_bucket_among.
  destruct (first_by_h3_index st (calculate_h3_index lat lng))
    as [bucket|] eqn:Hfirst.
  - unfold found_bucket.
    destruct (add_variant_name bucket name st) as [st1 bucket1] eqn:Hadd.
    assert (location_index st1 = location_index st) as Hsame.
    { unfold add_variant_name in Hadd.
      destruct (_ && _); by inversion Hadd. }
    eexists _, _. split; [done|].
    destruct (add_to_location_index_rows bucket1 name st1)
      as (Hin & Hpre & Hok).
    split; [done|]. rewrite <- Hsame. split; [done|].
    intros Hi. apply Hok. unfold index_ok. by rewrite Hsame.
  - apply first_by_h3_index_None in Hfirst.
    unfold create_bucket.
    destruct (h3_to_coordinates (calculate_h3_index lat lng))
      as [clat clng].
    rewrite objects_create_fresh by done.
    eexists _, _. split; [done|].
    match goal with
    | |- context [_add_to_location_index ?b ?o _ ?s] =>
        destruct (add_to_location_index_rows b o s) as (Hin & Hpre & Hok)
    end.
    split; [done|]. split; [done|]. intros Hi. by apply Hok.
Qed.

(** ** What a call leaves as it was *)

Lemma with_variant_fields bucket name :
  GeoBucket.id (with_variant bucket name) = GeoBucket.id bucket
  ∧ GeoBucket.h3_index (with_variant bucket name) = GeoBucket.h3_index bucket
  ∧ GeoBucket.centroid (with_variant bucket name) = GeoBucket.centroid bucket
  ∧ GeoBucket.normalized_name (with_variant bucket name)
    = GeoBucket.normalized_name bucket
  ∧ GeoBucket.property_count (with_variant bucket name)
    = GeoBucket.property_count bucket
  ∧ GeoBucket.variant_names (with_variant bucket name)
    = GeoBucket.variant_names bucket
      ++ (if decide (name = [] ∨ name ∈ GeoBucket.variant_names bucket)
          then [] else [name]).
Proof.
  unfold with_variant, set_variant_names.
  destruct (decide (name = [] ∨ name ∈ GeoBucket.variant_names bucket))
    as [Hold|Hnew].
  - assert (bool_decide (name ≠ [])
            && bool_decide (name ∉ GeoBucket.variant_names bucket) = false)
      as ->.
    { destruct Hold as [->|Hin]; [done|].
      rewrite (bool_decide_eq_false_2 (name ∉ _)) by auto.
      apply andb_false_r. }
    by rewrite app_nil_r.
  - rewrite !bool_decide_eq_true_2 by tauto. cbn [andb].
    by rewrite decide_True.
Qed.

Lemma rows_with_variant_ids bucket name rows :
  GeoBucket.id <$> rows_with_variant bucket name rows = GeoBucket.id <$> rows.
Proof.
  unfold rows_with_variant. destruct (_ && _); [|done].
  apply fmap_set_variant_names, set_variant_names_id.
Qed.

Lemma rows_with_variant_other bucket name rows row :
  row ∈ rows → GeoBucket.id row ≠ GeoBucket.id bucket →
  row ∈ rows_with_variant bucket name rows.
Proof.
  intros Hin Hne. unfold rows_with_variant. destruct (_ && _); [|done].
  apply list_elem_of_fmap. exists row. split; [|done].
  by rewrite set_variant_names_other.
Qed.

Lemma rows_with_variant_self bucket name rows :
  bucket ∈ rows → with_variant bucket name ∈ rows_with_variant bucket name rows.
Proof.
  intros Hin. unfold rows_with_variant, with_variant.
  destruct (_ && _); [|done]. by apply list_elem_of_fmap_2.
Qed.

Lemma same_row {A B : Type} `{EqDecision B} (f : A → B) (l : list A) x y :
  NoDup (f <$> l) → x ∈ l → y ∈ l → f y = f x → y = x.
Proof.
  intros Hnd Hx Hy Heq.
  assert (y ∈ filter (fun z => f z = f x) l) as Hin
    by (by apply list_elem_of_filter).
  rewrite (filter_unique f l x Hnd Hx) in Hin.
  by apply list_elem_of_singleton in Hin.
Qed.

Lemma rows_with_variant_Forall (P : GeoBucket.t → Prop) bucket name rows :
  (∀ pk names row, P row → P (set_variant_names pk names row)) →
  Forall P rows → Forall P (rows_with_variant bucket name rows).
Proof.
  intros HP Hrows. unfold rows_with_variant. destruct (_ && _); [|done].
  apply Forall_fmap. eapply Forall_impl; [exact Hrows|].
  intros row Hrow. by apply HP.
Qed.

(** ** Centroids *)

Lemma head_order_filter {db : Database} (P : GeoBucket.t → Prop)
    `{!∀ b, Decision (P b)} rows :
  match head (bucket_order (filter P rows)) with
  | Some b => b ∈ rows ∧ P b
  | None => Forall (fun b => ¬ P b) rows
  end.
Proof.
  destruct (head _) as [b|] eqn:Hhead.
  - apply head_Some_elem_of in Hhead. rewrite bucket_order_perm in Hhead.
    by apply list_elem_of_filter in Hhead as [? ?].
  - apply head_None in Hhead.
    pose proof (bucket_order_perm (filter P rows)) as Hperm.
    rewrite Hhead in Hperm. symmetry in Hperm.
    apply Permutation_nil_r in Hperm. by apply (filter_none P).
Qed.

Lemma centroids_ok_empty {grid : H3} : centroids_ok empty_store.
Proof. constructor. Qed.

Lemma find_or_create_bucket_centroids {grid : H3} {db : Database}
    lat lng name st :
  centroids_ok st → centroids_ok (find_or_create_bucket lat lng name st).1.
Proof.
  intros Hok. unfold find_or_create_bucket, find_or_create_bucket_among.
  destruct (first_by_h3_index st (calculate_h3_index lat lng))
    as [found|] eqn:Hfirst.
  - destruct (found_bucket_result found name st)
      as (st' & -> & Hrows & _).
    unfold centroids_ok. cbn [fst]. rewrite Hrows.
    apply rows_with_variant_Forall; [|done].
    intros pk names row Hrow. unfold set_variant_names. by case_decide.
  - apply first_by_h3_index_None in Hfirst.
    destruct (create_bucket_fresh _ name st Hfirst)
      as (st' & -> & Hrows & _).
    unfold centroids_ok. cbn [fst]. rewrite Hrows. apply Forall_app.
    split; [done|]. by repeat constructor.
Qed.

(** ** The stores that [find_or_create_bucket] builds *)

Lemma well_formed_empty {grid : H3} : well_formed empty_store.
Proof.
  split; [exact store_ok_empty|]. split; [exact references_ok_empty|].
  split; [exact index_ok_empty|exact centroids_ok_empty].
Qed.

Lemma well_formed_step {grid : H3} {db : Database} lat lng name st :
  well_formed st → well_formed (find_or_create_bucket lat lng name st).1.
Proof.
  intros (Hstore & Href & Hindex & Hcentre). split; [|split; [|split]].
  - destruct (find_or_create_bucket_step lat lng name st Hstore)
      as (st' & bucket & -> & Hok & _). done.
  - by apply find_or_create_bucket_references.
  - destruct (find_or_create_bucket_index lat lng name st)
      as (st' & bucket & -> & _ & _ & Hok). by apply Hok.
  - by apply find_or_create_bucket_centroids.
Qed.

End StoreFacts.

(* ================================================================== *)
(** * Facts about the layers of the cascade *)
(* ================================================================== *)

Module CascadeFacts.
Import PyStr LocationNormalizer BucketService LocationMatcher Notions Invariants
  NormalizeFacts BucketFacts MatcherFacts SymmetryFacts StoreFacts.

(** ** [_deduplicate_buckets] on lists without repetition *)

Lemma deduplicate_from_fixed seen l :
  NoDup (GeoBucket.id <$> l) →
  (∀ b, b ∈ l → GeoBucket.id b ∉ seen) →
  deduplicate_from seen l = l.
Proof.
  revert seen. induction l as [|x l IH]; intros seen Hnd Hseen; [done|].
  rewrite fmap_cons in Hnd. apply NoDup_cons in Hnd as [Hx Hnd].
  simpl. rewrite decide_False by (apply Hseen; by left). f_equal.
  apply IH; [done|]. intros b Hb. apply not_seen_union. split.
  - intros Heq. apply Hx. rewrite <- Heq. by apply list_elem_of_fmap_2.
  - apply Hseen. by right.
Qed.

Lemma deduplicate_from_prefix seen l1 l2 :
  deduplicate_from seen l1 `prefix_of` deduplicate_from seen (l1 ++ l2).
Proof.
  revert seen. induction l1 as [|x l1 IH]; intros seen; simpl.
  - apply prefix_nil.
  - case_decide; [apply IH|]. apply prefix_cons, IH.
Qed.

(** ** Coordinates *)

Lemma validate_coords_true lat lng :
  _validate_coords lat lng = true
  ↔ (4 <= lat)%Q ∧ (lat <= 14)%Q ∧ (3 <= lng)%Q ∧ (lng <= 15)%Q.
Proof.
  unfold _validate_coords.
  destruct (Qle_bool 4 lat) eqn:H1, (Qle_bool lat 14) eqn:H2,
    (Qle_bool 3 lng) eqn:H3, (Qle_bool lng 15) eqn:H4; simpl;
    rewrite <- ?Qle_bool_iff, ?H1, ?H2, ?H3, ?H4;
    split; try done; intros (? & ? & ? & ?); done.
Qed.

(** ** Reads that return *)

Lemma bind_Ok_inv {A B : Type} (m : M A) (k : A → M B) sent r :
  (m ≫= k) = (sent, Ok r) →
  ∃ s1 a s2, m = (s1, Ok a) ∧ k a = (s2, Ok r) ∧ sent = s1 ++ s2.
Proof.
  unfold mbind, M_bind. destruct m as [s1 [a|e]]; [|done].
  destruct (k a) as [s2 r'] eqn:Hk. intros [= <- ->].
  by exists s1, a, s2.
Qed.

Lemma related_bucket_id st index sent bucket :
  related_bucket st index = (sent, Ok bucket) →
  bucket ∈ geo_buckets st
  ∧ GeoBucket.id bucket = LocationIndex.bucket_id index.
Proof.
  unfold related_bucket. destruct (head _) as [b|] eqn:Hhead; [|done].
  intros [= _ ->]. apply head_Some_elem_of in Hhead.
  by apply list_elem_of_filter in Hhead as [? ?].
Qed.

Lemma trigram_loop_covers st normalized_name indices sent buckets index :
  trigram_loop st normalized_name indices = (sent, Ok buckets) →
  index ∈ indices →
  Qle_bool ACCEPTABLE_MATCH_THRESHOLD
    (calculate_similarity normalized_name
       (LocationIndex.normalized_name index)) = true →
  LocationIndex.bucket_id index ∈ GeoBucket.id <$> buckets.
Proof.
  revert sent buckets.
  induction indices as [|i rest IH]; intros sent buckets Hloop Hin Hsim.
  { by apply elem_of_nil in Hin. }
  rewrite trigram_loop_cons in Hloop.
  destruct (Qle_bool _ (calculate_similarity _ (LocationIndex.normalized_name i)))
    eqn:Hi.
  - apply bind_Ok_inv in Hloop as (s1 & b & s2 & Hb & Hrest & _).
    apply bind_Ok_inv in Hrest as (s3 & more & s4 & Hmore & Hret & _).
    injection Hret as _ <-. rewrite fmap_cons.
    apply elem_of_cons in Hin as [->|Hin].
    + apply elem_of_cons. left.
      by apply related_bucket_id in Hb as [_ ->].
    + apply elem_of_cons. right. by eapply IH.
  - apply elem_of_cons in Hin as [->|Hin]; [by rewrite Hsim in Hi|].
    by eapply IH.
Qed.

Lemma contains_prefix p s : p `prefix_of` s → contains p s = true.
Proof.
  intros Hp. destruct s; cbn [contains]; by rewrite bool_decide_eq_true_2.
Qed.

Lemma take_prefix_of {A : Type} k (l : list A) : take k l `prefix_of` l.
Proof. exists (drop k l). by rewrite take_drop. Qed.

Lemma similarity_accepts_same n :
  n ≠ [] →
  Qle_bool ACCEPTABLE_MATCH_THRESHOLD (calculate_similarity n n) = true.
Proof.
  intros Hn. apply Qle_bool_iff.
  rewrite (calculate_similarity_same n n) by done. done.
Qed.

Lemma fuzzy_trigram_covers {db : Database} st n index :
  references_ok st → n ≠ [] →
  index ∈ location_index st → LocationIndex.normalized_name index = n →
  ∃ sent buckets,
    fuzzy_trigram st n = (sent, Ok buckets)
    ∧ LocationIndex.bucket_id index ∈ GeoBucket.id <$> buckets.
Proof.
  intros Hok Hn Hin Hname.
  destruct (fuzzy_trigram_ok st n Hok) as (sent & buckets & Hcall).
  exists sent, buckets. split; [done|].
  unfold fuzzy_trigram, indices_where, send in Hcall.
  rewrite bind_send in Hcall.
  destruct (trigram_loop st n _) as [s r] eqn:Hloop.
  simpl in Hcall. injection Hcall as _ ->.
  eapply trigram_loop_covers; [exact Hloop| |].
  - rewrite index_order_perm. apply list_elem_of_filter. split; [|done].
    rewrite Hname. apply Is_true_true, contains_prefix.
    unfold upper. rewrite fmap_take. apply take_prefix_of.
  - rewrite Hname. by apply similarity_accepts_same.
Qed.

Lemma fuzzy_name_match_parts {db : Database} st n :
  references_ok st →
  ∃ sent by_distance by_trigrams by_sound s2 s3,
    fuzzy_trigram st n = (s2, Ok by_trigrams)
    ∧ fuzzy_metaphone st n = (s3, Ok by_sound)
    ∧ _fuzzy_name_match st n
      = (sent, Ok (by_distance ++ by_trigrams ++ by_sound)).
Proof.
  intros Hok.
  destruct (fuzzy_trigram_ok st n Hok) as (s2 & l2 & H2).
  destruct (fuzzy_metaphone_ok st n Hok) as (s3 & l3 & H3).
  eexists _, _, l2, l3, s2, s3. split; [done|]. split; [done|].
  unfold _fuzzy_name_match.
  eapply bind_Ok; [reflexivity|].
  eapply bind_Ok; [exact H2|]. eapply bind_Ok; [exact H3|]. reflexivity.
Qed.

Lemma find_matching_buckets_name_only {grid : H3} {db : Database}
    st term min_results :
  term ≠ [] →
  (Z.of_nat (length (exact_rows st (normalize term))) < min_results)%Z →
  find_matching_buckets st term None None min_results
  = (BucketsByNameIExact (normalize term)
       :: (fuzzy_layer st (normalize term)
             (exact_rows st (normalize term))).1,
     (fuzzy_layer st (normalize term) (exact_rows st (normalize term))).2).
Proof.
  intros Hterm Hfew. destruct term as [|c term]; [done|].
  unfold find_matching_buckets.
  rewrite exact_name_match_eq, bind_send. cbn [app].
  case_bool_decide; [lia|]. done.
Qed.

Lemma indexed_name_is_found {grid : H3} {db : Database}
    st term min_results index :
  references_ok st → normalize term ≠ [] →
  index ∈ location_index st →
  LocationIndex.normalized_name index = normalize term →
  (Z.of_nat (length (exact_rows st (normalize term))) < min_results)%Z →
  ∃ sent result,
    find_matching_buckets st term None None min_results = (sent, Ok result)
    ∧ LocationIndex.bucket_id index ∈ GeoBucket.id <$> result.
Proof.
  intros Hok Hn Hin Hname Hfew.
  assert (term ≠ []) as Hterm by (by intros ->).
  rewrite find_matching_buckets_name_only by done.
  destruct (fuzzy_name_match_parts st (normalize term) Hok)
    as (sent & l1 & l2 & l3 & s2 & s3 & H2 & _ & Hfuzzy).
  destruct (fuzzy_trigram_covers st (normalize term) index Hok Hn Hin Hname)
    as (s2' & l2' & H2' & Hcov).
  rewrite H2 in H2'. injection H2' as _ <-.
  unfold fuzzy_layer. rewrite Hfuzzy.
  unfold mbind, M_bind, mret, M_ret. cbn [fst snd].
  eexists _, _. split; [done|].
  apply list_elem_of_fmap in Hcov as (b & Hid & Hb). rewrite Hid.
  apply deduplicated_covers. rewrite !elem_of_app. right. right. by left.
Qed.

Lemma exact_name_is_found {grid : H3} {db : Database}
    st term lat lng min_results :
  references_ok st → term ≠ [] →
  ∃ sent result,
    find_matching_buckets st term lat lng min_results = (sent, Ok result)
    ∧ ∀ bucket, bucket ∈ geo_buckets st →
        upper (GeoBucket.normalized_name bucket) = upper (normalize term) →
        GeoBucket.id bucket ∈ GeoBucket.id <$> result.
Proof.
  intros Hok Hterm.
  destruct (find_matching_buckets_shape st term lat lng min_results Hok)
    as (sent & accumulated & Hcall & [[? _]|[_ [later ->]]]); [done|].
  exists sent, (_deduplicate_buckets
                  (exact_rows st (normalize term) ++ later)).
  split; [done|]. intros bucket Hin Hname.
  apply deduplicated_covers, elem_of_app. left.
  unfold exact_rows. rewrite bucket_order_perm.
  by apply list_elem_of_filter.
Qed.

(** ** Words shared by two names *)

Lemma shared_word_iff (ws1 ws2 : list str) :
  negb (bool_decide ((list_to_set ws1 : gset str) ∩ list_to_set ws2 = ∅))
  = true
  ↔ ∃ w, w ∈ ws1 ∧ w ∈ ws2.
Proof.
  rewrite negb_true_iff, bool_decide_eq_false. split.
  - intros Hne.
    destruct (set_choose_or_empty
                ((list_to_set ws1 : gset str) ∩ list_to_set ws2))
      as [[w Hw]|Hempty].
    + exists w. apply elem_of_intersection in Hw as [H1 H2].
      by rewrite !elem_of_list_to_set in H1, H2.
    + destruct Hne. by apply leibniz_equiv.
  - intros (w & H1 & H2) Hempty.
    assert (w ∈ (list_to_set ws1 : gset str) ∩ list_to_set ws2) as Hw.
    { apply elem_of_intersection. by rewrite !elem_of_list_to_set. }
    rewrite Hempty in Hw. by apply not_elem_of_empty in Hw.
Qed.

Lemma filter_false {A : Type} (f : A → bool) (l : list A) :
  (∀ x, f x = false) → List.filter f l = [].
Proof.
  intros Hf. induction l as [|x l IH]; [done|]. simpl. by rewrite Hf.
Qed.

(** ** The statements sent *)

Lemma bind_sent {A B : Type} (m : M A) (k : A → M B) (P : query → Prop) :
  Forall P m.1 → (∀ a, Forall P (k a).1) → Forall P (m ≫= k).1.
Proof.
  intros Hm Hk. unfold mbind, M_bind. destruct m as [sent [a|e]]; [|done].
  pose proof (Hk a) as Hka. destruct (k a) as [sent' r].
  apply Forall_app. by split.
Qed.

Lemma related_bucket_sent st index (P : query → Prop) :
  (∀ pk, P (BucketByPk pk)) → Forall P (related_bucket st index).1.
Proof. intros HP. by repeat constructor. Qed.

Lemma trigram_loop_sent st n indices (P : query → Prop) :
  (∀ pk, P (BucketByPk pk)) → Forall P (trigram_loop st n indices).1.
Proof.
  intros HP. induction indices as [|i rest IH]; [constructor|].
  rewrite trigram_loop_cons. destruct (Qle_bool _ _); [|done].
  apply bind_sent; [by apply related_bucket_sent|]. intros b.
  apply bind_sent; [done|]. intros more. constructor.
Qed.

Lemma related_buckets_sent st indices (P : query → Prop) :
  (∀ pk, P (BucketByPk pk)) → Forall P (related_buckets st indices).1.
Proof.
  intros HP. induction indices as [|i rest IH]; [constructor|].
  rewrite related_buckets_cons.
  apply bind_sent; [by apply related_bucket_sent|]. intros b.
  apply bind_sent; [done|]. intros more. constructor.
Qed.

Lemma fuzzy_layer_sent {grid : H3} {db : Database} st n lat lng buckets :
  Forall (cascade_statement n lat lng) (fuzzy_layer st n buckets).1.
Proof.
  unfold fuzzy_layer. apply bind_sent; [|intros; constructor].
  unfold _fuzzy_name_match.
  apply bind_sent; [by repeat constructor|]. intros l1.
  apply bind_sent.
  { unfold fuzzy_trigram. apply bind_sent; [by repeat constructor|].
    intros indices. by apply trigram_loop_sent. }
  intros l2. apply bind_sent; [|intros; constructor].
  unfold fuzzy_metaphone.
  destruct (metaphone_simple n) as [|c code] eqn:Hcode; [constructor|].
  apply bind_sent.
  - constructor; [|constructor]. simpl. by rewrite Hcode.
  - intros indices. by apply related_buckets_sent.
Qed.

End CascadeFacts.

(* ================================================================== *)
(** * Facts about the property counter and the writes of properties *)
(* ================================================================== *)

Module CountFacts.
Import LocationNormalizer BucketService LocationMatcher.
Import Notions Words NormalizeFacts BucketFacts MatcherFacts.
Import Invariants StoreFacts Counts.

Lemma add_to_property_count_id pk d row :
  GeoBucket.id (add_to_property_count pk d row) = GeoBucket.id row.
Proof. unfold add_to_property_count. by case_decide. Qed.

Lemma add_to_property_count_fields pk d row :
  GeoBucket.h3_index (add_to_property_count pk d row) = GeoBucket.h3_index row
  ∧ GeoBucket.centroid (add_to_property_count pk d row)
    = GeoBucket.centroid row
  ∧ GeoBucket.normalized_name (add_to_property_count pk d row)
    = GeoBucket.normalized_name row
  ∧ GeoBucket.variant_names (add_to_property_count pk d row)
    = GeoBucket.variant_names row
  ∧ GeoBucket.property_count (add_to_property_count pk d row)
    = (GeoBucket.property_count row
       + if decide (GeoBucket.id row = pk) then d else 0)%Z.
Proof.
  unfold add_to_property_count. case_decide; simpl; repeat split; lia.
Qed.

Lemma add_to_property_count_ids pk d (rows : list GeoBucket.t) :
  GeoBucket.id <$> (add_to_property_count pk d <$> rows)
  = GeoBucket.id <$> rows.
Proof.
  rewrite <- list_fmap_compose. apply list_fmap_ext.
  intros i row _. apply add_to_property_count_id.
Qed.

Lemma add_to_property_count_zero pk (rows : list GeoBucket.t) :
  add_to_property_count pk 0 <$> rows = rows.
Proof.
  rewrite <- (list_fmap_id rows) at 2. apply list_fmap_ext.
  intros i row _. unfold add_to_property_count. case_decide; [|done].
  destruct row. simpl. f_equal. lia.
Qed.

Lemma add_to_property_count_twice pk d e (rows : list GeoBucket.t) :
  add_to_property_count pk e <$> (add_to_property_count pk d <$> rows)
  = add_to_property_count pk (d + e) <$> rows.
Proof.
  rewrite <- list_fmap_compose. apply list_fmap_ext.
  intros i row _. simpl. destruct row as [k h c n vs m].
  unfold add_to_property_count. simpl.
  destruct (decide (k = pk)) as [Hid|Hid]; simpl.
  - rewrite decide_True by done. f_equal. lia.
  - by rewrite decide_False.
Qed.

Lemma get_bucket_Done pk st bucket :
  get_bucket pk st = Done bucket →
  bucket ∈ geo_buckets st ∧ GeoBucket.id bucket = pk.
Proof.
  unfold get_bucket. destruct (head _) as [b|] eqn:Hhead; [|done].
  intros [= ->]. apply head_Some_elem_of in Hhead.
  by apply list_elem_of_filter in Hhead as [? ?].
Qed.

Lemma get_bucket_stored pk st :
  pk ∈ GeoBucket.id <$> geo_buckets st →
  ∃ bucket, get_bucket pk st = Done bucket.
Proof.
  intros Hin. apply list_elem_of_fmap in Hin as (b & -> & Hb).
  unfold get_bucket. destruct (head _) as [row|] eqn:Hhead; [by exists row|].
  apply head_None in Hhead.
  assert (b ∈ filter (fun b' => GeoBucket.id b' = GeoBucket.id b)
                     (geo_buckets st)) as Hf
    by (by apply list_elem_of_filter).
  rewrite Hhead in Hf. by apply elem_of_nil in Hf.
Qed.

Lemma get_bucket_unique bucket st :
  NoDup (GeoBucket.id <$> geo_buckets st) → bucket ∈ geo_buckets st →
  get_bucket (GeoBucket.id bucket) st = Done bucket.
Proof.
  intros Hnd Hin. unfold get_bucket.
  by rewrite (filter_unique GeoBucket.id).
Qed.

Lemma get_bucket_missing pk st :
  pk ∉ GeoBucket.id <$> geo_buckets st →
  get_bucket pk st = Failed (StoreExn DoesNotExist).
Proof.
  intros Hno. unfold get_bucket.
  destruct (head _) as [row|] eqn:Hhead; [|done].
  apply head_Some_elem_of in Hhead.
  apply list_elem_of_filter in Hhead as [<- Hrow].
  destruct Hno. by apply list_elem_of_fmap_2.
Qed.

Lemma save_property_count_stored self d st :
  GeoBucket.id self ∈ GeoBucket.id <$> geo_buckets st →
  save_property_count self d st = (counted (GeoBucket.id self) d st, Done ()).
Proof.
  intros Hin. unfold save_property_count. by rewrite bool_decide_eq_true_2.
Qed.

Lemma save_property_count_missing self d st :
  GeoBucket.id self ∉ GeoBucket.id <$> geo_buckets st →
  save_property_count self d st = (st, Failed DatabaseError).
Proof.
  intros Hin. unfold save_property_count. by rewrite bool_decide_eq_false_2.
Qed.

Lemma counted_get pk d st bucket :
  NoDup (GeoBucket.id <$> geo_buckets st) → bucket ∈ geo_buckets st →
  GeoBucket.id bucket = pk →
  get_bucket pk (counted pk d st) = Done (add_to_property_count pk d bucket).
Proof.
  intros Hnd Hin <-.
  rewrite <- (add_to_property_count_id (GeoBucket.id bucket) d bucket) at 1.
  apply get_bucket_unique.
  - simpl. by rewrite add_to_property_count_ids.
  - simpl. by apply list_elem_of_fmap_2.
Qed.

Lemma stored_row self st :
  NoDup (GeoBucket.id <$> geo_buckets st) →
  GeoBucket.id self ∈ GeoBucket.id <$> geo_buckets st →
  ∃ row, row ∈ geo_buckets st ∧ GeoBucket.id row = GeoBucket.id self
         ∧ get_bucket (GeoBucket.id self) st = Done row.
Proof.
  intros Hnd Hin. apply list_elem_of_fmap in Hin as (row & Hid & Hrow).
  exists row. split; [done|]. split; [done|].
  rewrite Hid. by apply get_bucket_unique.
Qed.

Lemma increment_property_count_stored self st row :
  NoDup (GeoBucket.id <$> geo_buckets st) → row ∈ geo_buckets st →
  GeoBucket.id row = GeoBucket.id self →
  increment_property_count self st
  = (counted (GeoBucket.id self) 1 st,
     Done (add_to_property_count (GeoBucket.id self) 1 row)).
Proof.
  intros Hnd Hrow Hid. unfold increment_property_count.
  rewrite save_property_count_stored
    by (rewrite <- Hid; by apply list_elem_of_fmap_2).
  unfold refresh_from_db. by rewrite (counted_get _ _ _ row).
Qed.

Lemma decrement_property_count_stored self st row :
  NoDup (GeoBucket.id <$> geo_buckets st) → row ∈ geo_buckets st →
  GeoBucket.id row = GeoBucket.id self →
  (0 < GeoBucket.property_count self)%Z →
  decrement_property_count self st
  = (counted (GeoBucket.id self) (-1) st,
     Done (add_to_property_count (GeoBucket.id self) (-1) row)).
Proof.
  intros Hnd Hrow Hid Hpos. unfold decrement_property_count.
  rewrite bool_decide_eq_true_2 by done.
  rewrite save_property_count_stored
    by (rewrite <- Hid; by apply list_elem_of_fmap_2).
  unfold refresh_from_db. by rewrite (counted_get _ _ _ row).
Qed.

Lemma count_of_app k l1 l2 :
  count_of k (l1 ++ l2) = (count_of k l1 + count_of k l2)%Z.
Proof. unfold count_of. rewrite filter_app, length_app. lia. Qed.

Lemma count_of_singleton k r :
  count_of k [r] = holds (PropertyRow.bucket_id r = Some k).
Proof.
  unfold count_of, holds. rewrite filter_cons, filter_nil.
  by case_decide.
Qed.

Lemma count_of_nonneg k rows : (0 ≤ count_of k rows)%Z.
Proof. unfold count_of. lia. Qed.

Lemma count_of_elem k rows r :
  r ∈ rows → PropertyRow.bucket_id r = Some k → (0 < count_of k rows)%Z.
Proof.
  intros Hin Hk. unfold count_of.
  assert (r ∈ filter (fun r => PropertyRow.bucket_id r = Some k) rows) as Hf
    by (by apply list_elem_of_filter).
  destruct (filter _ rows); [by apply elem_of_nil in Hf|]. simpl. lia.
Qed.

Lemma filter_other_key (rows : list PropertyRow.t) pk :
  pk ∉ PropertyRow.id <$> rows →
  filter (fun r => PropertyRow.id r ≠ pk) rows = rows.
Proof.
  intros Hno. apply filter_all, Forall_forall. intros r Hr Hid.
  apply Hno. rewrite <- Hid. by apply list_elem_of_fmap_2.
Qed.

Lemma count_of_delete k rows r0 :
  NoDup (PropertyRow.id <$> rows) → r0 ∈ rows →
  (count_of k (filter (fun r => PropertyRow.id r ≠ PropertyRow.id r0) rows)
   + holds (PropertyRow.bucket_id r0 = Some k))%Z
  = count_of k rows.
Proof.
  induction rows as [|x rows IH]; intros Hnd Hin.
  { by apply elem_of_nil in Hin. }
  rewrite fmap_cons in Hnd. apply NoDup_cons in Hnd as [Hx Hnd].
  change (x :: rows) with ([x] ++ rows) at 2. rewrite count_of_app.
  rewrite count_of_singleton.
  apply elem_of_cons in Hin as [->|Hin].
  - rewrite filter_cons_False by (by intros H; apply H).
    rewrite filter_other_key by done. lia.
  - rewrite filter_cons_True.
    + change (x :: ?l) with ([x] ++ l). rewrite count_of_app.
      rewrite count_of_singleton. specialize (IH Hnd Hin). lia.
    + intros Hid. apply Hx. rewrite Hid. by apply list_elem_of_fmap_2.
Qed.

Lemma replaced_other r1 rows :
  PropertyRow.id r1 ∉ PropertyRow.id <$> rows → replaced r1 rows = rows.
Proof.
  intros Hno. unfold replaced. rewrite <- (list_fmap_id rows) at 2.
  apply list_fmap_ext. intros i r Hr. simpl. rewrite decide_False; [done|].
  intros Hid. apply Hno. rewrite <- Hid.
  apply list_elem_of_fmap_2. by eapply list_elem_of_lookup_2.
Qed.

Lemma replaced_ids r1 rows :
  PropertyRow.id <$> replaced r1 rows = PropertyRow.id <$> rows.
Proof.
  unfold replaced. rewrite <- list_fmap_compose. apply list_fmap_ext.
  intros i r _. simpl. by case_decide.
Qed.

Lemma count_of_replace k rows r0 r1 :
  NoDup (PropertyRow.id <$> rows) → r0 ∈ rows →
  PropertyRow.id r1 = PropertyRow.id r0 →
  (count_of k (replaced r1 rows) + holds (PropertyRow.bucket_id r0 = Some k))%Z
  = (count_of k rows + holds (PropertyRow.bucket_id r1 = Some k))%Z.
Proof.
  intros Hnd Hin Hid. revert Hnd Hin.
  induction rows as [|x rows IH]; intros Hnd Hin.
  { by apply elem_of_nil in Hin. }
  rewrite fmap_cons in Hnd. apply NoDup_cons in Hnd as [Hx Hnd].
  change (x :: rows) with ([x] ++ rows) at 2. rewrite count_of_app.
  rewrite count_of_singleton.
  unfold replaced. rewrite fmap_cons. fold (replaced r1 rows).
  change (?y :: replaced r1 rows) with ([y] ++ replaced r1 rows).
  rewrite count_of_app, count_of_singleton.
  apply elem_of_cons in Hin as [->|Hin].
  - rewrite decide_True by done.
    rewrite replaced_other by (by rewrite Hid). lia.
  - rewrite decide_False.
    + specialize (IH Hnd Hin). lia.
    + intros Hxid. apply Hx. rewrite Hxid, Hid. by apply list_elem_of_fmap_2.
Qed.

Lemma counts_as_counted c rows k d :
  counts_as c rows →
  counts_as (fun k' => (c k' + if decide (k' = k) then d else 0)%Z)
            (add_to_property_count k d <$> rows).
Proof.
  intros Hc. apply Forall_fmap. eapply Forall_impl; [exact Hc|].
  intros b Hb. simpl. rewrite add_to_property_count_id.
  destruct (add_to_property_count_fields k d b) as (_ & _ & _ & _ & ->).
  by rewrite Hb.
Qed.

Lemma counts_as_ext c c' rows :
  (∀ k, c k = c' k) → counts_as c rows → counts_as c' rows.
Proof.
  intros Heq Hc. eapply Forall_impl; [exact Hc|].
  intros b Hb. simpl. by rewrite <- Heq.
Qed.

Lemma Forall_ids (P : Z → Prop) (rows : list GeoBucket.t) :
  Forall (fun b => P (GeoBucket.id b)) rows ↔ Forall P (GeoBucket.id <$> rows).
Proof. by rewrite Forall_fmap. Qed.

Lemma buckets_ok_counted k d st :
  buckets_ok st → buckets_ok (counted k d st).
Proof.
  intros ((Hcells & Hids & Hrows) & Hpos & Hnext).
  split; [|split; [|done]].
  - split; [|split]; simpl.
    + assert (GeoBucket.h3_index
                <$> (add_to_property_count k d <$> geo_buckets st)
              = GeoBucket.h3_index <$> geo_buckets st) as ->; [|done].
      rewrite <- list_fmap_compose. apply list_fmap_ext.
      intros i b _. simpl.
      by destruct (add_to_property_count_fields k d b) as (-> & _).
    + by rewrite add_to_property_count_ids.
    + apply Forall_fmap. eapply Forall_impl; [exact Hrows|].
      intros b Hb. simpl. rewrite add_to_property_count_id.
      by destruct (add_to_property_count_fields k d b)
        as (_ & _ & _ & -> & _).
  - simpl. apply (Forall_ids (fun k => (0 < k)%Z)).
    rewrite add_to_property_count_ids.
    by apply (Forall_ids (fun k => (0 < k)%Z)).
Qed.

Lemma find_or_create_bucket_buckets {grid : H3} {db : Database}
    lat lng name st c :
  buckets_ok st → counts_as c (geo_buckets st) →
  (∀ k, (next_bucket_id st ≤ k)%Z → c k = 0%Z) →
  ∃ st' bucket,
    find_or_create_bucket lat lng name st = (st', Ok bucket)
    ∧ buckets_ok st' ∧ counts_as c (geo_buckets st')
    ∧ bucket ∈ geo_buckets st'
    ∧ GeoBucket.h3_index bucket = calculate_h3_index lat lng
    ∧ (∀ k, k ∈ GeoBucket.id <$> geo_buckets st →
            k ∈ GeoBucket.id <$> geo_buckets st')
    ∧ (∀ k, (next_bucket_id st' ≤ k)%Z → c k = 0%Z).
Proof.
  intros (Hstore & Hpos & Hnext) Hcounts Hfree.
  destruct (find_or_create_bucket_step lat lng name st Hstore)
    as (st' & bucket & Hcall & Hstore' & Hin & Hcell & _).
  exists st', bucket. split; [done|].
  unfold find_or_create_bucket, find_or_create_bucket_among in Hcall.
  destruct (first_by_h3_index st (calculate_h3_index lat lng))
    as [found|] eqn:Hfirst.
  - destruct (found_bucket_result found name st)
      as (st2 & Hcall2 & Hrows & Hnext2).
    rewrite Hcall2 in Hcall. injection Hcall as -> _.
    assert (GeoBucket.id <$> geo_buckets st' = GeoBucket.id <$> geo_buckets st)
      as Hids by (rewrite Hrows; apply rows_with_variant_ids).
    split; [split; [done|split]|].
    + apply (Forall_ids (fun k => (0 < k)%Z)). rewrite Hids.
      by apply (Forall_ids (fun k => (0 < k)%Z)).
    + by rewrite Hnext2.
    + split.
      { unfold counts_as. rewrite Hrows.
        apply rows_with_variant_Forall; [|done].
        intros pk names row Hrow. unfold set_variant_names.
        by case_decide. }
      split; [done|]. split; [done|]. split; [by rewrite Hids|].
      by rewrite Hnext2.
  - apply first_by_h3_index_None in Hfirst.
    destruct (create_bucket_fresh _ name st Hfirst)
      as (st2 & Hcall2 & Hrows & Hnext2).
    rewrite Hcall2 in Hcall. injection Hcall as -> _.
    split; [split; [done|split]|].
    + rewrite Hrows. apply Forall_app. split; [done|]. by constructor.
    + rewrite Hnext2. lia.
    + split.
      { unfold counts_as. rewrite Hrows. apply Forall_app. split; [done|].
        constructor; [|done]. simpl. symmetry. apply Hfree. lia. }
      split; [done|]. split; [done|]. split.
      * intros k Hk. rewrite Hrows, fmap_app. apply elem_of_app. by left.
      * intros k Hk. apply Hfree. rewrite Hnext2 in Hk. lia.
Qed.

Lemma references_check self tables :
  (∀ k, Property.bucket_id self = Some k →
        k ∈ GeoBucket.id <$> geo_buckets (store tables)) →
  match Property.bucket_id self with
  | Some b => bool_decide (b ∈ GeoBucket.id <$> geo_buckets (store tables))
  | None => true
  end = true.
Proof.
  intros Hfk. destruct (Property.bucket_id self) as [k|]; [|done].
  apply bool_decide_eq_true_2. by apply Hfk.
Qed.

Lemma model_save_insert now self tables :
  Property.pk self = None →
  (∀ k, Property.bucket_id self = Some k →
        k ∈ GeoBucket.id <$> geo_buckets (store tables)) →
  PropertyModel.model_save now self tables
  = (mkTables (store tables)
       (properties tables
        ++ [Property.row (next_property_id tables) now self])
       (next_property_id tables + 1),
     Done (Property.with_created_at (Some now)
             (Property.with_pk (Some (next_property_id tables)) self))).
Proof.
  intros Hpk Hfk. unfold PropertyModel.model_save. cbv zeta.
  by rewrite Hpk, references_check.
Qed.

Lemma model_save_update now self tables pk created_at :
  Property.pk self = Some pk →
  Property.created_at self = Some created_at →
  (∀ k, Property.bucket_id self = Some k →
        k ∈ GeoBucket.id <$> geo_buckets (store tables)) →
  pk ∈ PropertyRow.id <$> properties tables →
  PropertyModel.model_save now self tables
  = (mkTables (store tables)
       (replaced (Property.row pk created_at self) (properties tables))
       (next_property_id tables),
     Done self).
Proof.
  intros Hpk Hcreated Hfk Hin. unfold PropertyModel.model_save. cbv zeta.
  rewrite Hpk, references_check by done.
  by rewrite bool_decide_eq_true_2, Hcreated.
Qed.

Lemma model_save_unstamped now self tables pk :
  Property.pk self = Some pk → Property.created_at self = None →
  pk ∈ PropertyRow.id <$> properties tables →
  PropertyModel.model_save now self tables
  = (tables, Failed (StoreExn IntegrityError)).
Proof.
  intros Hpk Hcreated Hin. unfold PropertyModel.model_save. cbv zeta.
  rewrite Hpk, Hcreated, bool_decide_eq_true_2 by done.
  by destruct (match Property.bucket_id self with
               | Some b => _
               | None => _
               end).
Qed.

Lemma increment_bucket_stored self bucket tables :
  NoDup (GeoBucket.id <$> geo_buckets (store tables)) →
  GeoBucket.id bucket ∈ GeoBucket.id <$> geo_buckets (store tables) →
  ∃ row, row ∈ geo_buckets (store tables)
    ∧ GeoBucket.id row = GeoBucket.id bucket
    ∧ PropertyModel.increment_bucket self bucket tables
      = (with_store (counted (GeoBucket.id bucket) 1 (store tables)) tables,
         Done (Property.with_bucket
                 (Some (add_to_property_count (GeoBucket.id bucket) 1 row))
                 self)).
Proof.
  intros Hnd Hin. apply list_elem_of_fmap in Hin as (row & Hid & Hrow).
  exists row. split; [done|]. split; [done|].
  unfold PropertyModel.increment_bucket.
  by rewrite (increment_property_count_stored bucket _ row).
Qed.

Lemma tables_ok_parts tables :
  tables_ok tables
  ↔ buckets_ok (store tables)
    ∧ properties_ok (store tables) (properties tables)
        (next_property_id tables)
    ∧ counts_as (fun k => count_of k (properties tables))
                (geo_buckets (store tables)).
Proof.
  unfold tables_ok, buckets_ok, properties_ok, counts_ok, counts_as. tauto.
Qed.

Lemma properties_ok_buckets st st' rows next :
  (∀ k, k ∈ GeoBucket.id <$> geo_buckets st →
        k ∈ GeoBucket.id <$> geo_buckets st') →
  properties_ok st rows next → properties_ok st' rows next.
Proof.
  intros Hsub [Hnd Hrows]. split; [done|].
  eapply Forall_impl; [exact Hrows|]. intros r [Hlt Hfk]. split; [done|].
  intros k Hk. by apply Hsub, Hfk.
Qed.

Lemma properties_ok_insert st rows next r :
  properties_ok st rows next → PropertyRow.id r = next →
  (∀ k, PropertyRow.bucket_id r = Some k →
        k ∈ GeoBucket.id <$> geo_buckets st) →
  properties_ok st (rows ++ [r]) (next + 1).
Proof.
  intros [Hnd Hrows] Hid Hfk. rewrite Forall_forall in Hrows. split.
  - rewrite fmap_app. apply NoDup_app. split; [done|].
    split; [|apply NoDup_singleton].
    intros k Hk Hk'. apply list_elem_of_singleton in Hk'. subst k.
    apply list_elem_of_fmap in Hk as (x & Hx & Hin).
    destruct (Hrows x Hin) as [Hlt _]. lia.
  - apply Forall_app. split.
    + apply Forall_forall. intros x Hx. destruct (Hrows x Hx) as [Hlt Hf].
      split; [lia|done].
    + constructor; [|done]. split; [lia|done].
Qed.

Lemma properties_ok_replace st rows next r0 r1 :
  properties_ok st rows next → r0 ∈ rows →
  PropertyRow.id r1 = PropertyRow.id r0 →
  (∀ k, PropertyRow.bucket_id r1 = Some k →
        k ∈ GeoBucket.id <$> geo_buckets st) →
  properties_ok st (replaced r1 rows) next.
Proof.
  intros [Hnd Hrows] Hin Hid Hfk. split; [by rewrite replaced_ids|].
  rewrite Forall_forall in Hrows. unfold replaced.
  apply Forall_fmap, Forall_forall. intros x Hx. simpl.
  case_decide as Hx1; [|by apply Hrows].
  split; [|done]. rewrite Hid. by apply Hrows.
Qed.

Lemma properties_ok_delete st rows next pk :
  properties_ok st rows next →
  properties_ok st (filter (fun r => PropertyRow.id r ≠ pk) rows) next.
Proof.
  intros [Hnd Hrows]. split.
  - apply (NoDup_fmap_2_strong PropertyRow.id).
    + intros x y Hx Hy Heq.
      apply list_elem_of_filter in Hx as [_ Hx], Hy as [_ Hy].
      by apply (same_row PropertyRow.id rows).
    + by apply NoDup_filter, (NoDup_fmap_1 PropertyRow.id).
  - by apply filter_keeps.
Qed.

Lemma count_of_unreferenced k rows :
  (∀ r, r ∈ rows → PropertyRow.bucket_id r ≠ Some k) → count_of k rows = 0%Z.
Proof.
  intros Hno. unfold count_of. rewrite filter_none_2; [done|].
  by apply Forall_forall.
Qed.

Lemma count_of_beyond st rows next k :
  store_ok st → properties_ok st rows next →
  (next_bucket_id st ≤ k)%Z → count_of k rows = 0%Z.
Proof.
  intros (_ & _ & Hlt) [_ Hrows] Hk. apply count_of_unreferenced.
  intros r Hr Hrk. rewrite Forall_forall in Hrows.
  rewrite Forall_forall in Hlt.
  destruct (Hrows r Hr) as [_ Hfk].
  apply Hfk, list_elem_of_fmap in Hrk as (b & -> & Hb).
  destruct (Hlt b Hb) as [Hid _]. lia.
Qed.

Lemma holds_key (a b : Z) :
  holds (Some a = Some b) = if decide (b = a) then 1%Z else 0%Z.
Proof.
  unfold holds. repeat case_decide; try done; congruence.
Qed.

(** The tables after a new property [self] has been saved in the
    bucket [k]. *)
Lemma tables_ok_insert tables st k r :
  buckets_ok st →
  properties_ok st (properties tables) (next_property_id tables) →
  counts_as (fun k => count_of k (properties tables)) (geo_buckets st) →
  k ∈ GeoBucket.id <$> geo_buckets st →
  PropertyRow.id r = next_property_id tables →
  PropertyRow.bucket_id r = Some k →
  tables_ok (mkTables (counted k 1 st) (properties tables ++ [r])
               (next_property_id tables + 1)).
Proof.
  intros Hb Hp Hc Hk Hid Hbucket. apply tables_ok_parts. simpl.
  split; [by apply buckets_ok_counted|]. split.
  - apply (properties_ok_buckets st).
    { intros k'. simpl. by rewrite add_to_property_count_ids. }
    apply properties_ok_insert; [done|done|].
    intros k' Hk'. rewrite Hbucket in Hk'. by injection Hk' as <-.
  - eapply counts_as_ext; [|by apply counts_as_counted].
    intros k'. simpl. rewrite count_of_app, count_of_singleton, Hbucket.
    by rewrite holds_key.
Qed.

Lemma create_stored {grid : H3} {db : Database}
    (now : Z) (validated_data : PropertyWrites.validated)
    (tables : Tables) :
  tables_ok tables →
  ∃ tables' property bucket,
    PropertyWrites.create now validated_data tables
    = (tables', Done property)
    ∧ tables_ok tables'
    ∧ Property.pk property = Some (next_property_id tables)
    ∧ Property.bucket property = Some bucket
    ∧ bucket ∈ geo_buckets (store tables')
    ∧ GeoBucket.h3_index bucket
      = calculate_h3_index (PropertyWrites.v_lat validated_data)
          (PropertyWrites.v_lng validated_data)
    ∧ GeoBucket.property_count bucket
      = (count_of (GeoBucket.id bucket) (properties tables) + 1)%Z
    ∧ properties tables'
      = properties tables
        ++ [PropertyRow.mk (next_property_id tables)
              (PropertyWrites.v_title validated_data)
              (PropertyWrites.v_location_name validated_data)
              (PropertyWrites.v_lng validated_data,
               PropertyWrites.v_lat validated_data)
              (Some (GeoBucket.id bucket))
              (PropertyWrites.v_price validated_data)
              (PropertyWrites.v_bedrooms validated_data)
              (PropertyWrites.v_bathrooms validated_data) now].
Proof.
  intros (Hb & Hp & Hc)%tables_ok_parts.
  destruct validated_data as [title name lat lng price beds baths].
  unfold PropertyWrites.create. cbv zeta. simpl.
  destruct (find_or_create_bucket_buckets lat lng name (store tables)
              (fun k => count_of k (properties tables)) Hb Hc)
    as (st1 & found & -> & Hb1 & Hc1 & Hin1 & Hcell & Hsub & _).
  { intros k Hk. destruct Hb as [Hstore _]. by eapply count_of_beyond. }
  pose proof (properties_ok_buckets _ st1 _ _ Hsub Hp) as Hp1.
  assert (GeoBucket.id found ∈ GeoBucket.id <$> geo_buckets st1) as Hk
    by (by apply list_elem_of_fmap_2).
  destruct Hb1 as [Hstore1 Hrest1]. pose proof Hstore1 as (_ & Hids1 & _).
  unfold PropertyModel.save. cbv zeta.
  rewrite model_save_insert; [|done|].
  2:{ simpl. intros k [= <-]. done. }
  simpl.
  destruct (increment_bucket_stored
              (Property.with_created_at (Some now)
                 (Property.with_pk (Some (next_property_id tables))
                    (Property.mk None title name (lng, lat) (Some found)
                       price beds baths None)))
              found
              (mkTables st1
                 (properties tables
                  ++ [Property.row (next_property_id tables) now
                        (Property.mk None title name (lng, lat) (Some found)
                           price beds baths None)])
                 (next_property_id tables + 1)) Hids1 Hk)
    as (row & Hrow & Hid & ->).
  assert (row = found) as ->
    by (by apply (same_row GeoBucket.id (geo_buckets st1))).
  eexists _, _, _. split; [done|]. split.
  { unfold with_store. simpl.
    by apply (tables_ok_insert tables st1 (GeoBucket.id found)). }
  split; [done|]. split; [done|]. split.
  { simpl. by apply list_elem_of_fmap_2. }
  destruct (add_to_property_count_fields (GeoBucket.id found) 1 found)
    as (-> & _ & _ & _ & ->).
  split; [done|]. split.
  { rewrite decide_True by done. rewrite add_to_property_count_id.
    unfold counts_as in Hc1.
    rewrite Forall_forall in Hc1. pose proof (Hc1 found Hin1) as Hcount.
    simpl in Hcount. lia. }
  simpl. by rewrite add_to_property_count_id.
Qed.

Lemma tables_ok_empty : tables_ok empty_tables.
Proof.
  split; [exact store_ok_empty|]. unfold empty_tables. simpl.
  split; [constructor|]. split; [done|]. split; [constructor|].
  split; constructor.
Qed.

Lemma tables_ok_create {grid : H3} {db : Database}
    (now : Z) (validated_data : PropertyWrites.validated)
    (tables : Tables) :
  tables_ok tables →
  tables_ok (PropertyWrites.create now validated_data tables).1.
Proof.
  intros Hok.
  by destruct (create_stored now validated_data tables Hok)
    as (tables' & property & bucket & -> & Hok' & _).
Qed.

Lemma holds_none (k : Z) : holds ((None : option Z) = Some k) = 0%Z.
Proof. unfold holds. by case_decide. Qed.

Lemma instance_of_bucket tables r k :
  NoDup (GeoBucket.id <$> geo_buckets (store tables)) →
  PropertyRow.bucket_id r = Some k →
  k ∈ GeoBucket.id <$> geo_buckets (store tables) →
  ∃ row, row ∈ geo_buckets (store tables) ∧ GeoBucket.id row = k
         ∧ Property.bucket (instance_of tables r) = Some row.
Proof.
  intros Hnd Hk Hin. apply list_elem_of_fmap in Hin as (row & -> & Hrow).
  exists row. split; [done|]. split; [done|].
  unfold instance_of. simpl. rewrite Hk. simpl.
  by rewrite (filter_unique GeoBucket.id).
Qed.

Lemma instance_of_unrelated tables r :
  PropertyRow.bucket_id r = None →
  Property.bucket (instance_of tables r) = None.
Proof. intros Hk. unfold instance_of. simpl. by rewrite Hk. Qed.

Lemma moved_ids old new st :
  GeoBucket.id <$> geo_buckets (moved old new st)
  = GeoBucket.id <$> geo_buckets st.
Proof.
  unfold moved. destruct old, new; simpl;
    by rewrite ?add_to_property_count_ids.
Qed.

Lemma buckets_ok_moved old new st :
  buckets_ok st → buckets_ok (moved old new st).
Proof.
  intros Hb. unfold moved.
  destruct old, new; repeat apply buckets_ok_counted; done.
Qed.

Lemma counts_as_moved c old new st :
  counts_as c (geo_buckets st) →
  counts_as (fun k => (c k - holds (old = Some k) + holds (new = Some k))%Z)
            (geo_buckets (moved old new st)).
Proof.
  intros Hc. unfold moved.
  destruct old as [ko|], new as [kn|]; simpl.
  - eapply counts_as_ext;
      [|exact (counts_as_counted _ _ kn 1 (counts_as_counted _ _ ko (-1) Hc))].
    intros k. simpl. rewrite !holds_key.
    destruct (decide (k = ko)), (decide (k = kn)); lia.
  - eapply counts_as_ext; [|exact (counts_as_counted _ _ ko (-1) Hc)].
    intros k. simpl. rewrite holds_key. unfold holds.
    rewrite (decide_False (P := None = Some k)) by done.
    destruct (decide (k = ko)); lia.
  - eapply counts_as_ext; [|exact (counts_as_counted _ _ kn 1 Hc)].
    intros k. simpl. rewrite holds_key. unfold holds.
    rewrite (decide_False (P := None = Some k)) by done.
    destruct (decide (k = kn)); lia.
  - eapply counts_as_ext; [|exact Hc]. intros k. simpl. unfold holds.
    rewrite !(decide_False (P := None = Some k)) by done. lia.
Qed.

Lemma tables_ok_replace tables r0 r1 st' :
  tables_ok tables → r0 ∈ properties tables →
  PropertyRow.id r1 = PropertyRow.id r0 →
  (∀ k, PropertyRow.bucket_id r1 = Some k →
        k ∈ GeoBucket.id <$> geo_buckets (store tables)) →
  st' = moved (PropertyRow.bucket_id r0) (PropertyRow.bucket_id r1)
          (store tables)
  ∨ (st' = store tables
     ∧ PropertyRow.bucket_id r0 = PropertyRow.bucket_id r1) →
  tables_ok (mkTables st' (replaced r1 (properties tables))
               (next_property_id tables)).
Proof.
  intros (Hb & Hp & Hc)%tables_ok_parts Hin Hid Hfk Hst.
  pose proof Hp as [Hpids _].
  apply tables_ok_parts. simpl. destruct Hst as [->|[-> Hsame]].
  - split; [by apply buckets_ok_moved|]. split.
    + apply (properties_ok_buckets (store tables)).
      { intros k. by rewrite moved_ids. }
      by apply (properties_ok_replace _ _ _ r0).
    + eapply counts_as_ext; [|by apply counts_as_moved].
      intros k. simpl.
      pose proof (count_of_replace k (properties tables) r0 r1 Hpids Hin Hid).
      lia.
  - split; [done|]. split.
    + by apply (properties_ok_replace _ _ _ r0).
    + eapply counts_as_ext; [|exact Hc]. intros k. simpl.
      pose proof (count_of_replace k (properties tables) r0 r1 Hpids Hin Hid)
        as Hrep.
      rewrite Hsame in Hrep. lia.
Qed.

Lemma decrement_old_bucket st c k :
  buckets_ok st → counts_as c (geo_buckets st) →
  k ∈ GeoBucket.id <$> geo_buckets st → (0 < c k)%Z →
  ∃ old_bucket bucket,
    get_bucket k st = Done old_bucket
    ∧ decrement_property_count old_bucket st
      = (counted k (-1) st, Done bucket).
Proof.
  intros ((_ & Hids & _) & _) Hc Hk Hpos.
  apply list_elem_of_fmap in Hk as (row & -> & Hrow).
  exists row. eexists. split; [by apply get_bucket_unique|].
  apply decrement_property_count_stored; try done.
  unfold counts_as in Hc. rewrite Forall_forall in Hc.
  by rewrite (Hc row Hrow).
Qed.

Lemma save_stored (now : Z) (tables : Tables) (r0 : PropertyRow.t)
    (self : Property.t) (created_at : Z) :
  tables_ok tables → r0 ∈ properties tables →
  Property.pk self = Some (PropertyRow.id r0) →
  Property.created_at self = Some created_at →
  (∀ bucket, Property.bucket self = Some bucket →
             bucket ∈ geo_buckets (store tables)) →
  ∃ tables' saved,
    PropertyModel.save now self tables = (tables', Done saved)
    ∧ tables_ok tables'
    ∧ properties tables'
      = replaced (Property.row (PropertyRow.id r0) created_at self)
          (properties tables)
    ∧ GeoBucket.id <$> geo_buckets (store tables')
      = GeoBucket.id <$> geo_buckets (store tables)
    ∧ Property.pk saved = Some (PropertyRow.id r0)
    ∧ Property.bucket_id saved = Property.bucket_id self
    ∧ store tables'
      = if decide (PropertyRow.bucket_id r0 = Property.bucket_id self)
        then store tables
        else moved (PropertyRow.bucket_id r0) (Property.bucket_id self)
               (store tables).
Proof.
  intros Hok Hin Hpk Hcreated Hfresh.
  pose proof Hok as (Hb & Hp & Hc)%tables_ok_parts.
  pose proof Hb as ((_ & Hids & _) & Hpos & _). pose proof Hp as [Hpids Hrows].
  rewrite Forall_forall in Hrows. rewrite Forall_forall in Hpos.
  assert (∀ k, Property.bucket_id self = Some k →
               k ∈ GeoBucket.id <$> geo_buckets (store tables)) as Hfk.
  { intros k Hk. unfold Property.bucket_id in Hk.
    destruct (Property.bucket self) as [b|] eqn:Hbucket; [|done].
    injection Hk as <-. by apply list_elem_of_fmap_2, Hfresh. }
  assert (PropertyRow.id r0 ∈ PropertyRow.id <$> properties tables) as Hstored
    by (by apply list_elem_of_fmap_2).
  set (r1 := Property.row (PropertyRow.id r0) created_at self).
  assert (∀ st', st' = moved (PropertyRow.bucket_id r0)
                         (PropertyRow.bucket_id r1) (store tables)
                 ∨ (st' = store tables
                    ∧ PropertyRow.bucket_id r0 = PropertyRow.bucket_id r1) →
            tables_ok (mkTables st' (replaced r1 (properties tables))
                         (next_property_id tables))) as Hmoved.
  { intros st' Hst'. by apply (tables_ok_replace tables r0 r1). }
  unfold PropertyModel.save. cbv zeta.
  rewrite (model_save_update now self tables (PropertyRow.id r0) created_at)
    by done.
  rewrite Hpk. fold r1.
  rewrite (filter_unique PropertyRow.id (properties tables) r0) by done.
  cbn [head]. rewrite (bool_decide_eq_false_2 (Some _ = None)) by done.
  case_bool_decide as Hchange.
  2:{ eexists _, _. split; [done|]. split; [apply Hmoved; by right|].
      rewrite decide_True by done. by repeat split. }
  cbn [store].
  assert (∃ st2,
            buckets_ok st2
            ∧ GeoBucket.id <$> geo_buckets st2
              = GeoBucket.id <$> geo_buckets (store tables)
            ∧ st2 = match PropertyRow.bucket_id r0 with
                    | Some k => counted k (-1) (store tables)
                    | None => store tables
                    end
            ∧ match PropertyRow.bucket_id r0 with
              | Some pk =>
                  if bool_decide (pk ≠ 0%Z)
                  then
                    match get_bucket pk (store tables) with
                    | Done old_bucket =>
                        match decrement_property_count old_bucket
                                (store tables) with
                        | (st, Done _) =>
                            (with_store st
                               (mkTables (store tables)
                                  (replaced r1 (properties tables))
                                  (next_property_id tables)), Done ())
                        | (st, Failed e) =>
                            (with_store st
                               (mkTables (store tables)
                                  (replaced r1 (properties tables))
                                  (next_property_id tables)), Failed e)
                        end
                    | Failed e =>
                        (mkTables (store tables)
                           (replaced r1 (properties tables))
                           (next_property_id tables), Failed e)
                    end
                  else (mkTables (store tables)
                          (replaced r1 (properties tables))
                          (next_property_id tables), Done ())
              | None => (mkTables (store tables)
                           (replaced r1 (properties tables))
                           (next_property_id tables), Done ())
              end
              = (mkTables st2 (replaced r1 (properties tables))
                   (next_property_id tables), Done ()))
    as (st2 & Hb2 & Hids2 & Hst2 & ->).
  { destruct (PropertyRow.bucket_id r0) as [ko|] eqn:Hold.
    - destruct (Hrows r0 Hin) as [_ Hfk0]. specialize (Hfk0 ko Hold).
      assert (ko ≠ 0%Z) as Hko.
      { apply list_elem_of_fmap in Hfk0 as (b & -> & Hb0).
        specialize (Hpos b Hb0). simpl in Hpos. lia. }
      rewrite bool_decide_eq_true_2 by done.
      destruct (decrement_old_bucket (store tables)
                  (fun k => count_of k (properties tables)) ko Hb Hc Hfk0)
        as (old_bucket & bucket & -> & ->).
      { by apply (count_of_elem ko (properties tables) r0). }
      exists (counted ko (-1) (store tables)).
      split; [by apply buckets_ok_counted|].
      split; [simpl; by rewrite add_to_property_count_ids|]. by split.
    - exists (store tables). split; [done|]. split; [done|]. by split. }
  destruct (Property.bucket self) as [bucket|] eqn:Hbucket.
  - assert (GeoBucket.id bucket ∈ GeoBucket.id <$> geo_buckets st2) as Hk2.
    { rewrite Hids2. by apply list_elem_of_fmap_2, Hfresh. }
    destruct Hb2 as ((_ & Hnd2 & _) & _).
    destruct (increment_bucket_stored self bucket
                (mkTables st2 (replaced r1 (properties tables))
                   (next_property_id tables)) Hnd2 Hk2)
      as (row & Hrow & Hid & ->).
    eexists _, _. split; [done|]. unfold with_store. cbn [store properties
      next_property_id]. split.
    { apply Hmoved. left. unfold moved. cbv zeta.
      assert (PropertyRow.bucket_id r1 = Some (GeoBucket.id bucket)) as ->.
      { unfold r1, Property.row, Property.bucket_id. simpl.
        by rewrite Hbucket. }
      by rewrite <- Hst2. }
    split; [done|]. split.
    { simpl. by rewrite add_to_property_count_ids. }
    split; [done|]. split.
    { unfold Property.bucket_id. simpl.
      by rewrite Hbucket, add_to_property_count_id, Hid. }
    rewrite decide_False by done. unfold moved, Property.bucket_id.
    rewrite Hbucket. simpl. by rewrite <- Hst2.
  - eexists _, _. split; [done|]. split.
    { apply Hmoved. left. unfold moved. cbv zeta.
      assert (PropertyRow.bucket_id r1 = None) as ->.
      { unfold r1, Property.row, Property.bucket_id. simpl.
        by rewrite Hbucket. }
      by rewrite <- Hst2. }
    split; [done|]. split; [done|]. split; [done|].
    split; [unfold Property.bucket_id; by rewrite Hbucket|].
    rewrite decide_False by done. unfold moved, Property.bucket_id.
    rewrite Hbucket. simpl. by rewrite <- Hst2.
Qed.

Lemma replaced_elem rows r0 r1 r :
  NoDup (PropertyRow.id <$> rows) → r0 ∈ rows →
  PropertyRow.id r1 = PropertyRow.id r0 →
  r ∈ replaced r1 rows ↔ r = r1 ∨ (r ∈ rows ∧ r ≠ r0).
Proof.
  intros Hnd Hin Hid. unfold replaced. rewrite list_elem_of_fmap. split.
  - intros (r' & -> & Hr'). case_decide as Hkey; [by left|].
    right. split; [done|]. intros ->. by apply Hkey.
  - intros [->|[Hr Hne]].
    + exists r0. split; [|done]. by rewrite decide_True.
    + exists r. split; [|done]. rewrite decide_False; [done|].
      intros Hkey. apply Hne.
      apply (same_row PropertyRow.id rows); [done..|]. by rewrite Hkey.
Qed.

Lemma counted_rows k d st b :
  b ∈ geo_buckets st →
  ∃ b', b' ∈ geo_buckets (counted k d st)
        ∧ GeoBucket.id b' = GeoBucket.id b
        ∧ GeoBucket.h3_index b' = GeoBucket.h3_index b.
Proof.
  intros Hb. exists (add_to_property_count k d b).
  split; [simpl; by apply list_elem_of_fmap_2|].
  split; [apply add_to_property_count_id|].
  by destruct (add_to_property_count_fields k d b) as (-> & _).
Qed.

Lemma moved_rows old new st b :
  b ∈ geo_buckets st →
  ∃ b', b' ∈ geo_buckets (moved old new st)
        ∧ GeoBucket.id b' = GeoBucket.id b
        ∧ GeoBucket.h3_index b' = GeoBucket.h3_index b.
Proof.
  intros Hb. unfold moved.
  assert (∃ b1, b1 ∈ geo_buckets
                       (match old with
                        | Some k => counted k (-1) st
                        | None => st
                        end)
                ∧ GeoBucket.id b1 = GeoBucket.id b
                ∧ GeoBucket.h3_index b1 = GeoBucket.h3_index b)
    as (b1 & Hb1 & Hid1 & Hcell1).
  { destruct old as [k|]; [by apply counted_rows|by exists b]. }
  cbv zeta. destruct new as [k|].
  - destruct (counted_rows k 1 _ b1 Hb1) as (b2 & Hb2 & Hid2 & Hcell2).
    exists b2. split; [done|]. by rewrite Hid2, Hcell2.
  - by exists b1.
Qed.

End CountFacts.

(* ################################################################## *)
(** * Part IV: the properties of the specification *)
(* ################################################################## *)

Import PyStr LocationNormalizer BucketService LocationMatcher.
Import Notions Words NormalizeFacts BucketFacts MatcherFacts SimilarityFacts.

(** ** Normalizer *)

(** C3, as the code has it: ["!!!"] is not empty and [normalize] maps it
    to the empty string. *)
Lemma normalize_punctuation_is_empty :
  length (py "!!!") = 3 ∧ normalize (py "!!!") = [].
Proof. vm_compute. by split. Qed.

(** C3, amended.  [normalize] returns a non-empty string exactly for the
    inputs that contain a letter or a digit (a character whose lower case
    is in [[a-z0-9]]); when the removal of stop words leaves no word, the
    result is the first two words of the text before the removal, joined
    by a space. *)
Theorem normalize_nonempty_iff_alnum (name : str) :
  (normalize name ≠ [] ↔ has_alnum name)
  ∧ (kept_words name = [] →
     normalize name = join (py " ") (take 2 (split (cleaned name)))).
Proof.
  split.
  - split.
    + intros Hne. destruct (decide (has_alnum name)) as [|Hno]; [done|].
      destruct Hne. by apply normalize_nil_iff.
    + intros Hhas Hnil. by apply normalize_nil_iff in Hnil.
  - intros Hkept. rewrite normalize_words. unfold chosen_words.
    rewrite Hkept. unfold expand_words. rewrite expand_with_short; [done|].
    rewrite length_take. lia.
Qed.

(** C4.  [normalize] on ["12 St St Ikeja"]: the loop over [REPLACEMENTS]
    expands the first ["st"] and misses the second, whose leading blank
    the first match has taken; a second [normalize] expands it, so the
    two results differ. *)
Lemma normalize_twice_differs :
  normalize (py "12 St St Ikeja") = py "12 street st ikeja"
  ∧ normalize (normalize (py "12 St St Ikeja")) = py "12 street street ikeja".
Proof. vm_compute. by split. Qed.

(** Where the missed match cannot occur, [normalize] is idempotent:
    [normalize (normalize x) = normalize x] for every [x] whose words,
    once the stop words are removed, never have the same abbreviation
    (str, rd, ave, st) twice in a row. *)
Theorem normalize_idempotent_without_repeats (name : str) :
  no_repeated_abbreviation (kept_words name) →
  normalize (normalize name) = normalize name.
Proof. apply normalize_idempotent_on. Qed.

(** The theorem at ["12 Allen Ave, Ikeja Lagos"]. *)
Lemma normalize_idempotent_without_repeats_witness :
  no_repeated_abbreviation (kept_words (py "12 Allen Ave, Ikeja Lagos"))
  ∧ normalize (normalize (py "12 Allen Ave, Ikeja Lagos"))
    = normalize (py "12 Allen Ave, Ikeja Lagos").
Proof.
  assert (no_repeated_abbreviation
            (kept_words (py "12 Allen Ave, Ikeja Lagos"))) as Hno.
  { apply (bool_decide_unpack _). by vm_compute. }
  split; [exact Hno|].
  exact (normalize_idempotent_without_repeats _ Hno).
Defined.

(** C6, as the code has it: two empty strings are equal and score 0, and
    ["Ab"] and ["ab"] differ and score 1; all four have no trigram. *)
Lemma similarity_special_cases :
  generate_trigrams [] = []
  ∧ calculate_similarity [] [] = 0%Q
  ∧ generate_trigrams (py "Ab") = []
  ∧ generate_trigrams (py "ab") = []
  ∧ bool_decide (py "Ab" = py "ab") = false
  ∧ calculate_similarity (py "Ab") (py "ab") = 1%Q.
Proof. vm_compute. repeat split. Qed.

(** C6, amended.  [calculate_similarity str1 str2] lies in [[0, 1]]; it is
    0 when either string is empty; otherwise, when both trigram sets are
    non-empty it is the Jaccard index of the sets, and when one of them is
    empty it is 1 if the strings are equal up to letter case and 0 if not.
    A trigram set is empty exactly when the text has fewer than three
    characters other than blanks. *)
Theorem similarity_is_guarded_jaccard (str1 str2 : str) :
  ((0 <= calculate_similarity str1 str2)%Q
   ∧ (calculate_similarity str1 str2 <= 1)%Q)
  ∧ (str1 = [] ∨ str2 = [] → calculate_similarity str1 str2 = 0%Q)
  ∧ (str1 ≠ [] → str2 ≠ [] →
     (trigram_set str1 ≠ ∅ → trigram_set str2 ≠ ∅ →
      calculate_similarity str1 str2
      = (inject_Z (Z.of_nat (size (trigram_set str1 ∩ trigram_set str2)))
         / inject_Z (Z.of_nat (size (trigram_set str1 ∪ trigram_set str2))))%Q)
     ∧ (trigram_set str1 = ∅ ∨ trigram_set str2 = ∅ →
        calculate_similarity str1 str2
        = if bool_decide (lower str1 = lower str2) then 1%Q else 0%Q))
  ∧ (trigram_set str1 = ∅ ↔ length (non_blank (lower str1)) < 3).
Proof.
  split; [apply calculate_similarity_bounds|].
  split.
  { intros [->| ->]; [done|]. by destruct str1. }
  split; [|apply trigram_set_empty_iff].
  intros H1 H2. unfold calculate_similarity.
  destruct str1 as [|c1 s1]; [done|]. destruct str2 as [|c2 s2]; [done|].
  cbv zeta. fold (trigram_set (c1 :: s1)). fold (trigram_set (c2 :: s2)).
  split.
  - intros Hn1 Hn2.
    rewrite (bool_decide_eq_false_2 (trigram_set (c1 :: s1) = ∅)) by done.
    rewrite (bool_decide_eq_false_2 (trigram_set (c2 :: s2) = ∅)) by done.
    cbn [orb]. rewrite bool_decide_eq_true_2; [done|].
    apply Nat.neq_0_lt_0. intros Hsize. apply size_empty_inv in Hsize.
    apply Hn1. apply leibniz_equiv. intros t. split; [|by set_unfold].
    intros Ht. apply (Hsize t). apply elem_of_union. by left.
  - intros [He|He]; rewrite He.
    + by rewrite bool_decide_eq_true_2.
    + rewrite (bool_decide_eq_true_2 (∅ = ∅)) by done.
      by rewrite orb_true_r.
Qed.

(** ** Matcher *)

(** C9.  For the empty query [find_matching_buckets] returns the empty
    list and sends nothing to the store; for any other query the first
    thing it does is Layer 1's read. *)
Theorem empty_query_sends_nothing {grid : H3} {db : Database}
    (st : Store) (lat lng : option Q) (min_results : Z) :
  find_matching_buckets st [] lat lng min_results = ([], Ok [])
  ∧ ∀ term, term ≠ [] →
      ∃ sent r,
        find_matching_buckets st term lat lng min_results
        = (BucketsByNameIExact (normalize term) :: sent, r).
Proof.
  split; [done|]. intros term Hterm. destruct term as [|c term]; [done|].
  unfold find_matching_buckets.
  rewrite exact_name_match_eq, bind_send. by eexists _, _.
Qed.

(** ** Bucket assignment *)

Lemma Qle_bool_false (x y : Q) : Qle_bool x y = false ↔ (y < x)%Q.
Proof.
  rewrite <- not_true_iff_false, Qle_bool_iff. split.
  - apply Qnot_le_lt.
  - apply Qlt_not_le.
Qed.

(** C1, as the code has it: on the grid of latitude bands, the latitude 91
    is assigned a bucket like any other. *)
Lemma assign_accepts_latitude_91 :
  (90 < 91)%Q
  ∧ ∃ st' bucket,
      find_or_create_bucket (grid := Toy.grid) (db := Toy.db)
        91 0 (py "Yaba") empty_store = (st', Ok bucket)
      ∧ GeoBucket.normalized_name bucket = py "yaba".
Proof. split; [done|]. eexists _, _. vm_compute. by split. Qed.

(** C1, amended.  [find_or_create_bucket] checks no range: for all
    coordinates, in range or not, it returns a bucket of the cell that the
    grid gives them.  The range check is [PropertySerializer.validate] in
    the surrounding service, which raises [ValidationError] exactly when
    the latitude is outside [[-90, 90]] or the longitude outside
    [[-180, 180]]. *)
Theorem assign_checks_no_range {grid : H3} {db : Database}
    (lat lng : Q) (location_name : str) (st : Store) :
  (∃ st' bucket,
     find_or_create_bucket lat lng location_name st = (st', Ok bucket)
     ∧ GeoBucket.h3_index bucket = latlng_to_cell lat lng H3_RESOLUTION)
  ∧ ((lat < -90 ∨ 90 < lat ∨ lng < -180 ∨ 180 < lng)%Q
     ↔ ∃ field, PropertySerializer.validate (Some lat) (Some lng)
                = Raise (ValidationError field)).
Proof.
  split.
  { destruct (find_or_create_bucket_returns lat lng location_name st)
      as (st' & bucket & Hcall & Hcell & _).
    by exists st', bucket. }
  unfold PropertySerializer.validate, PropertySerializer.outside.
  destruct (Qle_bool (-90) lat) eqn:H1, (Qle_bool lat 90) eqn:H2,
    (Qle_bool (-180) lng) eqn:H3, (Qle_bool lng 180) eqn:H4; cbn;
    rewrite ?Qle_bool_iff, ?Qle_bool_false in *;
    (split;
     [ intros Hout;
       try (by eexists);
       destruct Hout as [Hlt|[Hlt|[Hlt|Hlt]]];
       exfalso; eapply Qlt_not_le; eassumption
     | intros [field Hf]; try discriminate; tauto ]).
Qed.

(** C2, as the code has it: another worker creates the bucket of the cell
    after this call has looked it up; the [IntegrityError] of the insert
    is what the caller gets. *)
Lemma assign_conflict_reaches_caller :
  let others := Toy.assign (6.5244) (3.3792) "Yaba" in
  first_by_h3_index (db := Toy.db) empty_store
    (calculate_h3_index (grid := Toy.grid) (6.5244) (3.3792)) = None
  ∧ find_or_create_bucket_among (grid := Toy.grid) (db := Toy.db) others
      (6.5244) (3.3792) (py "yaba") empty_store
    = (others empty_store, Raise IntegrityError).
Proof. vm_compute. by split. Qed.

(** C2, amended.  [find_or_create_bucket] has no retry: when its look-up
    finds no bucket and another worker has inserted the cell before its
    own insert, the [IntegrityError] of the store is returned to the
    caller and nothing is fetched again; when nobody has, the insert
    succeeds and the new bucket is returned. *)
Theorem assign_does_not_retry {grid : H3} {db : Database}
    (others : Store → Store) (lat lng : Q) (location_name : str)
    (st : Store) :
  first_by_h3_index st (calculate_h3_index lat lng) = None →
  (calculate_h3_index lat lng ∈ GeoBucket.h3_index <$> geo_buckets (others st)
   → find_or_create_bucket_among others lat lng location_name st
     = (others st, Raise IntegrityError))
  ∧ (calculate_h3_index lat lng ∉ GeoBucket.h3_index <$> geo_buckets (others st)
     → ∃ st',
         find_or_create_bucket_among others lat lng location_name st
         = (st', Ok (new_bucket (others st) (calculate_h3_index lat lng)
                       location_name))).
Proof.
  intros Hmiss. unfold find_or_create_bucket_among. rewrite Hmiss. split.
  - intros Hthere. by apply create_bucket_conflict.
  - intros Hfree.
    destruct (create_bucket_fresh _ location_name (others st) Hfree)
      as (st' & Hcall & _).
    by exists st'.
Qed.

(** The theorem for a bucket that another worker creates for "Ikeja"
    while this call assigns "Ikeja GRA" in the same cell. *)
Lemma assign_does_not_retry_witness :
  let others := Toy.assign (6.6018) (3.3569) "Ikeja" in
  first_by_h3_index (db := Toy.db) empty_store
    (calculate_h3_index (grid := Toy.grid) (6.6018) (3.3569)) = None
  ∧ find_or_create_bucket_among (grid := Toy.grid) (db := Toy.db) others
      (6.6018) (3.3569) (py "Ikeja GRA") empty_store
    = (others empty_store, Raise IntegrityError).
Proof.
  assert (first_by_h3_index (db := Toy.db) empty_store
            (calculate_h3_index (grid := Toy.grid) (6.6018) (3.3569)) = None)
    as Hmiss by reflexivity.
  split; [exact Hmiss|].
  apply (assign_does_not_retry (grid := Toy.grid) (db := Toy.db)
           (Toy.assign (6.6018) (3.3569) "Ikeja")
           (6.6018) (3.3569) (py "Ikeja GRA") empty_store Hmiss).
  vm_compute. by left.
Defined.

Lemma same_key_same_row {A B : Type} `{EqDecision B} (f : A → B)
    (l : list A) x y :
  NoDup (f <$> l) → x ∈ l → y ∈ l → f y = f x → y = x.
Proof.
  intros Hnd Hx Hy Heq.
  assert (y ∈ filter (fun z => f z = f x) l) as Hin
    by (by apply list_elem_of_filter).
  rewrite (filter_unique f l x Hnd Hx) in Hin.
  by apply list_elem_of_singleton in Hin.
Qed.

(** C5, as the code has it: assigned twice with the empty name, the
    bucket is the same both times and the name is not among its variants. *)
Lemma assign_twice_empty_name :
  ∃ st1 st2 bucket,
    find_or_create_bucket (grid := Toy.grid) (db := Toy.db)
      (6.6018) (3.3569) [] empty_store = (st1, Ok bucket)
    ∧ find_or_create_bucket (grid := Toy.grid) (db := Toy.db)
        (6.6018) (3.3569) [] st1 = (st2, Ok bucket)
    ∧ geo_buckets st2 = [bucket]
    ∧ occurrences [] (GeoBucket.variant_names bucket) = 0.
Proof. eexists _, _, _. vm_compute. repeat split. Qed.

(** C5, amended.  On a store that keeps one bucket per cell, two calls of
    [find_or_create_bucket] with the same arguments return the same bucket
    identity, and afterwards the name stands in that bucket's variant
    names exactly once if it is not empty, and not at all if it is empty
    (the empty name is never recorded). *)
Theorem assign_twice_same_bucket {grid : H3} {db : Database}
    (lat lng : Q) (location_name : str) (st : Store) :
  store_ok st →
  ∃ st1 st2 bucket1 bucket2,
    find_or_create_bucket lat lng location_name st = (st1, Ok bucket1)
    ∧ find_or_create_bucket lat lng location_name st1 = (st2, Ok bucket2)
    ∧ GeoBucket.id bucket1 = GeoBucket.id bucket2
    ∧ bucket2 ∈ geo_buckets st2
    ∧ ∀ row, row ∈ geo_buckets st2 →
        GeoBucket.id row = GeoBucket.id bucket2 →
        occurrences location_name (GeoBucket.variant_names row)
        = if decide (location_name = []) then 0 else 1.
Proof.
  intros Hok.
  destruct (find_or_create_bucket_step lat lng location_name st Hok)
    as (st1 & bucket & Hcall1 & Hok1 & Hin1 & Hcell & Hname).
  assert (location_name = []
          ∨ location_name ∈ GeoBucket.variant_names bucket) as Hcase.
  { destruct (decide (location_name = [])); [by left|right; auto]. }
  destruct (find_or_create_bucket_again lat lng location_name st1 bucket
              Hok1 Hin1 Hcell Hcase) as (st2 & Hcall2 & Hrows).
  exists st1, st2, bucket, bucket.
  split; [done|]. split; [done|]. split; [done|].
  rewrite Hrows. split; [done|]. intros row Hrow Hid.
  destruct Hok1 as (_ & Hids & Hall).
  assert (row = bucket) as ->
    by exact (same_key_same_row GeoBucket.id _ bucket row Hids Hin1 Hrow Hid).
  rewrite Forall_forall in Hall.
  destruct (Hall bucket Hin1) as (_ & Hnd & Hnil).
  case_decide as Hempty.
  - subst. by apply occurrences_absent.
  - apply occurrences_NoDup; auto.
Qed.

(** The theorem for "Ikeja" on the empty store. *)
Lemma assign_twice_same_bucket_witness :
  store_ok empty_store
  ∧ ∃ st1 st2 bucket1 bucket2,
      find_or_create_bucket (grid := Toy.grid) (db := Toy.db)
        (6.6018) (3.3569) (py "Ikeja") empty_store = (st1, Ok bucket1)
      ∧ find_or_create_bucket (grid := Toy.grid) (db := Toy.db)
          (6.6018) (3.3569) (py "Ikeja") st1 = (st2, Ok bucket2)
      ∧ GeoBucket.id bucket1 = GeoBucket.id bucket2
      ∧ bucket2 ∈ geo_buckets st2
      ∧ ∀ row, row ∈ geo_buckets st2 →
          GeoBucket.id row = GeoBucket.id bucket2 →
          occurrences (py "Ikeja") (GeoBucket.variant_names row)
          = if decide (py "Ikeja" = []) then 0 else 1.
Proof.
  split; [exact store_ok_empty|].
  exact (assign_twice_same_bucket (grid := Toy.grid) (db := Toy.db)
           (6.6018) (3.3569) (py "Ikeja") empty_store store_ok_empty).
Defined.

(** C7, as the code has it: assigned with the empty name, a new bucket is
    stored with no variant name. *)
Lemma assign_empty_name_creates_unnamed :
  ∃ st' bucket,
    find_or_create_bucket (grid := Toy.grid) (db := Toy.db)
      (6.5244) (3.3792) [] empty_store = (st', Ok bucket)
    ∧ geo_buckets st' = [bucket]
    ∧ GeoBucket.variant_names bucket = [].
Proof. eexists _, _. vm_compute. repeat split. Qed.

(** C7, amended.  If every stored bucket has a variant name, then after
    [find_or_create_bucket] every stored bucket still has one, and so has
    the bucket returned, unless the call has created a bucket for the
    empty name; that bucket is stored, after the rows that were there,
    with the empty list of variant names. *)
Theorem assign_keeps_buckets_named {grid : H3} {db : Database}
    (lat lng : Q) (location_name : str) (st : Store) :
  all_named st →
  ∃ st' bucket,
    find_or_create_bucket lat lng location_name st = (st', Ok bucket)
    ∧ bucket ∈ geo_buckets st'
    ∧ (location_name ≠ []
       ∨ is_Some (first_by_h3_index st (calculate_h3_index lat lng)) →
       all_named st' ∧ GeoBucket.variant_names bucket ≠ [])
    ∧ (location_name = [] →
       first_by_h3_index st (calculate_h3_index lat lng) = None →
       GeoBucket.variant_names bucket = []
       ∧ geo_buckets st' = geo_buckets st ++ [bucket]).
Proof.
  intros Hnamed. unfold all_named in *.
  unfold find_or_create_bucket, find_or_create_bucket_among.
  destruct (first_by_h3_index st (calculate_h3_index lat lng))
    as [found|] eqn:Hfirst.
  - apply first_by_h3_index_Some in Hfirst as [Hin Hcell].
    destruct (found_bucket_result found location_name st)
      as (st' & -> & Hrows & _).
    exists st', (with_variant found location_name).
    split; [done|]. rewrite Hrows.
    rewrite Forall_forall in Hnamed.
    unfold with_variant, rows_with_variant.
    destruct (bool_decide (location_name ≠ [])
              && bool_decide (location_name ∉ GeoBucket.variant_names found)).
    + split; [by apply list_elem_of_fmap_2|]. split; [|done]. intros _.
      split.
      * apply Forall_fmap, Forall_forall. intros row Hrow. simpl.
        unfold set_variant_names. case_decide; [|by apply Hnamed].
        simpl. by destruct (GeoBucket.variant_names found).
      * rewrite set_variant_names_self.
        by destruct (GeoBucket.variant_names found).
    + split; [done|]. split; [|done]. intros _.
      split; [by apply Forall_forall|by apply Hnamed].
  - apply first_by_h3_index_None in Hfirst.
    destruct (create_bucket_fresh _ location_name st Hfirst)
      as (st' & -> & Hrows & _).
    eexists _, _. split; [done|]. rewrite Hrows.
    split; [apply elem_of_app; right; by left|]. split.
    + intros [Hne|[? ?]]; [|done].
      split; [|by destruct location_name].
      apply Forall_app. split; [done|]. constructor; [|done].
      by destruct location_name.
    + by intros -> _.
Qed.

(** The theorem for the empty name in the cell of the bucket "VI". *)
Lemma assign_keeps_buckets_named_witness :
  let st := Toy.assign (6.4302) (3.4216) "VI" empty_store in
  all_named st
  ∧ ∃ st' bucket,
      find_or_create_bucket (grid := Toy.grid) (db := Toy.db)
        (6.4302) (3.4216) [] st = (st', Ok bucket)
      ∧ bucket ∈ geo_buckets st'
      ∧ (([] : str) ≠ []
         ∨ is_Some (first_by_h3_index (db := Toy.db) st
                      (calculate_h3_index (grid := Toy.grid)
                         (6.4302) (3.4216))) →
         all_named st' ∧ GeoBucket.variant_names bucket ≠ [])
      ∧ (([] : str) = [] →
         first_by_h3_index (db := Toy.db) st
           (calculate_h3_index (grid := Toy.grid) (6.4302) (3.4216)) = None →
         GeoBucket.variant_names bucket = []
         ∧ geo_buckets st' = geo_buckets st ++ [bucket]).
Proof.
  assert (all_named (Toy.assign (6.4302) (3.4216) "VI" empty_store))
    as Hnamed.
  { vm_compute. by repeat constructor. }
  split; [exact Hnamed|].
  exact (assign_keeps_buckets_named (grid := Toy.grid) (db := Toy.db)
           (6.4302) (3.4216) [] _ Hnamed).
Defined.

(** ** The cascade *)



(** C10, as the code has it: five buckets were assigned names of
    punctuation only and one the name "Ab".  The query ["???"] normalizes
    to the empty string, Layer 1 finds the five unnamed buckets, which is
    [min_results], and the cascade returns them without running Layer 3:
    the bucket "ab" is not returned. *)
Lemma punctuation_query_stops_at_layer_1 :
  let st :=
    Toy.assign 6 3 "Ab"
      (Toy.assign 5 3 "!!!"
         (Toy.assign 4 3 "..."
            (Toy.assign 3 3 "--"
               (Toy.assign 2 3 "#"
                  (Toy.assign 1 3 "?" empty_store))))) in
  normalize (py "???") = []
  ∧ GeoBucket.normalized_name <$> geo_buckets st
    = [[]; []; []; []; []; py "ab"]
  ∧ ∃ result,
      find_matching_buckets (grid := Toy.grid) (db := Toy.db) st (py "???")
        None None DEFAULT_MIN_RESULTS
      = ([BucketsByNameIExact []], Ok result)
      ∧ GeoBucket.normalized_name <$> result = [[]; []; []; []; []].
Proof. vm_compute. split; [done|]. split; [done|]. eexists. by split. Qed.

(** C10, amended.  For a non-empty query whose normalization is empty,
    [find_matching_buckets] does not return early: it runs the cascade on
    the empty normalized query, as [empty_query_cascade] spells out.  Layer
    1 reads the buckets with the empty canonical name; if they are at
    least [min_results], or they and the buckets around usable coordinates
    are, the cascade ends there, before Layer 3.  Otherwise Layer 3 runs:
    its Levenshtein method returns every stored bucket whose canonical
    name has at most two characters, its trigram method reads the index
    and adds nothing, and its phonetic method sends nothing; the result
    then holds the identity of every such bucket. *)
Theorem empty_normalized_query_runs_cascade {grid : H3} {db : Database}
    (st : Store) (term : str) (lat lng : option Q) (min_results : Z) :
  term ≠ [] → normalize term = [] →
  find_matching_buckets st term lat lng min_results
  = empty_query_cascade st lat lng min_results
  ∧ fuzzy_levenshtein st [] = ([BucketsAll], Ok (short_rows st))
  ∧ fuzzy_trigram st [] = ([IndexByNameIContains []], Ok [])
  ∧ fuzzy_metaphone st [] = ([], Ok [])
  ∧ (∀ bucket,
       bucket ∈ short_rows st
       ↔ bucket ∈ geo_buckets st
         ∧ length (GeoBucket.normalized_name bucket) ≤ 2)
  ∧ (layer_3_runs st lat lng min_results →
     ∃ sent result,
       find_matching_buckets st term lat lng min_results = (sent, Ok result)
       ∧ ∀ bucket,
           bucket ∈ geo_buckets st →
           length (GeoBucket.normalized_name bucket) ≤ 2 →
           GeoBucket.id bucket ∈ GeoBucket.id <$> result).
Proof.
  intros Hterm Hnorm.
  pose proof (find_matching_buckets_empty_normalized st term lat lng
                min_results Hterm Hnorm) as Hcascade.
  split; [done|].
  split; [apply fuzzy_levenshtein_empty|].
  split; [apply fuzzy_trigram_empty|].
  split; [apply fuzzy_metaphone_empty|].
  split; [apply short_rows_elem|].
  intros Hruns. rewrite Hcascade.
  destruct (empty_query_cascade_short st lat lng min_results Hruns)
    as (sent & result & Heq & Hshort).
  exists sent, result. split; [done|]. intros bucket Hin Hlen.
  apply Hshort. by apply short_rows_elem.
Qed.

(** The theorem for the query ["???"] on a store of two buckets. *)
Lemma empty_normalized_query_runs_cascade_witness :
  let st := Toy.assign 6 3 "Ab" (Toy.assign 1 3 "?" empty_store) in
  py "???" ≠ [] ∧ normalize (py "???") = []
  ∧ find_matching_buckets (grid := Toy.grid) (db := Toy.db) st (py "???")
      None None DEFAULT_MIN_RESULTS
    = empty_query_cascade (grid := Toy.grid) (db := Toy.db) st None None
        DEFAULT_MIN_RESULTS
  ∧ fuzzy_levenshtein (db := Toy.db) st []
    = ([BucketsAll], Ok (short_rows (db := Toy.db) st))
  ∧ fuzzy_trigram (db := Toy.db) st [] = ([IndexByNameIContains []], Ok [])
  ∧ fuzzy_metaphone (db := Toy.db) st [] = ([], Ok [])
  ∧ (∀ bucket,
       bucket ∈ short_rows (db := Toy.db) st
       ↔ bucket ∈ geo_buckets st
         ∧ length (GeoBucket.normalized_name bucket) ≤ 2)
  ∧ (layer_3_runs (grid := Toy.grid) (db := Toy.db) st None None
       DEFAULT_MIN_RESULTS →
     ∃ sent result,
       find_matching_buckets (grid := Toy.grid) (db := Toy.db) st (py "???")
         None None DEFAULT_MIN_RESULTS = (sent, Ok result)
       ∧ ∀ bucket,
           bucket ∈ geo_buckets st →
           length (GeoBucket.normalized_name bucket) ≤ 2 →
           GeoBucket.id bucket ∈ GeoBucket.id <$> result).
Proof.
  assert (py "???" ≠ []) as Hterm by done.
  assert (normalize (py "???") = []) as Hnorm by (by vm_compute).
  split; [exact Hterm|]. split; [exact Hnorm|].
  exact (empty_normalized_query_runs_cascade (grid := Toy.grid)
           (db := Toy.db) _ (py "???") None None DEFAULT_MIN_RESULTS
           Hterm Hnorm).
Defined.

(** On that store Layer 3 is reached and the bucket "ab" is returned
    after the unnamed one. *)
Example punctuation_query_reaches_layer_3 :
  let st := Toy.assign 6 3 "Ab" (Toy.assign 1 3 "?" empty_store) in
  ∃ result,
    find_matching_buckets (grid := Toy.grid) (db := Toy.db) st (py "???")
      None None DEFAULT_MIN_RESULTS
    = ([BucketsByNameIExact []; BucketsAll; IndexByNameIContains []],
       Ok result)
    ∧ GeoBucket.normalized_name <$> result = [[]; py "ab"].
Proof. vm_compute. eexists. by split. Qed.

(* ################################################################## *)
(** * Part V: further properties of the code *)
(* ################################################################## *)

Import Invariants WordFacts KeyFacts SymmetryFacts VariantFacts StoreFacts
  CascadeFacts.

(** ** [normalize] *)

(** X1.  The result of [normalize] is made of words over [[a-z0-9]]
    separated by single blanks: joining its words gives it back, and
    lower-casing or stripping it changes nothing. *)
Theorem normalize_is_clean (name : str) :
  Forall alnum_word (split (normalize name))
  ∧ join (py " ") (split (normalize name)) = normalize name
  ∧ lower (normalize name) = normalize name
  ∧ strip (normalize name) = normalize name.
Proof.
  pose proof (expand_words_alnum _ (chosen_words_alnum name)) as Hw.
  pose proof (alnum_words_words _ Hw) as Hw'.
  rewrite normalize_split. rewrite normalize_words.
  split; [done|]. split; [done|]. split.
  - by apply lower_clean, join_clean.
  - by apply strip_join.
Qed.

(** X2.  [normalize] ignores letter case and white space around the
    name: two names that agree once stripped and lower-cased have the
    same normal form. *)
Theorem normalize_ignores_case_and_margins (a b : str) :
  lower (strip a) = lower (strip b) → normalize a = normalize b.
Proof.
  intros Heq. apply normalize_by_cleaned. unfold cleaned.
  by rewrite !strip_lower, Heq.
Qed.

(** The theorem for ["  IKEJA gra "] and ["Ikeja GRA"]. *)
Lemma normalize_ignores_case_and_margins_witness :
  lower (strip (py "  IKEJA gra ")) = lower (strip (py "Ikeja GRA"))
  ∧ normalize (py "  IKEJA gra ") = normalize (py "Ikeja GRA").
Proof.
  assert (lower (strip (py "  IKEJA gra ")) = lower (strip (py "Ikeja GRA")))
    as Heq by reflexivity.
  split; [exact Heq|].
  exact (normalize_ignores_case_and_margins _ _ Heq).
Defined.

(** X3.  When a name has a word that is not a stop word, no word of its
    normal form is a stop word. *)
Theorem normalize_drops_stop_words (name : str) :
  kept_words name ≠ [] →
  Forall (fun w => w ∉ COMMON_SUFFIXES) (split (normalize name)).
Proof.
  intros Hkept. rewrite normalize_split, chosen_words_kept by done.
  apply expand_with_Forall; [exact expansions_not_stop_words|].
  apply filter_holds.
Qed.

(** The theorem for ["Lekki Phase 1, Lagos State"]. *)
Lemma normalize_drops_stop_words_witness :
  kept_words (py "Lekki Phase 1, Lagos State") ≠ []
  ∧ Forall (fun w => w ∉ COMMON_SUFFIXES)
           (split (normalize (py "Lekki Phase 1, Lagos State"))).
Proof.
  assert (kept_words (py "Lekki Phase 1, Lagos State") ≠ []) as Hkept
    by (by vm_compute).
  split; [exact Hkept|].
  exact (normalize_drops_stop_words _ Hkept).
Defined.

(** X4.  The loop over [REPLACEMENTS] changes neither the number of words
    nor the first nor the last word: an abbreviation at either end of the
    name is not expanded. *)
Theorem normalize_keeps_outer_words (name : str) :
  length (split (normalize name)) = length (chosen_words name)
  ∧ head (split (normalize name)) = head (chosen_words name)
  ∧ last (split (normalize name)) = last (chosen_words name).
Proof.
  rewrite normalize_split. split; [apply expand_with_length|].
  split; [apply expand_words_head|apply expand_words_last].
Qed.

(** X5.  When no abbreviation stands twice in a row, the words of the
    normal form are the chosen words with every word between the first
    and the last replaced by its entry in [REPLACEMENTS], if it has
    one. *)
Theorem normalize_expands_inner_words (name : str) :
  no_repeated_abbreviation (kept_words name) →
  split (normalize name) = expanded (chosen_words name).
Proof.
  intros Hno. rewrite normalize_split.
  destruct (decide (kept_words name = [])) as [Hnil|Hkept].
  - pose proof (chosen_words_fallback name Hnil) as Hlen.
    unfold expand_words. by rewrite expand_with_short, expanded_short.
  - apply expand_words_expanded. by rewrite chosen_words_kept.
Qed.

(** The theorem for ["St Mary Rd, Ikeja St"]: only the inner ["rd"] is
    expanded. *)
Lemma normalize_expands_inner_words_witness :
  no_repeated_abbreviation (kept_words (py "St Mary Rd, Ikeja St"))
  ∧ split (normalize (py "St Mary Rd, Ikeja St"))
    = expanded (chosen_words (py "St Mary Rd, Ikeja St")).
Proof.
  assert (no_repeated_abbreviation (kept_words (py "St Mary Rd, Ikeja St")))
    as Hno.
  { apply (bool_decide_unpack _). by vm_compute. }
  split; [exact Hno|].
  exact (normalize_expands_inner_words _ Hno).
Defined.

(** ** Trigrams and the phonetic key *)

(** X6.  [generate_trigrams] returns the windows of three characters of
    the lower-cased text without its blanks, from left to right: there are
    two fewer than such characters, and the [i]-th is the characters [i],
    [i+1] and [i+2]. *)
Theorem trigrams_are_windows (text : str) :
  length (generate_trigrams text) = length (non_blank (lower text)) - 2
  ∧ ∀ i, i + 3 ≤ length (non_blank (lower text)) →
      generate_trigrams text !! i
      = Some (take 3 (drop i (non_blank (lower text)))).
Proof.
  unfold generate_trigrams. rewrite replace_blank.
  pose proof (length_non_blank_le (lower text)) as Hle.
  unfold lower in Hle at 2. rewrite length_fmap in Hle.
  case_bool_decide as Hlen.
  - split; [simpl; lia|]. intros i Hi. lia.
  - split; [apply windows3_length|apply windows3_lookup].
Qed.

(** X7.  On text of lower-case letters, digits and blanks, the phonetic
    key has at most ten characters, is empty only for the empty text, and
    has no vowel after its first character. *)
Theorem metaphone_key_shape (text : str) :
  Forall clean_char text →
  length (metaphone_simple text) ≤ 10
  ∧ (metaphone_simple text = [] ↔ text = [])
  ∧ Forall (fun c => ¬ is_vowel c) (tail (metaphone_simple text)).
Proof.
  intros _. unfold metaphone_simple.
  destruct text as [|c text].
  { simpl. split; [lia|]. split; [done|constructor]. }
  change (upper (c :: text)) with (upper_char c :: upper text). cbv zeta.
  split; [rewrite length_take; lia|]. split.
  - split; [|done]. intros Hnil. exfalso.
    apply (f_equal length) in Hnil. rewrite length_take in Hnil.
    assert (∀ n m, n `min` m = 0 → m = 0 ∨ n = 0) as Hmin by lia.
    apply Hmin in Hnil as [Hnil|]; [|done]. apply nil_length_inv in Hnil.
    unfold metaphone_replacements in Hnil. cbn [foldl fst snd] in Hnil.
    repeat (apply replace_go_nil_iff in Hnil; [|done]).
    apply (proj1 (squeeze_nil_iff _)) in Hnil. discriminate.
  - apply Forall_tail_take.
    assert (∀ new : str,
              bool_decide (Forall (fun c => ¬ is_vowel c) new) = true →
              Forall (fun c => ¬ is_vowel c) new) as Hdec
      by (intros new; apply bool_decide_eq_true_1).
    unfold metaphone_replacements. cbn [foldl fst snd].
    repeat (apply replace_Forall_tail; [by apply Hdec|]).
    apply squeeze_Forall_tail. simpl. apply drop_vowels_Forall.
Qed.

(** The theorem for ["sangotedo"]. *)
Lemma metaphone_key_shape_witness :
  Forall clean_char (py "sangotedo")
  ∧ length (metaphone_simple (py "sangotedo")) ≤ 10
  ∧ (metaphone_simple (py "sangotedo") = [] ↔ py "sangotedo" = [])
  ∧ Forall (fun c => ¬ is_vowel c) (tail (metaphone_simple (py "sangotedo"))).
Proof.
  assert (Forall clean_char (py "sangotedo")) as Hclean
    by (by apply clean_chars_decide).
  split; [exact Hclean|].
  exact (metaphone_key_shape _ Hclean).
Defined.

(** X8.  The phonetic key forgives two kinds of typing slips in such
    text: a vowel put in after the first character, and a character typed
    twice, leave the key as it was. *)
Theorem metaphone_tolerates_typos (c : ascii) (s1 s2 : str) :
  Forall clean_char (c :: s1 ++ s2) →
  (∀ v, v ∈ py "aeiou" →
     metaphone_simple (c :: s1 ++ v :: s2) = metaphone_simple (c :: s1 ++ s2))
  ∧ (∀ x, clean_char x →
       metaphone_simple (c :: s1 ++ x :: x :: s2)
       = metaphone_simple (c :: s1 ++ x :: s2))
  ∧ metaphone_simple (c :: c :: s1 ++ s2) = metaphone_simple (c :: s1 ++ s2).
Proof.
  intros Hclean. split; [|split].
  - intros v Hv. apply metaphone_ignores_inner_vowels.
    apply list_elem_of_In in Hv. apply list_elem_of_In. simpl in *. tauto.
  - intros x Hx. unfold metaphone_simple.
    change (upper (c :: s1 ++ x :: x :: s2))
      with (upper_char c :: upper (s1 ++ x :: x :: s2)).
    change (upper (c :: s1 ++ x :: s2))
      with (upper_char c :: upper (s1 ++ x :: s2)).
    cbv zeta. unfold upper. rewrite !fmap_app, !fmap_cons, !drop_vowels_app.
    cbn [drop_vowels List.filter].
    destruct (negb (is_vowel (upper_char x))); [|done].
    rewrite !app_comm_cons.
    by rewrite squeeze_doubled by (by apply clean_upper_not_LF).
  - unfold metaphone_simple.
    change (upper (c :: c :: s1 ++ s2))
      with (upper_char c :: upper_char c :: upper (s1 ++ s2)).
    change (upper (c :: s1 ++ s2)) with (upper_char c :: upper (s1 ++ s2)).
    cbv zeta. cbn [drop_vowels List.filter].
    destruct (negb (is_vowel (upper_char c))); [|done].
    assert (upper_char c ≠ LF) as Hne
      by (apply clean_upper_not_LF; by inversion Hclean).
    match goal with
    | |- context [squeeze (?a :: ?a :: ?r)] =>
        by rewrite (squeeze_doubled [] a r Hne
                    : squeeze (a :: a :: r) = squeeze (a :: r))
    end.
Qed.

(** The theorem for ["sangotedo"], split after ["sang"]. *)
Lemma metaphone_tolerates_typos_witness :
  Forall clean_char ("s"%char :: py "ang" ++ py "otedo")
  ∧ (∀ v, v ∈ py "aeiou" →
       metaphone_simple ("s"%char :: py "ang" ++ v :: py "otedo")
       = metaphone_simple ("s"%char :: py "ang" ++ py "otedo"))
  ∧ (∀ x, clean_char x →
       metaphone_simple ("s"%char :: py "ang" ++ x :: x :: py "otedo")
       = metaphone_simple ("s"%char :: py "ang" ++ x :: py "otedo"))
  ∧ metaphone_simple ("s"%char :: "s"%char :: py "ang" ++ py "otedo")
    = metaphone_simple ("s"%char :: py "ang" ++ py "otedo").
Proof.
  assert (Forall clean_char ("s"%char :: py "ang" ++ py "otedo")) as Hclean
    by (by apply clean_chars_decide).
  split; [exact Hclean|].
  exact (metaphone_tolerates_typos "s" (py "ang") (py "otedo") Hclean).
Defined.

(** ** Similarity and the name match *)

(** X9.  [calculate_similarity] is symmetric. *)
Theorem similarity_is_symmetric (str1 str2 : str) :
  calculate_similarity str1 str2 = calculate_similarity str2 str1.
Proof. apply calculate_similarity_comm. Qed.

(** X10.  Two non-empty strings that are equal up to letter case have
    similarity 1, whether or not they have a trigram. *)
Theorem similarity_of_equal_names (str1 str2 : str) :
  str1 ≠ [] → lower str1 = lower str2 →
  (calculate_similarity str1 str2 == 1)%Q.
Proof. apply calculate_similarity_same. Qed.

(** The theorem for ["VI"] and ["vi"], which have no trigram. *)
Lemma similarity_of_equal_names_witness :
  py "VI" ≠ [] ∧ lower (py "VI") = lower (py "vi")
  ∧ (calculate_similarity (py "VI") (py "vi") == 1)%Q.
Proof.
  assert (py "VI" ≠ []) as Hne by done.
  assert (lower (py "VI") = lower (py "vi")) as Heq by reflexivity.
  split; [exact Hne|]. split; [exact Heq|].
  exact (similarity_of_equal_names _ _ Hne Heq).
Defined.

(** X11.  [_is_name_match] is symmetric, every name matches itself, and
    the empty name matches every name. *)
Theorem name_match_is_symmetric (a b : str) :
  _is_name_match a b = _is_name_match b a
  ∧ _is_name_match a a = true
  ∧ _is_name_match [] b = true.
Proof.
  split; [apply is_name_match_comm|]. split.
  - unfold _is_name_match. by rewrite bool_decide_eq_true_2.
  - apply is_name_match_empty.
Qed.

(** ** [generate_variants] *)

(** X12.  The variants of a name are, without repetition, its normal
    form, the name stripped and lower-cased, and the normal form followed
    by a blank and each of ["lagos"], ["ajah"] and ["lekki"] that is not a
    substring of it: between one and five strings.  For a name whose
    normal form is empty, the three areas are variants with a blank in
    front. *)
Theorem variants_of_a_name (name : str) :
  NoDup (generate_variants name)
  ∧ 1 ≤ length (generate_variants name) ≤ 5
  ∧ (∀ v, v ∈ generate_variants name
       ↔ v = normalize name ∨ v = strip (lower name)
         ∨ ∃ area, area ∈ common_areas
             ∧ contains area (normalize name) = false
             ∧ v = normalize name ++ py " " ++ area)
  ∧ (normalize name = [] →
     ∀ area, area ∈ common_areas → py " " ++ area ∈ generate_variants name).
Proof.
  unfold generate_variants. split; [apply NoDup_elements|].
  split; [apply variant_set_size|].
  assert (∀ v, v ∈ elements (variant_set name)
            ↔ v = normalize name ∨ v = strip (lower name)
              ∨ ∃ area, area ∈ common_areas
                  ∧ contains area (normalize name) = false
                  ∧ v = normalize name ++ py " " ++ area) as Hiff.
  { intros v. rewrite elem_of_elements. apply elem_of_variant_set. }
  split; [exact Hiff|]. intros Hnil area Ha. apply Hiff.
  right. right. exists area. rewrite Hnil. split; [done|]. split; [|done].
  apply list_elem_of_In in Ha. simpl in Ha.
  destruct Ha as [<-|[<-|[<-|[]]]]; reflexivity.
Qed.

(** ** The stores that [find_or_create_bucket] builds *)

(** X13.  [find_or_create_bucket] keeps the index consistent: no row is
    removed or changed, the rows keep distinct pairs of name and bucket
    and the columns derived from the name, and afterwards the index has
    the row of the name and the bucket returned.  Every trigram of a row
    has three characters and every phonetic key at most ten, which the
    columns allow. *)
Theorem assign_keeps_index_consistent {grid : H3} {db : Database}
    (lat lng : Q) (name : str) (st : Store) :
  index_ok st →
  ∃ st' bucket,
    find_or_create_bucket lat lng name st = (st', Ok bucket)
    ∧ index_ok st'
    ∧ location_index st `prefix_of` location_index st'
    ∧ (∃ index, index ∈ location_index st'
         ∧ LocationIndex.original_name index = name
         ∧ LocationIndex.bucket_id index = GeoBucket.id bucket
         ∧ LocationIndex.normalized_name index = normalize name)
    ∧ Forall (fun i => length (LocationIndex.metaphone i) ≤ 10
                       ∧ Forall (fun t => length t = 3)
                                (LocationIndex.trigrams i))
             (location_index st').
Proof.
  intros Hok.
  destruct (find_or_create_bucket_index lat lng name st)
    as (st' & bucket & Hcall & Hkey & Hprefix & Hkeep).
  specialize (Hkeep Hok). destruct Hkeep as [Hrows Hkeys].
  exists st', bucket. split; [done|]. split; [done|]. split; [done|].
  rewrite Forall_forall in Hrows. split.
  - apply list_elem_of_fmap in Hkey as (index & Hkey & Hin).
    injection Hkey as Hname Hid. exists index.
    destruct (Hrows index Hin) as (Hnorm & _).
    by rewrite Hnorm, <- Hname.
  - apply Forall_forall. intros i Hi.
    destruct (Hrows i Hi) as (_ & -> & ->). split.
    + unfold metaphone_simple. destruct (upper _); [simpl; lia|].
      cbv zeta. rewrite length_take. lia.
    + apply generate_trigrams_length3.
Qed.

(** The theorem for a second name, "Allen Avenue", in the cell of the
    bucket "ikeja". *)
Lemma assign_keeps_index_consistent_witness :
  let st := Toy.assign (6.6018) (3.3569) "Ikeja" empty_store in
  index_ok st
  ∧ ∃ st' bucket,
      find_or_create_bucket (grid := Toy.grid) (db := Toy.db)
        (6.6018) (3.3569) (py "Allen Avenue") st = (st', Ok bucket)
      ∧ index_ok st'
      ∧ location_index st `prefix_of` location_index st'
      ∧ (∃ index, index ∈ location_index st'
           ∧ LocationIndex.original_name index = py "Allen Avenue"
           ∧ LocationIndex.bucket_id index = GeoBucket.id bucket
           ∧ LocationIndex.normalized_name index
             = normalize (py "Allen Avenue"))
      ∧ Forall (fun i => length (LocationIndex.metaphone i) ≤ 10
                         ∧ Forall (fun t => length t = 3)
                                  (LocationIndex.trigrams i))
               (location_index st').
Proof.
  destruct (well_formed_step (grid := Toy.grid) (db := Toy.db)
              (6.6018) (3.3569) (py "Ikeja") empty_store well_formed_empty)
    as (_ & _ & Hindex & _).
  split; [exact Hindex|].
  exact (assign_keeps_index_consistent (grid := Toy.grid) (db := Toy.db)
           (6.6018) (3.3569) (py "Allen Avenue") _ Hindex).
Defined.

(** What [find_or_create_bucket] does to the rows of [geo_buckets]. *)
Lemma find_or_create_bucket_rows {grid : H3} {db : Database}
    (lat lng : Q) (name : str) (st : Store) :
  store_ok st →
  ∃ st' bucket,
    find_or_create_bucket lat lng name st = (st', Ok bucket)
    ∧ GeoBucket.id <$> geo_buckets st
      `prefix_of` GeoBucket.id <$> geo_buckets st'
    ∧ length (geo_buckets st') ≤ S (length (geo_buckets st))
    ∧ (∀ row, row ∈ geo_buckets st →
         GeoBucket.h3_index row ≠ calculate_h3_index lat lng →
         row ∈ geo_buckets st')
    ∧ (∀ row, row ∈ geo_buckets st →
         GeoBucket.h3_index row = calculate_h3_index lat lng →
         GeoBucket.id bucket = GeoBucket.id row
         ∧ GeoBucket.centroid bucket = GeoBucket.centroid row
         ∧ GeoBucket.normalized_name bucket = GeoBucket.normalized_name row
         ∧ GeoBucket.property_count bucket = GeoBucket.property_count row
         ∧ GeoBucket.variant_names bucket
           = GeoBucket.variant_names row
             ++ (if decide (name = [] ∨ name ∈ GeoBucket.variant_names row)
                 then [] else [name]))
    ∧ (calculate_h3_index lat lng ∈ GeoBucket.h3_index <$> geo_buckets st →
       length (geo_buckets st') = length (geo_buckets st))
    ∧ (calculate_h3_index lat lng ∉ GeoBucket.h3_index <$> geo_buckets st →
       geo_buckets st' = geo_buckets st ++ [bucket]).
Proof.
  intros (Hcells & Hids & _).
  unfold find_or_create_bucket, find_or_create_bucket_among.
  destruct (first_by_h3_index st (calculate_h3_index lat lng))
    as [found|] eqn:Hfirst.
  - apply first_by_h3_index_Some in Hfirst as [Hin Hcell].
    destruct (found_bucket_result found name st)
      as (st' & -> & Hrows & _).
    exists st', (with_variant found name).
    split; [done|]. rewrite Hrows, rows_with_variant_ids.
    split; [done|]. split.
    { apply (f_equal length) in Hrows.
      pose proof (f_equal length (rows_with_variant_ids found name
                                    (geo_buckets st))) as Hlen.
      rewrite !length_fmap in Hlen. lia. }
    split; [|split; [|split]].
    + intros row Hrow Hother. apply rows_with_variant_other; [done|].
      intros Hid. apply Hother. rewrite <- Hcell. f_equal.
      by apply (same_row GeoBucket.id (geo_buckets st)).
    + intros row Hrow Hsame.
      assert (row = found) as ->.
      { apply (same_row GeoBucket.h3_index (geo_buckets st)); try done.
        by rewrite Hcell. }
      destruct (with_variant_fields found name)
        as (? & ? & ? & ? & ? & ?). done.
    + intros _.
      pose proof (f_equal length (rows_with_variant_ids found name
                                    (geo_buckets st))) as Hlen.
      by rewrite !length_fmap in Hlen.
    + intros Hno. destruct Hno. rewrite <- Hcell.
      by apply list_elem_of_fmap_2.
  - apply first_by_h3_index_None in Hfirst.
    destruct (create_bucket_fresh _ name st Hfirst)
      as (st' & -> & Hrows & _).
    eexists _, _. split; [done|]. rewrite Hrows.
    split; [rewrite fmap_app; by apply prefix_app_r|].
    split; [rewrite length_app; simpl; lia|]. split; [|split; [|split]].
    + intros row Hrow _. apply elem_of_app. by left.
    + intros row Hrow Hsame. exfalso. apply Hfirst. rewrite <- Hsame.
      by apply list_elem_of_fmap_2.
    + intros Hyes. by destruct Hfirst.
    + done.
Qed.

(** X14.  On a store with one bucket per cell, [find_or_create_bucket]
    removes no bucket and adds at most one, leaves the buckets of other
    cells as they are, and changes of the bucket of its cell nothing but
    the variant names, to which it appends the name if it is new and not
    empty: the canonical name and the centroid of a bucket stay those of
    its creation.  The table keeps its length when it has a bucket of
    the cell and gets the new bucket at its end when it has none.  The
    bucket returned is the row that the store has for the cell after the
    call, and the only one. *)
Theorem assign_keeps_other_buckets {grid : H3} {db : Database}
    (lat lng : Q) (name : str) (st : Store) :
  store_ok st →
  ∃ st' bucket,
    find_or_create_bucket lat lng name st = (st', Ok bucket)
    ∧ GeoBucket.id <$> geo_buckets st
      `prefix_of` GeoBucket.id <$> geo_buckets st'
    ∧ length (geo_buckets st') ≤ S (length (geo_buckets st))
    ∧ (∀ row, row ∈ geo_buckets st →
         GeoBucket.h3_index row ≠ calculate_h3_index lat lng →
         row ∈ geo_buckets st')
    ∧ (∀ row, row ∈ geo_buckets st →
         GeoBucket.h3_index row = calculate_h3_index lat lng →
         GeoBucket.id bucket = GeoBucket.id row
         ∧ GeoBucket.centroid bucket = GeoBucket.centroid row
         ∧ GeoBucket.normalized_name bucket = GeoBucket.normalized_name row
         ∧ GeoBucket.property_count bucket = GeoBucket.property_count row
         ∧ GeoBucket.variant_names bucket
           = GeoBucket.variant_names row
             ++ (if decide (name = [] ∨ name ∈ GeoBucket.variant_names row)
                 then [] else [name]))
    ∧ (calculate_h3_index lat lng ∈ GeoBucket.h3_index <$> geo_buckets st →
       length (geo_buckets st') = length (geo_buckets st))
    ∧ (calculate_h3_index lat lng ∉ GeoBucket.h3_index <$> geo_buckets st →
       geo_buckets st' = geo_buckets st ++ [bucket])
    ∧ bucket ∈ geo_buckets st'
    ∧ GeoBucket.h3_index bucket = calculate_h3_index lat lng
    ∧ (∀ row, row ∈ geo_buckets st' →
         GeoBucket.h3_index row = calculate_h3_index lat lng →
         row = bucket).
Proof.
  intros Hok.
  destruct (find_or_create_bucket_rows lat lng name st Hok)
    as (st' & bucket & Hcall & Hids & Hlen & Hother & Hsame & Hold & Hnew).
  destruct (find_or_create_bucket_step lat lng name st Hok)
    as (st1 & bucket1 & Hcall1 & (Hcells' & _) & Hin' & Hcell' & _).
  rewrite Hcall in Hcall1. injection Hcall1 as <- <-.
  exists st', bucket. split; [done|]. split; [done|]. split; [done|].
  split; [done|]. split; [done|]. split; [done|]. split; [done|].
  split; [done|]. split; [done|].
  intros row Hrow Hcell.
  apply (same_row GeoBucket.h3_index (geo_buckets st')); [done..|].
  by rewrite Hcell.
Qed.

(** The theorem for "Allen Avenue" in the cell of the bucket "ikeja",
    beside the bucket "yaba". *)
Lemma assign_keeps_other_buckets_witness :
  let st := Toy.assign (6.5244) (3.3792) "Yaba"
              (Toy.assign (6.6018) (3.3569) "Ikeja" empty_store) in
  store_ok st
  ∧ ∃ st' bucket,
      find_or_create_bucket (grid := Toy.grid) (db := Toy.db)
        (6.6018) (3.3569) (py "Allen Avenue") st = (st', Ok bucket)
      ∧ GeoBucket.id <$> geo_buckets st
        `prefix_of` GeoBucket.id <$> geo_buckets st'
      ∧ length (geo_buckets st') ≤ S (length (geo_buckets st))
      ∧ (∀ row, row ∈ geo_buckets st →
           GeoBucket.h3_index row
           ≠ calculate_h3_index (grid := Toy.grid) (6.6018) (3.3569) →
           row ∈ geo_buckets st')
      ∧ (∀ row, row ∈ geo_buckets st →
           GeoBucket.h3_index row
           = calculate_h3_index (grid := Toy.grid) (6.6018) (3.3569) →
           GeoBucket.id bucket = GeoBucket.id row
           ∧ GeoBucket.centroid bucket = GeoBucket.centroid row
           ∧ GeoBucket.normalized_name bucket = GeoBucket.normalized_name row
           ∧ GeoBucket.property_count bucket = GeoBucket.property_count row
           ∧ GeoBucket.variant_names bucket
             = GeoBucket.variant_names row
               ++ (if decide (py "Allen Avenue" = []
                              ∨ py "Allen Avenue"
                                ∈ GeoBucket.variant_names row)
                   then [] else [py "Allen Avenue"]))
      ∧ (calculate_h3_index (grid := Toy.grid) (6.6018) (3.3569)
         ∈ GeoBucket.h3_index <$> geo_buckets st →
         length (geo_buckets st') = length (geo_buckets st))
      ∧ (calculate_h3_index (grid := Toy.grid) (6.6018) (3.3569)
         ∉ GeoBucket.h3_index <$> geo_buckets st →
         geo_buckets st' = geo_buckets st ++ [bucket])
      ∧ bucket ∈ geo_buckets st'
      ∧ GeoBucket.h3_index bucket
        = calculate_h3_index (grid := Toy.grid) (6.6018) (3.3569)
      ∧ (∀ row, row ∈ geo_buckets st' →
           GeoBucket.h3_index row
           = calculate_h3_index (grid := Toy.grid) (6.6018) (3.3569) →
           row = bucket).
Proof.
  pose proof (well_formed_step (grid := Toy.grid) (db := Toy.db)
                (6.5244) (3.3792) (py "Yaba") _
                (well_formed_step (grid := Toy.grid) (db := Toy.db)
                   (6.6018) (3.3569) (py "Ikeja") empty_store
                   well_formed_empty)) as (Hstore & _).
  split; [exact Hstore|].
  exact (assign_keeps_other_buckets (grid := Toy.grid) (db := Toy.db)
           (6.6018) (3.3569) (py "Allen Avenue") _ Hstore).
Defined.

(** X15.  [geocode_location] returns nothing exactly when no bucket has
    the normal form of the name as canonical name, letter case apart;
    otherwise it returns latitude and longitude of the centroid of such a
    bucket.  Variant names are not looked at. *)
Theorem geocode_reads_canonical_names {db : Database}
    (st : Store) (location_name : str) :
  (geocode_location st location_name = None
   ↔ ∀ bucket, bucket ∈ geo_buckets st →
       upper (GeoBucket.normalized_name bucket)
       ≠ upper (normalize location_name))
  ∧ ∀ lat lng, geocode_location st location_name = Some (lat, lng) →
      ∃ bucket, bucket ∈ geo_buckets st
        ∧ upper (GeoBucket.normalized_name bucket)
          = upper (normalize location_name)
        ∧ GeoBucket.centroid bucket = (lng, lat).
Proof.
  unfold geocode_location. cbv zeta.
  pose proof (head_order_filter
                (fun b => upper (GeoBucket.normalized_name b)
                          = upper (normalize location_name))
                (geo_buckets st)) as Hhead.
  destruct (head _) as [b|].
  - destruct Hhead as [Hin Hname]. split.
    + split; [done|]. intros Hno. by destruct (Hno b Hin).
    + intros lat lng [= <- <-]. exists b. split; [done|]. split; [done|].
      by destruct (GeoBucket.centroid b).
  - split; [|done]. split; [|done]. intros _ bucket Hin.
    rewrite Forall_forall in Hhead. by apply Hhead.
Qed.

(** X16.  [find_or_create_bucket] stores the centre of the cell as
    centroid, not the coordinates passed in: if every bucket has the
    centre of its cell, so it is after the call, [get_bucket_details]
    lists the centre of each bucket's cell as latitude and longitude, and
    [geocode_location] of a name that only the new bucket carries gives
    the centre of the cell of the coordinates. *)
Theorem assign_stores_cell_centres {grid : H3} {db : Database}
    (lat lng : Q) (name : str) (st : Store) :
  centroids_ok st →
  ∃ st' bucket,
    find_or_create_bucket lat lng name st = (st', Ok bucket)
    ∧ centroids_ok st'
    ∧ Forall (fun d => BucketDetail.centroid d
                       = h3_to_coordinates (BucketDetail.h3_index d))
             (get_bucket_details st')
    ∧ ((∀ row, row ∈ geo_buckets st →
          upper (GeoBucket.normalized_name row) ≠ upper (normalize name)) →
       first_by_h3_index st (calculate_h3_index lat lng) = None →
       geocode_location st' name
       = Some (h3_to_coordinates (calculate_h3_index lat lng))).
Proof.
  intros Hok.
  assert (∀ st', centroids_ok st' →
            Forall (fun d => BucketDetail.centroid d
                             = h3_to_coordinates (BucketDetail.h3_index d))
                   (get_bucket_details st')) as Hdetails.
  { intros st' Hst'. unfold get_bucket_details. cbv zeta.
    apply Forall_fmap. rewrite bucket_order_perm.
    apply filter_keeps. eapply Forall_impl; [exact Hst'|].
    intros b Hb. simpl. rewrite Hb. simpl.
    by destruct (h3_to_coordinates (GeoBucket.h3_index b)). }
  unfold find_or_create_bucket, find_or_create_bucket_among.
  destruct (first_by_h3_index st (calculate_h3_index lat lng))
    as [found|] eqn:Hfirst.
  - destruct (found_bucket_result found name st)
      as (st' & -> & Hrows & _).
    assert (centroids_ok st') as Hok'.
    { unfold centroids_ok. rewrite Hrows.
      apply rows_with_variant_Forall; [|done].
      intros pk names row Hrow. unfold set_variant_names.
      by case_decide. }
    eexists _, _. split; [done|]. split; [done|].
    split; [by apply Hdetails|]. done.
  - pose proof Hfirst as Hnone. apply first_by_h3_index_None in Hfirst.
    destruct (create_bucket_fresh _ name st Hfirst)
      as (st' & -> & Hrows & _).
    assert (centroids_ok st') as Hok'.
    { unfold centroids_ok. rewrite Hrows. apply Forall_app.
      split; [done|]. by repeat constructor. }
    eexists _, _. split; [done|]. split; [done|].
    split; [by apply Hdetails|]. intros Hnames _.
    unfold geocode_location. cbv zeta. rewrite Hrows, filter_app.
    rewrite (filter_none_2 _ (geo_buckets st))
      by (by apply Forall_forall).
    rewrite filter_cons_True by done. rewrite filter_nil. simpl.
    pose proof (bucket_order_perm [new_bucket st (calculate_h3_index lat lng)
                                     name]) as Hperm.
    apply Permutation_singleton_r in Hperm. rewrite Hperm. simpl.
    by destruct (h3_to_coordinates (calculate_h3_index lat lng)).
Qed.

(** The theorem for "Ikeja" on the store of the bucket "yaba". *)
Lemma assign_stores_cell_centres_witness :
  let st := Toy.assign (6.5244) (3.3792) "Yaba" empty_store in
  centroids_ok (grid := Toy.grid) st
  ∧ ∃ st' bucket,
      find_or_create_bucket (grid := Toy.grid) (db := Toy.db)
        (6.6018) (3.3569) (py "Ikeja") st = (st', Ok bucket)
      ∧ centroids_ok (grid := Toy.grid) st'
      ∧ Forall (fun d => BucketDetail.centroid d
                         = h3_to_coordinates (grid := Toy.grid)
                             (BucketDetail.h3_index d))
               (get_bucket_details (db := Toy.db) st')
      ∧ ((∀ row, row ∈ geo_buckets st →
            upper (GeoBucket.normalized_name row)
            ≠ upper (normalize (py "Ikeja"))) →
         first_by_h3_index (db := Toy.db) st
           (calculate_h3_index (grid := Toy.grid) (6.6018) (3.3569)) = None →
         geocode_location (db := Toy.db) st' (py "Ikeja")
         = Some (h3_to_coordinates (grid := Toy.grid)
                   (calculate_h3_index (grid := Toy.grid) (6.6018) (3.3569)))).
Proof.
  destruct (well_formed_step (grid := Toy.grid) (db := Toy.db)
              (6.5244) (3.3792) (py "Yaba") empty_store well_formed_empty)
    as (_ & _ & _ & Hcentres).
  split; [exact Hcentres|].
  exact (assign_stores_cell_centres (grid := Toy.grid) (db := Toy.db)
           (6.6018) (3.3569) (py "Ikeja") _ Hcentres).
Defined.

(** X17.  Every store that calls of [find_or_create_bucket] build from
    the empty store has one bucket per cell and per key, variant lists
    without repetition, index rows that name stored buckets and are
    derived from their names, and the centres of the cells as
    centroids. *)
Theorem assign_builds_well_formed_stores {grid : H3} {db : Database}
    (calls : list (Q * Q * str)) :
  well_formed
    (foldl (fun st call =>
              (find_or_create_bucket call.1.1 call.1.2 call.2 st).1)
           empty_store calls).
Proof.
  assert (∀ st, well_formed st →
            well_formed
              (foldl (fun st call =>
                        (find_or_create_bucket call.1.1 call.1.2 call.2 st).1)
                     st calls)) as Hall.
  { induction calls as [|call calls IH]; intros st Hst; [done|].
    simpl. apply IH. by apply well_formed_step. }
  apply Hall, well_formed_empty.
Qed.

(** ** The cascade *)

(** X18.  [_deduplicate_buckets] changes nothing in its own result nor in
    a list whose identities are distinct, and its result for a list is
    the beginning of its result for the list with more buckets after
    it. *)
Theorem deduplicate_is_idempotent (buckets more : list GeoBucket.t) :
  _deduplicate_buckets (_deduplicate_buckets buckets)
  = _deduplicate_buckets buckets
  ∧ (NoDup (GeoBucket.id <$> buckets) → _deduplicate_buckets buckets = buckets)
  ∧ _deduplicate_buckets buckets
    `prefix_of` _deduplicate_buckets (buckets ++ more).
Proof.
  assert (∀ l, NoDup (GeoBucket.id <$> l) → _deduplicate_buckets l = l)
    as Hfixed.
  { intros l Hnd. apply deduplicate_from_fixed; [done|].
    intros b _. apply not_elem_of_empty. }
  split; [apply Hfixed, deduplicate_from_NoDup|].
  split; [apply Hfixed|apply deduplicate_from_prefix].
Qed.

(** X19.  Coordinates that the cascade cannot use are ignored: when one of
    them is missing, or they lie outside latitudes 4 to 14 and longitudes
    3 to 15, [find_matching_buckets] sends and returns what it does
    without coordinates. *)
Theorem unusable_coordinates_are_ignored {grid : H3} {db : Database}
    (st : Store) (term : str) (lat lng : option Q) (min_results : Z) :
  lat = None ∨ lng = None
  ∨ (∃ x y, lat = Some x ∧ lng = Some y
       ∧ ¬ ((4 <= x)%Q ∧ (x <= 14)%Q ∧ (3 <= y)%Q ∧ (y <= 15)%Q)) →
  find_matching_buckets st term lat lng min_results
  = find_matching_buckets st term None None min_results.
Proof.
  intros Hcoords. unfold find_matching_buckets.
  destruct term as [|c term]; [done|].
  destruct (_exact_name_match st (normalize (c :: term))) as [sent [exact|e]];
    [|done].
  unfold mbind, M_bind. cbn [app].
  case_bool_decide; [done|].
  destruct Hcoords as [->| [->|(x & y & -> & -> & Hout)]]; [done| |].
  - by destruct lat.
  - destruct (_validate_coords x y) eqn:Hv; [|done].
    by apply validate_coords_true in Hv.
Qed.

(** The theorem for coordinates in London. *)
Lemma unusable_coordinates_are_ignored_witness :
  let st := Toy.assign (6.6018) (3.3569) "Ikeja" empty_store in
  (Some (51.5)%Q = None ∨ Some (-0.12)%Q = None
   ∨ (∃ x y, Some (51.5)%Q = Some x ∧ Some (-0.12)%Q = Some y
        ∧ ¬ ((4 <= x)%Q ∧ (x <= 14)%Q ∧ (3 <= y)%Q ∧ (y <= 15)%Q)))
  ∧ find_matching_buckets (grid := Toy.grid) (db := Toy.db) st (py "ikeja")
      (Some (51.5)%Q) (Some (-0.12)%Q) DEFAULT_MIN_RESULTS
    = find_matching_buckets (grid := Toy.grid) (db := Toy.db) st (py "ikeja")
        None None DEFAULT_MIN_RESULTS.
Proof.
  assert (Some (51.5)%Q = None ∨ Some (-0.12)%Q = None
          ∨ (∃ x y, Some (51.5)%Q = Some x ∧ Some (-0.12)%Q = Some y
               ∧ ¬ ((4 <= x)%Q ∧ (x <= 14)%Q ∧ (3 <= y)%Q ∧ (y <= 15)%Q)))
    as Hout.
  { right. right. exists (51.5)%Q, (-0.12)%Q. split; [done|]. split; [done|].
    intros (_ & Hle & _). by vm_compute in Hle. }
  split; [exact Hout|].
  exact (unusable_coordinates_are_ignored (grid := Toy.grid) (db := Toy.db)
           _ (py "ikeja") _ _ DEFAULT_MIN_RESULTS Hout).
Defined.

(** X20.  With the foreign key of the index in place, a non-empty query
    returns every bucket whose canonical name is the normal form of the
    query, letter case apart, whatever the coordinates and
    [min_results]. *)
Theorem match_returns_every_bucket_of_that_name {grid : H3} {db : Database}
    (st : Store) (term : str) (lat lng : option Q) (min_results : Z) :
  references_ok st → term ≠ [] →
  ∃ sent result,
    find_matching_buckets st term lat lng min_results = (sent, Ok result)
    ∧ ∀ bucket, bucket ∈ geo_buckets st →
        upper (GeoBucket.normalized_name bucket) = upper (normalize term) →
        GeoBucket.id bucket ∈ GeoBucket.id <$> result.
Proof. apply exact_name_is_found. Qed.

(** The theorem for the query "IKEJA" on a store of two buckets. *)
Lemma match_returns_every_bucket_of_that_name_witness :
  let st := Toy.assign (6.5244) (3.3792) "Yaba"
              (Toy.assign (6.6018) (3.3569) "Ikeja" empty_store) in
  references_ok st ∧ py "IKEJA" ≠ []
  ∧ ∃ sent result,
      find_matching_buckets (grid := Toy.grid) (db := Toy.db) st (py "IKEJA")
        None None DEFAULT_MIN_RESULTS = (sent, Ok result)
      ∧ ∀ bucket, bucket ∈ geo_buckets st →
          upper (GeoBucket.normalized_name bucket)
          = upper (normalize (py "IKEJA")) →
          GeoBucket.id bucket ∈ GeoBucket.id <$> result.
Proof.
  pose proof (well_formed_step (grid := Toy.grid) (db := Toy.db)
                (6.5244) (3.3792) (py "Yaba") _
                (well_formed_step (grid := Toy.grid) (db := Toy.db)
                   (6.6018) (3.3569) (py "Ikeja") empty_store
                   well_formed_empty)) as (_ & Href & _).
  assert (py "IKEJA" ≠ []) as Hterm by done.
  split; [exact Href|]. split; [exact Hterm|].
  exact (match_returns_every_bucket_of_that_name (grid := Toy.grid)
           (db := Toy.db) _ (py "IKEJA") None None DEFAULT_MIN_RESULTS
           Href Hterm).
Defined.

(** X21.  A name that was assigned is found again.  After
    [find_or_create_bucket] for a name with a non-empty normal form, a
    query for that name without coordinates returns the bucket of the
    call whenever Layer 1 finds fewer than [min_results] buckets, also
    when the bucket has another canonical name; and when the call has
    created the bucket, every query for the name returns it. *)
Theorem assigned_name_is_found {grid : H3} {db : Database}
    (lat lng : Q) (name : str) (st : Store) :
  references_ok st → index_ok st → normalize name ≠ [] →
  ∃ st' bucket,
    find_or_create_bucket lat lng name st = (st', Ok bucket)
    ∧ (∀ min_results,
         (Z.of_nat (length (exact_rows st' (normalize name))) < min_results)%Z →
         ∃ sent result,
           find_matching_buckets st' name None None min_results
           = (sent, Ok result)
           ∧ GeoBucket.id bucket ∈ GeoBucket.id <$> result)
    ∧ (first_by_h3_index st (calculate_h3_index lat lng) = None →
       ∀ lat' lng' min_results,
         ∃ sent result,
           find_matching_buckets st' name lat' lng' min_results
           = (sent, Ok result)
           ∧ GeoBucket.id bucket ∈ GeoBucket.id <$> result).
Proof.
  intros Href Hindex Hname.
  assert (name ≠ []) as Hne by (by intros ->).
  pose proof (find_or_create_bucket_references lat lng name st Href) as Href'.
  destruct (find_or_create_bucket_index lat lng name st)
    as (st' & bucket & Hcall & Hkey & _ & Hkeep).
  destruct (find_or_create_bucket_returns lat lng name st)
    as (st'' & bucket' & Hcall' & _ & Hstored).
  rewrite Hcall in Hcall'. injection Hcall' as <- <-.
  rewrite Hcall in Href'. cbn [fst] in Href'.
  exists st', bucket. split; [done|]. split.
  - intros min_results Hfew.
    apply list_elem_of_fmap in Hkey as (index & Hkey & Hin).
    injection Hkey as Horig Hid.
    destruct (Hkeep Hindex) as [Hrows _]. rewrite Forall_forall in Hrows.
    destruct (Hrows index Hin) as (Hnorm & _).
    rewrite Hid.
    apply indexed_name_is_found; try done. by rewrite Hnorm, <- Horig.
  - intros Hnone lat' lng' min_results.
    destruct (exact_name_is_found st' name lat' lng' min_results Href' Hne)
      as (sent & result & Hfind & Hall).
    exists sent, result. split; [done|]. apply Hall; [done|].
    apply first_by_h3_index_None in Hnone.
    destruct (create_bucket_fresh _ name st Hnone) as (st2 & Hcreate & _).
    unfold find_or_create_bucket, find_or_create_bucket_among in Hcall.
    destruct (first_by_h3_index st (calculate_h3_index lat lng)) eqn:Hf.
    { apply first_by_h3_index_Some in Hf as [Hf1 Hf2].
      destruct Hnone. rewrite <- Hf2. by apply list_elem_of_fmap_2. }
    rewrite Hcreate in Hcall. by injection Hcall as _ <-.
Qed.

(** The theorem for "Allen Avenue", assigned in the cell of the bucket
    "ikeja". *)
Lemma assigned_name_is_found_witness :
  let st := Toy.assign (6.6018) (3.3569) "Ikeja" empty_store in
  references_ok st ∧ index_ok st ∧ normalize (py "Allen Avenue") ≠ []
  ∧ ∃ st' bucket,
      find_or_create_bucket (grid := Toy.grid) (db := Toy.db)
        (6.6018) (3.3569) (py "Allen Avenue") st = (st', Ok bucket)
      ∧ (∀ min_results,
           (Z.of_nat (length (exact_rows (db := Toy.db) st'
                                (normalize (py "Allen Avenue"))))
            < min_results)%Z →
           ∃ sent result,
             find_matching_buckets (grid := Toy.grid) (db := Toy.db) st'
               (py "Allen Avenue") None None min_results
             = (sent, Ok result)
             ∧ GeoBucket.id bucket ∈ GeoBucket.id <$> result)
      ∧ (first_by_h3_index (db := Toy.db) st
           (calculate_h3_index (grid := Toy.grid) (6.6018) (3.3569)) = None →
         ∀ lat' lng' min_results,
           ∃ sent result,
             find_matching_buckets (grid := Toy.grid) (db := Toy.db) st'
               (py "Allen Avenue") lat' lng' min_results
             = (sent, Ok result)
             ∧ GeoBucket.id bucket ∈ GeoBucket.id <$> result).
Proof.
  destruct (well_formed_step (grid := Toy.grid) (db := Toy.db)
              (6.6018) (3.3569) (py "Ikeja") empty_store well_formed_empty)
    as (_ & Href & Hindex & _).
  assert (normalize (py "Allen Avenue") ≠ []) as Hname by (by vm_compute).
  split; [exact Href|]. split; [exact Hindex|]. split; [exact Hname|].
  exact (assigned_name_is_found (grid := Toy.grid) (db := Toy.db)
           (6.6018) (3.3569) (py "Allen Avenue") _ Href Hindex Hname).
Defined.

(** X22.  Layer 2 sends one statement, for the cells of the first ring
    around the coordinates, and returns the buckets of these cells whose
    canonical name, or the normal form of one of whose variant names,
    matches the query [n] by [_is_name_match].  A bucket of these cells
    with an empty canonical name is returned for every query, and every
    bucket of these cells for the empty query. *)
Theorem spatial_layer_matches {grid : H3} {db : Database}
    (st : Store) (n : str) (lat lng : Q) :
  ∃ buckets,
    _spatial_name_match st n lat lng
    = ([BucketsByCells (BucketService.get_h3_neighbors
                          (BucketService.calculate_h3_index lat lng))],
       Ok buckets)
    ∧ (∀ b, b ∈ buckets
         ↔ b ∈ geo_buckets st
           ∧ GeoBucket.h3_index b
             ∈ BucketService.get_h3_neighbors
                 (BucketService.calculate_h3_index lat lng)
           ∧ (_is_name_match n (GeoBucket.normalized_name b) = true
              ∨ ∃ v, v ∈ GeoBucket.variant_names b
                     ∧ _is_name_match n (normalize v) = true))
    ∧ (∀ b, b ∈ geo_buckets st →
         GeoBucket.h3_index b
         ∈ BucketService.get_h3_neighbors
             (BucketService.calculate_h3_index lat lng) →
         n = [] ∨ GeoBucket.normalized_name b = [] → b ∈ buckets).
Proof.
  eexists. split; [reflexivity|].
  assert (∀ b, b ∈ List.filter
                 (fun bucket =>
                    if _is_name_match n (GeoBucket.normalized_name bucket)
                    then true
                    else _check_variant_names n (GeoBucket.variant_names bucket))
                 (bucket_order
                    (filter (fun b => GeoBucket.h3_index b
                                      ∈ BucketService.get_h3_neighbors
                                          (BucketService.calculate_h3_index
                                             lat lng))
                            (geo_buckets st)))
         ↔ b ∈ geo_buckets st
           ∧ GeoBucket.h3_index b
             ∈ BucketService.get_h3_neighbors
                 (BucketService.calculate_h3_index lat lng)
           ∧ (_is_name_match n (GeoBucket.normalized_name b) = true
              ∨ ∃ v, v ∈ GeoBucket.variant_names b
                     ∧ _is_name_match n (normalize v) = true)) as Hiff.
  { intros b.
    rewrite list_elem_of_In, filter_In, <- list_elem_of_In.
    rewrite bucket_order_perm, list_elem_of_filter.
    rewrite <- check_variant_names_Exists.
    destruct (_is_name_match n (GeoBucket.normalized_name b));
      intuition congruence. }
  split; [exact Hiff|].
  intros b Hin Hcell Hempty. apply Hiff. split; [done|]. split; [done|].
  left. destruct Hempty as [->| ->].
  - apply is_name_match_empty.
  - apply is_name_match_nil_r.
Qed.

(** X23.  [_extended_spatial_match] sends one statement, for the cells of
    the first two rings, and returns the buckets of these cells whose
    canonical name shares a word with the query [n]; for a query without
    a word it returns no bucket. *)
Theorem extended_layer_matches {grid : H3} {db : Database}
    (st : Store) (n : str) (lat lng : Q) :
  ∃ buckets,
    _extended_spatial_match st n lat lng
    = ([BucketsByCells (BucketService.get_h3_neighbors_extended
                          (BucketService.calculate_h3_index lat lng))],
       Ok buckets)
    ∧ (∀ b, b ∈ buckets
         ↔ b ∈ geo_buckets st
           ∧ GeoBucket.h3_index b
             ∈ BucketService.get_h3_neighbors_extended
                 (BucketService.calculate_h3_index lat lng)
           ∧ ∃ w, w ∈ split n ∧ w ∈ split (GeoBucket.normalized_name b))
    ∧ (split n = [] → buckets = []).
Proof.
  eexists. split; [reflexivity|]. split.
  - intros b.
    rewrite list_elem_of_In, filter_In, <- list_elem_of_In.
    rewrite bucket_order_perm, list_elem_of_filter.
    cbv zeta. rewrite shared_word_iff. tauto.
  - intros Hnil. apply filter_false. intros b. cbv zeta.
    apply not_true_iff_false. rewrite shared_word_iff, Hnil.
    intros (w & Hw & _). by apply elem_of_nil in Hw.
Qed.

(** X24.  What [find_matching_buckets] sends to the store: the read of
    Layer 1 for the normal form of the query, the read of the first ring
    of cells only for coordinates that [_validate_coords] accepts, and
    the reads of Layer 3.  It never reads the second ring of cells, and
    it sends the phonetic read only for a non-empty key. *)
Theorem cascade_reads_first_ring_only {grid : H3} {db : Database}
    (st : Store) (term : str) (lat lng : option Q) (min_results : Z) :
  Forall (cascade_statement (normalize term) lat lng)
         (find_matching_buckets st term lat lng min_results).1.
Proof.
  unfold find_matching_buckets. destruct term as [|c term]; [constructor|].
  set (n := normalize (c :: term)).
  apply bind_sent; [by repeat constructor|]. intros exact. cbn [app].
  case_bool_decide; [constructor|].
  destruct lat as [x|], lng as [y|]; try apply fuzzy_layer_sent.
  destruct (_validate_coords x y) eqn:Hv; [|apply fuzzy_layer_sent].
  apply bind_sent.
  - constructor; [|constructor]. simpl. by exists x, y.
  - intros spatial. case_bool_decide; [constructor|apply fuzzy_layer_sent].
Qed.

(** ** The property counter and the writes of properties *)

Import Counts CountFacts.

(** X25.  The counter of a stored bucket goes up and down by one.  On a
    table with distinct keys, [increment_property_count] on a row of the
    table adds one to its count, returns the bucket as the refresh reads
    it back and leaves every other row as it is.  When the count was not
    negative, [decrement_property_count] on the bucket so returned
    restores the table and returns the bucket as it was; when it was
    negative, the decrement writes nothing and the count stays one up. *)
Theorem counter_goes_up_and_down (self : GeoBucket.t) (st : Store) :
  NoDup (GeoBucket.id <$> geo_buckets st) → self ∈ geo_buckets st →
  ∃ st1 bucket1,
    increment_property_count self st = (st1, Done bucket1)
    ∧ bucket1 ∈ geo_buckets st1
    ∧ GeoBucket.property_count bucket1
      = (GeoBucket.property_count self + 1)%Z
    ∧ (∀ row, row ∈ geo_buckets st → GeoBucket.id row ≠ GeoBucket.id self →
         row ∈ geo_buckets st1)
    ∧ ((0 ≤ GeoBucket.property_count self)%Z →
       ∃ st2, decrement_property_count bucket1 st1 = (st2, Done self)
              ∧ geo_buckets st2 = geo_buckets st)
    ∧ ((GeoBucket.property_count self < 0)%Z →
       decrement_property_count bucket1 st1 = (st1, Done bucket1)).
Proof.
  intros Hnd Hin.
  rewrite (increment_property_count_stored self st self) by done.
  set (bucket1 := add_to_property_count (GeoBucket.id self) 1 self).
  assert (GeoBucket.id bucket1 = GeoBucket.id self) as Hid
    by apply add_to_property_count_id.
  assert (bucket1 ∈ geo_buckets (counted (GeoBucket.id self) 1 st)) as Hin1
    by (simpl; by apply list_elem_of_fmap_2).
  assert (GeoBucket.property_count bucket1
          = (GeoBucket.property_count self + 1)%Z) as Hcount1.
  { unfold bucket1, add_to_property_count. by rewrite decide_True. }
  eexists _, _. split; [done|]. split; [done|]. split; [done|]. split.
  { intros row Hrow Hne. simpl. apply list_elem_of_fmap. exists row.
    split; [|done]. unfold add_to_property_count. by rewrite decide_False. }
  split.
  - intros Hcount.
    rewrite (decrement_property_count_stored bucket1 _ bucket1);
      [|simpl; by rewrite add_to_property_count_ids|done|done|lia].
    rewrite Hid. eexists. split.
    + f_equal. f_equal. unfold bucket1, add_to_property_count.
      rewrite decide_True by done. simpl. rewrite decide_True by done.
      destruct self. simpl. f_equal. lia.
    + simpl. rewrite add_to_property_count_twice. simpl.
      apply add_to_property_count_zero.
  - intros Hcount. unfold decrement_property_count.
    by rewrite bool_decide_eq_false_2 by lia.
Qed.

(** The theorem for the bucket of "Ajah" after one assignment. *)
Lemma counter_goes_up_and_down_witness :
  let st := Toy.assign (6.4667) (3.5833) "Ajah" empty_store in
  let self := GeoBucket.mk 1 (py "`") (0, 13 # 2)%Q (py "ajah") [py "Ajah"] 0 in
  NoDup (GeoBucket.id <$> geo_buckets st) ∧ self ∈ geo_buckets st
  ∧ ∃ st1 bucket1,
      increment_property_count self st = (st1, Done bucket1)
      ∧ bucket1 ∈ geo_buckets st1
      ∧ GeoBucket.property_count bucket1
        = (GeoBucket.property_count self + 1)%Z
      ∧ (∀ row, row ∈ geo_buckets st → GeoBucket.id row ≠ GeoBucket.id self →
           row ∈ geo_buckets st1)
      ∧ ((0 ≤ GeoBucket.property_count self)%Z →
         ∃ st2, decrement_property_count bucket1 st1 = (st2, Done self)
                ∧ geo_buckets st2 = geo_buckets st)
      ∧ ((GeoBucket.property_count self < 0)%Z →
         decrement_property_count bucket1 st1 = (st1, Done bucket1)).
Proof.
  assert (NoDup (GeoBucket.id
                 <$> geo_buckets
                       (Toy.assign (6.4667) (3.5833) "Ajah" empty_store)))
    as Hnd by (vm_compute; apply NoDup_singleton).
  assert (GeoBucket.mk 1 (py "`") (0, 13 # 2)%Q (py "ajah") [py "Ajah"] 0
          ∈ geo_buckets (Toy.assign (6.4667) (3.5833) "Ajah" empty_store))
    as Hin by (vm_compute; left).
  split; [exact Hnd|]. split; [exact Hin|].
  exact (counter_goes_up_and_down _ _ Hnd Hin).
Defined.

(** X26.  [decrement_property_count] tests the count the object holds,
    not the stored one.  An object that holds a count of 0 or less is
    returned as it is and nothing is written, whatever the table has; an
    object that holds a positive count takes one off the stored count of
    the row with its key, whatever that count is.  Both methods raise
    [DatabaseError] when no row has the key of the object.  On a row of
    the table itself the decrement never makes a count negative. *)
Theorem decrement_reads_the_held_count (self : GeoBucket.t) (st : Store) :
  ((GeoBucket.property_count self ≤ 0)%Z →
   decrement_property_count self st = (st, Done self))
  ∧ (GeoBucket.id self ∉ GeoBucket.id <$> geo_buckets st →
     increment_property_count self st = (st, Failed DatabaseError)
     ∧ ((0 < GeoBucket.property_count self)%Z →
        decrement_property_count self st = (st, Failed DatabaseError)))
  ∧ (NoDup (GeoBucket.id <$> geo_buckets st) →
     (0 < GeoBucket.property_count self)%Z →
     ∀ row, row ∈ geo_buckets st → GeoBucket.id row = GeoBucket.id self →
       ∃ st' bucket,
         decrement_property_count self st = (st', Done bucket)
         ∧ bucket ∈ geo_buckets st'
         ∧ GeoBucket.property_count bucket
           = (GeoBucket.property_count row - 1)%Z)
  ∧ (NoDup (GeoBucket.id <$> geo_buckets st) → self ∈ geo_buckets st →
     Forall (fun b => (0 ≤ GeoBucket.property_count b)%Z) (geo_buckets st) →
     Forall (fun b => (0 ≤ GeoBucket.property_count b)%Z)
            (geo_buckets (decrement_property_count self st).1)).
Proof.
  split; [|split; [|split]].
  - intros Hcount. unfold decrement_property_count.
    by rewrite bool_decide_eq_false_2 by lia.
  - intros Hgone. split.
    + unfold increment_property_count.
      by rewrite save_property_count_missing.
    + intros Hpos. unfold decrement_property_count.
      rewrite bool_decide_eq_true_2 by done.
      by rewrite save_property_count_missing.
  - intros Hnd Hpos row Hrow Hid.
    rewrite (decrement_property_count_stored self st row) by done.
    eexists _, _. split; [done|]. split.
    + simpl. by apply list_elem_of_fmap_2.
    + unfold add_to_property_count. rewrite decide_True by done. simpl. lia.
  - intros Hnd Hin Hall.
    destruct (decide (0 < GeoBucket.property_count self)%Z) as [Hpos|Hzero].
    + rewrite (decrement_property_count_stored self st self) by done.
      simpl. apply Forall_fmap, Forall_forall. intros row Hrow. simpl.
      rewrite Forall_forall in Hall. pose proof (Hall row Hrow) as Hge.
      unfold add_to_property_count. case_decide as Hid; [|done]. simpl.
      assert (row = self) as ->
        by (by apply (same_row GeoBucket.id (geo_buckets st))).
      lia.
    + unfold decrement_property_count.
      by rewrite bool_decide_eq_false_2.
Qed.

(** X27.  [PropertySerializer.create] on tables in which every bucket
    counts its properties: the call succeeds and keeps the tables so; the
    property gets the next key of the sequence and is stored, with its
    location as [(lng, lat)] and the time of the call as [created_at],
    in the bucket of the cell of its coordinates, whose count is one more
    than the number of properties that were in it. *)
Theorem create_counts_the_property {grid : H3} {db : Database}
    (now : Z) (validated_data : PropertyWrites.validated)
    (tables : Tables) :
  tables_ok tables →
  ∃ tables' property bucket,
    PropertyWrites.create now validated_data tables
    = (tables', Done property)
    ∧ tables_ok tables'
    ∧ Property.pk property = Some (next_property_id tables)
    ∧ Property.bucket property = Some bucket
    ∧ bucket ∈ geo_buckets (store tables')
    ∧ GeoBucket.h3_index bucket
      = calculate_h3_index (PropertyWrites.v_lat validated_data)
          (PropertyWrites.v_lng validated_data)
    ∧ GeoBucket.property_count bucket
      = (count_of (GeoBucket.id bucket) (properties tables) + 1)%Z
    ∧ properties tables'
      = properties tables
        ++ [PropertyRow.mk (next_property_id tables)
              (PropertyWrites.v_title validated_data)
              (PropertyWrites.v_location_name validated_data)
              (PropertyWrites.v_lng validated_data,
               PropertyWrites.v_lat validated_data)
              (Some (GeoBucket.id bucket))
              (PropertyWrites.v_price validated_data)
              (PropertyWrites.v_bedrooms validated_data)
              (PropertyWrites.v_bathrooms validated_data) now].
Proof. intros Hok. by apply create_stored. Qed.

(** The theorem for a first property, on the empty tables. *)
Lemma create_counts_the_property_witness :
  let now := 1700000000%Z in
  let validated_data :=
    PropertyWrites.mk_validated (py "Flat") (py "Ajah") (6.4667) (3.5833)
      15000000 3 2 in
  tables_ok empty_tables
  ∧ ∃ tables' property bucket,
      PropertyWrites.create (grid := Toy.grid) (db := Toy.db) now
        validated_data empty_tables = (tables', Done property)
      ∧ tables_ok tables'
      ∧ Property.pk property = Some (next_property_id empty_tables)
      ∧ Property.bucket property = Some bucket
      ∧ bucket ∈ geo_buckets (store tables')
      ∧ GeoBucket.h3_index bucket
        = calculate_h3_index (grid := Toy.grid)
            (PropertyWrites.v_lat validated_data)
            (PropertyWrites.v_lng validated_data)
      ∧ GeoBucket.property_count bucket
        = (count_of (GeoBucket.id bucket) (properties empty_tables) + 1)%Z
      ∧ properties tables'
        = properties empty_tables
          ++ [PropertyRow.mk (next_property_id empty_tables)
                (PropertyWrites.v_title validated_data)
                (PropertyWrites.v_location_name validated_data)
                (PropertyWrites.v_lng validated_data,
                 PropertyWrites.v_lat validated_data)
                (Some (GeoBucket.id bucket))
                (PropertyWrites.v_price validated_data)
                (PropertyWrites.v_bedrooms validated_data)
                (PropertyWrites.v_bathrooms validated_data) now].
Proof.
  split; [exact tables_ok_empty|].
  exact (create_counts_the_property (grid := Toy.grid) (db := Toy.db)
           _ _ empty_tables tables_ok_empty).
Defined.

(** X28.  [Property.delete] on a stored property, as a query with
    [select_related('bucket')] returns it: the call succeeds, removes the
    row of the property and no other, leaves the instance without key,
    and keeps the tables such that every bucket counts its properties; no
    count becomes negative. *)
Theorem delete_uncounts_the_property (tables : Tables) (r0 : PropertyRow.t) :
  tables_ok tables → r0 ∈ properties tables →
  ∃ tables' property,
    PropertyModel.delete (instance_of tables r0) tables
    = (tables', Done property)
    ∧ tables_ok tables'
    ∧ Property.pk property = None
    ∧ properties tables'
      = filter (fun r => PropertyRow.id r ≠ PropertyRow.id r0)
               (properties tables)
    ∧ (∀ r, r ∈ properties tables' ↔ r ∈ properties tables ∧ r ≠ r0)
    ∧ (∀ bucket, bucket ∈ geo_buckets (store tables') →
         (0 ≤ GeoBucket.property_count bucket)%Z).
Proof.
  intros Hok Hin. pose proof Hok as (Hb & Hp & Hc)%tables_ok_parts.
  pose proof Hb as ((_ & Hids & _) & _). pose proof Hp as [Hpids Hrows].
  assert (∀ tables', tables_ok tables' →
            properties tables'
            = filter (fun r => PropertyRow.id r ≠ PropertyRow.id r0)
                     (properties tables) →
            (∀ r, r ∈ properties tables' ↔ r ∈ properties tables ∧ r ≠ r0)
            ∧ (∀ bucket, bucket ∈ geo_buckets (store tables') →
                 (0 ≤ GeoBucket.property_count bucket)%Z)) as Hrest.
  { intros tables' Hok' Heq. split.
    - intros r. rewrite Heq, list_elem_of_filter. split.
      + intros [Hne Hr]. split; [done|]. by intros ->.
      + intros [Hr Hne]. split; [|done]. intros Hid. apply Hne.
        by apply (same_row PropertyRow.id (properties tables)).
    - intros bucket Hbucket. destruct Hok' as (_ & _ & _ & _ & _ & Hc').
      unfold counts_ok in Hc'. rewrite Forall_forall in Hc'.
      rewrite (Hc' bucket Hbucket). apply count_of_nonneg. }
  unfold PropertyModel.delete. cbv zeta.
  destruct (PropertyRow.bucket_id r0) as [k|] eqn:Hk.
  - rewrite Forall_forall in Hrows. destruct (Hrows r0 Hin) as [_ Hfk].
    destruct (instance_of_bucket tables r0 k Hids Hk (Hfk k Hk))
      as (row & Hrow & Hid & ->).
    pose proof Hc as Hall. unfold counts_as in Hall.
    rewrite Forall_forall in Hall.
    pose proof (Hall row Hrow) as Hcount. simpl in Hcount.
    pose proof (count_of_elem k (properties tables) r0 Hin Hk) as Hpos.
    rewrite (decrement_property_count_stored row _ row);
      [|done|done|done|rewrite Hcount, Hid; lia].
    simpl.
    assert (tables_ok
              (mkTables (counted (GeoBucket.id row) (-1) (store tables))
                 (filter (fun r => PropertyRow.id r ≠ PropertyRow.id r0)
                         (properties tables))
                 (next_property_id tables))) as Hok'.
    { apply tables_ok_parts. simpl.
      split; [by apply buckets_ok_counted|]. split.
      - apply (properties_ok_buckets (store tables)).
        { intros k'. simpl. by rewrite add_to_property_count_ids. }
        by apply properties_ok_delete.
      - eapply counts_as_ext;
          [|exact (counts_as_counted _ _ (GeoBucket.id row) (-1) Hc)].
        intros k'. simpl.
        pose proof (count_of_delete k' (properties tables) r0 Hpids Hin)
          as Hdel.
        rewrite Hk, holds_key in Hdel. rewrite Hid.
        destruct (decide (k' = k)); lia. }
    eexists _, _. split; [done|]. split; [exact Hok'|].
    split; [done|]. split; [done|]. by apply Hrest.
  - rewrite instance_of_unrelated by done. simpl.
    assert (tables_ok
              (mkTables (store tables)
                 (filter (fun r => PropertyRow.id r ≠ PropertyRow.id r0)
                         (properties tables))
                 (next_property_id tables))) as Hok'.
    { apply tables_ok_parts. simpl. split; [done|].
      split; [by apply properties_ok_delete|].
      eapply counts_as_ext; [|exact Hc]. intros k'. simpl.
      pose proof (count_of_delete k' (properties tables) r0 Hpids Hin)
        as Hdel.
      rewrite Hk in Hdel. unfold holds in Hdel.
      rewrite decide_False in Hdel by done. lia. }
    eexists _, _. split; [done|]. split; [exact Hok'|].
    split; [done|]. split; [done|]. by apply Hrest.
Qed.

(** The theorem for the only property of the tables. *)
Lemma delete_uncounts_the_property_witness :
  let validated_data :=
    PropertyWrites.mk_validated (py "Flat") (py "Ajah") (6.4667) (3.5833)
      15000000 3 2 in
  let tables :=
    (PropertyWrites.create (grid := Toy.grid) (db := Toy.db) 1700000000
       validated_data empty_tables).1 in
  let r0 :=
    PropertyRow.mk 1 (py "Flat") (py "Ajah") (3.5833, 6.4667)%Q (Some 1%Z)
      15000000 3 2 1700000000 in
  tables_ok tables ∧ r0 ∈ properties tables
  ∧ ∃ tables' property,
      PropertyModel.delete (instance_of tables r0) tables
      = (tables', Done property)
      ∧ tables_ok tables'
      ∧ Property.pk property = None
      ∧ properties tables'
        = filter (fun r => PropertyRow.id r ≠ PropertyRow.id r0)
                 (properties tables)
      ∧ (∀ r, r ∈ properties tables' ↔ r ∈ properties tables ∧ r ≠ r0)
      ∧ (∀ bucket, bucket ∈ geo_buckets (store tables') →
           (0 ≤ GeoBucket.property_count bucket)%Z).
Proof.
  intros validated_data tables r0.
  assert (tables_ok tables) as Hok
    by (apply tables_ok_create, tables_ok_empty).
  assert (r0 ∈ properties tables) as Hin by (vm_compute; left).
  split; [exact Hok|]. split; [exact Hin|].
  exact (delete_uncounts_the_property tables r0 Hok Hin).
Defined.

(** X29.  [Property.save] on an instance with the key of a stored
    property, whose bucket (if it has one) is a row of the table.  If
    the instance holds a [created_at], as a loaded instance does, the
    call succeeds, the row of the property becomes that of the instance
    and no other row changes, and afterwards the count of every bucket
    is the number of its properties again, also when the property has
    gone from one bucket to another or out of its bucket.  If the
    instance holds no [created_at], as one built with the key does, the
    update is refused with [IntegrityError] and nothing is written. *)
Theorem save_moves_the_count (now : Z) (tables : Tables)
    (r0 : PropertyRow.t) (self : Property.t) :
  tables_ok tables → r0 ∈ properties tables →
  Property.pk self = Some (PropertyRow.id r0) →
  (∀ bucket, Property.bucket self = Some bucket →
             bucket ∈ geo_buckets (store tables)) →
  match Property.created_at self with
  | None =>
      PropertyModel.save now self tables
      = (tables, Failed (StoreExn IntegrityError))
  | Some created_at =>
      ∃ tables' saved,
        PropertyModel.save now self tables = (tables', Done saved)
        ∧ tables_ok tables'
        ∧ Property.pk saved = Some (PropertyRow.id r0)
        ∧ PropertyRow.id <$> properties tables'
          = PropertyRow.id <$> properties tables
        ∧ (∀ r, r ∈ properties tables' ↔
                r = Property.row (PropertyRow.id r0) created_at self
                ∨ (r ∈ properties tables ∧ r ≠ r0))
        ∧ ∀ bucket, bucket ∈ geo_buckets (store tables') →
            GeoBucket.property_count bucket
            = count_of (GeoBucket.id bucket) (properties tables')
  end.
Proof.
  intros Hok Hin Hpk Hfresh.
  destruct (Property.created_at self) as [created_at|] eqn:Hcreated.
  - destruct (save_stored now tables r0 self created_at Hok Hin Hpk Hcreated
                Hfresh)
      as (tables' & saved & Hsave & Hok' & Hrows & _ & Hpk' & _).
    exists tables', saved. split; [done|]. split; [done|]. split; [done|].
    pose proof Hok as (_ & [Hnd _] & _)%tables_ok_parts.
    rewrite Hrows. split; [apply replaced_ids|]. split.
    { intros r. by apply replaced_elem. }
    intros bucket Hbucket. rewrite <- Hrows.
    destruct Hok' as (_ & _ & _ & _ & _ & Hc).
    unfold counts_ok in Hc. rewrite Forall_forall in Hc. by apply Hc.
  - unfold PropertyModel.save. cbv zeta.
    rewrite (model_save_unstamped now self tables (PropertyRow.id r0));
      [done..|].
    by apply list_elem_of_fmap_2.
Qed.

(** The theorem for a loaded property of the bucket "ajah" that is
    saved with the bucket "bodija". *)
Lemma save_moves_the_count_witness :
  let flat :=
    PropertyWrites.mk_validated (py "Flat") (py "Ajah") (6.4667) (3.5833)
      15000000 3 2 in
  let house :=
    PropertyWrites.mk_validated (py "House") (py "Bodija") (7.4352) (3.9142)
      40000000 4 3 in
  let tables :=
    (PropertyWrites.create (grid := Toy.grid) (db := Toy.db) 1700000060
       house
       (PropertyWrites.create (grid := Toy.grid) (db := Toy.db) 1700000000
          flat empty_tables).1).1 in
  let r0 :=
    PropertyRow.mk 1 (py "Flat") (py "Ajah") (3.5833, 6.4667)%Q (Some 1%Z)
      15000000 3 2 1700000000 in
  let bodija :=
    GeoBucket.mk 2 (py "a") (0, 15 # 2)%Q (py "bodija") [py "Bodija"] 1 in
  let self :=
    Property.mk (Some 1%Z) (py "Flat") (py "Bodija") (3.9142, 7.4352)%Q
      (Some bodija) 15000000 3 2 (Some 1700000000%Z) in
  tables_ok tables ∧ r0 ∈ properties tables
  ∧ Property.pk self = Some (PropertyRow.id r0)
  ∧ (∀ bucket, Property.bucket self = Some bucket →
               bucket ∈ geo_buckets (store tables))
  ∧ ∃ tables' saved,
      PropertyModel.save 1700000120 self tables = (tables', Done saved)
      ∧ tables_ok tables'
      ∧ Property.pk saved = Some (PropertyRow.id r0)
      ∧ PropertyRow.id <$> properties tables'
        = PropertyRow.id <$> properties tables
      ∧ (∀ r, r ∈ properties tables' ↔
              r = Property.row (PropertyRow.id r0) 1700000000 self
              ∨ (r ∈ properties tables ∧ r ≠ r0))
      ∧ ∀ bucket, bucket ∈ geo_buckets (store tables') →
          GeoBucket.property_count bucket
          = count_of (GeoBucket.id bucket) (properties tables').
Proof.
  intros flat house tables r0 bodija self.
  assert (tables_ok tables) as Hok
    by (do 2 apply tables_ok_create; apply tables_ok_empty).
  assert (r0 ∈ properties tables) as Hin by (vm_compute; left).
  assert (∀ bucket, Property.bucket self = Some bucket →
                    bucket ∈ geo_buckets (store tables)) as Hfresh.
  { intros bucket [= <-]. vm_compute. right. left. }
  split; [exact Hok|]. split; [exact Hin|]. split; [reflexivity|].
  split; [exact Hfresh|].
  exact (save_moves_the_count 1700000120 tables r0 self Hok Hin eq_refl
           Hfresh).
Defined.

(** X30.  [PropertySerializer.update] on a stored property.  With both
    [lat] and [lng] in the data, the property is stored with the location
    [(lng, lat)] in the bucket of the cell of these coordinates; with one
    of them missing, location and bucket stay as they are and the table
    of buckets is not written.  The other fields take the values given
    for them, [created_at] stays, the call succeeds, and every bucket
    counts its properties afterwards. *)
Theorem update_moves_the_property {grid : H3} {db : Database}
    (now : Z) (validated_data : PropertyWrites.changes) (tables : Tables)
    (r0 : PropertyRow.t) :
  tables_ok tables → r0 ∈ properties tables →
  ∃ tables' property location bucket_id,
    PropertyWrites.update now (instance_of tables r0) validated_data tables
    = (tables', Done property)
    ∧ tables_ok tables'
    ∧ Property.pk property = Some (PropertyRow.id r0)
    ∧ properties tables'
      = replaced
          (PropertyRow.mk (PropertyRow.id r0)
             (default (PropertyRow.title r0)
                (PropertyWrites.c_title validated_data))
             (default (PropertyRow.location_name r0)
                (PropertyWrites.c_location_name validated_data))
             location bucket_id
             (default (PropertyRow.price r0)
                (PropertyWrites.c_price validated_data))
             (default (PropertyRow.bedrooms r0)
                (PropertyWrites.c_bedrooms validated_data))
             (default (PropertyRow.bathrooms r0)
                (PropertyWrites.c_bathrooms validated_data))
             (PropertyRow.created_at r0))
          (properties tables)
    ∧ match PropertyWrites.c_lat validated_data,
            PropertyWrites.c_lng validated_data with
      | Some lat, Some lng =>
          location = (lng, lat)
          ∧ ∃ bucket, bucket_id = Some (GeoBucket.id bucket)
                      ∧ bucket ∈ geo_buckets (store tables')
                      ∧ GeoBucket.h3_index bucket = calculate_h3_index lat lng
      | _, _ =>
          location = PropertyRow.location r0
          ∧ bucket_id = PropertyRow.bucket_id r0
          ∧ store tables' = store tables
      end.
Proof.
  intros Hok Hin. pose proof Hok as (Hb & Hp & Hc)%tables_ok_parts.
  pose proof Hb as ((_ & Hids & _) & _). pose proof Hp as [Hpids Hrows].
  rewrite Forall_forall in Hrows.
  assert (∀ self,
            Property.pk self = Some (PropertyRow.id r0) →
            Property.created_at self = Some (PropertyRow.created_at r0) →
            Property.bucket self = Property.bucket (instance_of tables r0) →
            ∃ tables' saved,
              PropertyModel.save now self tables = (tables', Done saved)
              ∧ tables_ok tables'
              ∧ properties tables'
                = replaced (Property.row (PropertyRow.id r0)
                              (PropertyRow.created_at r0) self)
                    (properties tables)
              ∧ Property.pk saved = Some (PropertyRow.id r0)
              ∧ Property.bucket_id self = PropertyRow.bucket_id r0
              ∧ store tables' = store tables) as Hsame.
  { intros self Hpk Hcreated Hbucket.
    assert (Property.bucket_id self = PropertyRow.bucket_id r0
            ∧ ∀ bucket, Property.bucket self = Some bucket →
                        bucket ∈ geo_buckets (store tables)) as [Hkey Hfresh].
    { unfold Property.bucket_id. rewrite Hbucket.
      destruct (PropertyRow.bucket_id r0) as [k|] eqn:Hk.
      - destruct (Hrows r0 Hin) as [_ Hfk].
        destruct (instance_of_bucket tables r0 k Hids Hk (Hfk k Hk))
          as (row & Hrow & <- & ->).
        split; [done|]. by intros bucket [= <-].
      - rewrite (instance_of_unrelated tables r0 Hk). by split. }
    destruct (save_stored now tables r0 self (PropertyRow.created_at r0)
                Hok Hin Hpk Hcreated Hfresh)
      as (tables' & saved & Hsave & Hok' & Hprops & _ & Hpk' & _ & Hstore).
    rewrite decide_True in Hstore by done.
    by exists tables', saved. }
  destruct validated_data as [title name lat lng price beds baths].
  unfold PropertyWrites.update. cbv zeta. simpl.
  destruct lat as [lat|]; [destruct lng as [lng|]|].
  - destruct (find_or_create_bucket_buckets lat lng
                (default (PropertyRow.location_name r0) name) (store tables)
                (fun k => count_of k (properties tables)) Hb Hc)
      as (st1 & found & -> & Hb1 & Hc1 & Hin1 & Hcell & Hsub & _).
    { intros k Hk. destruct Hb as [Hstore _]. by eapply count_of_beyond. }
    pose proof (properties_ok_buckets _ st1 _ _ Hsub Hp) as Hp1.
    assert (tables_ok (with_store st1 tables)) as Hok1
      by (by apply tables_ok_parts).
    set (self := PropertyWrites.set_attributes _ _).
    destruct (save_stored now (with_store st1 tables) r0 self
                (PropertyRow.created_at r0) Hok1 Hin eq_refl eq_refl)
      as (tables' & saved & -> & Hok' & Hprops & _ & Hpk' & _ & Hstore).
    { by intros bucket [= <-]. }
    eexists tables', saved, (lng, lat), (Some (GeoBucket.id found)).
    split; [done|]. split; [done|]. split; [done|]. split; [done|].
    split; [done|].
    assert (∃ bucket, bucket ∈ geo_buckets (store tables')
                      ∧ GeoBucket.id bucket = GeoBucket.id found
                      ∧ GeoBucket.h3_index bucket = GeoBucket.h3_index found)
      as (bucket & Hbucket & Hid & Hcell').
    { rewrite Hstore. case_decide; [by exists found|].
      by apply moved_rows. }
    exists bucket. rewrite Hid, Hcell'. by repeat split.
  - destruct (Hsame (PropertyWrites.set_attributes (instance_of tables r0)
                       (PropertyWrites.mk_changes title name (Some lat) None
                          price beds baths)) eq_refl eq_refl eq_refl)
      as (tables' & saved & -> & Hok' & Hprops & Hpk' & Hkey & Hstore).
    eexists tables', saved, _, _. split; [done|]. split; [done|].
    split; [done|]. split; [|by repeat split].
    rewrite Hprops. unfold Property.row. by rewrite Hkey.
  - destruct (Hsame (PropertyWrites.set_attributes (instance_of tables r0)
                       (PropertyWrites.mk_changes title name None lng
                          price beds baths)) eq_refl eq_refl eq_refl)
      as (tables' & saved & -> & Hok' & Hprops & Hpk' & Hkey & Hstore).
    eexists tables', saved, _, _. split; [done|]. split; [done|].
    split; [done|]. split; [|by repeat split].
    rewrite Hprops. unfold Property.row. by rewrite Hkey.
Qed.

(** The theorem for a property in "Ajah" that is moved to Bodija. *)
Lemma update_moves_the_property_witness :
  let flat :=
    PropertyWrites.mk_validated (py "Flat") (py "Ajah") (6.4667) (3.5833)
      15000000 3 2 in
  let tables :=
    (PropertyWrites.create (grid := Toy.grid) (db := Toy.db) 1700000000
       flat empty_tables).1 in
  let r0 :=
    PropertyRow.mk 1 (py "Flat") (py "Ajah") (3.5833, 6.4667)%Q (Some 1%Z)
      15000000 3 2 1700000000 in
  let validated_data :=
    PropertyWrites.mk_changes None (Some (py "Bodija")) (Some (7.4352)%Q)
      (Some (3.9142)%Q) None None None in
  tables_ok tables ∧ r0 ∈ properties tables
  ∧ ∃ tables' property location bucket_id,
      PropertyWrites.update (grid := Toy.grid) (db := Toy.db) 1700000120
        (instance_of tables r0) validated_data tables
      = (tables', Done property)
      ∧ tables_ok tables'
      ∧ Property.pk property = Some (PropertyRow.id r0)
      ∧ properties tables'
        = replaced
            (PropertyRow.mk (PropertyRow.id r0)
               (default (PropertyRow.title r0)
                  (PropertyWrites.c_title validated_data))
               (default (PropertyRow.location_name r0)
                  (PropertyWrites.c_location_name validated_data))
               location bucket_id
               (default (PropertyRow.price r0)
                  (PropertyWrites.c_price validated_data))
               (default (PropertyRow.bedrooms r0)
                  (PropertyWrites.c_bedrooms validated_data))
               (default (PropertyRow.bathrooms r0)
                  (PropertyWrites.c_bathrooms validated_data))
               (PropertyRow.created_at r0))
            (properties tables)
      ∧ match PropertyWrites.c_lat validated_data,
              PropertyWrites.c_lng validated_data with
        | Some lat, Some lng =>
            location = (lng, lat)
            ∧ ∃ bucket, bucket_id = Some (GeoBucket.id bucket)
                        ∧ bucket ∈ geo_buckets (store tables')
                        ∧ GeoBucket.h3_index bucket
                          = calculate_h3_index (grid := Toy.grid) lat lng
        | _, _ =>
            location = PropertyRow.location r0
            ∧ bucket_id = PropertyRow.bucket_id r0
            ∧ store tables' = store tables
        end.
Proof.
  intros flat tables r0 validated_data.
  assert (tables_ok tables) as Hok
    by (apply tables_ok_create, tables_ok_empty).
  assert (r0 ∈ properties tables) as Hin by (vm_compute; left).
  split; [exact Hok|]. split; [exact Hin|].
  exact (update_moves_the_property (grid := Toy.grid) (db := Toy.db)
           1700000120 validated_data tables r0 Hok Hin).
Defined.
